(** * A shallow embedding of the Pintos-style file system core

    Sources embedded here:
    - [src/cache.c], [src/cache.h]   : the write-back LRU buffer cache;
    - [src/inode.c]                  : the inode layer (index walk, create,
                                       open/close, read/write, deny/allow);
    - [src/unnamed/part_000]         : the facade ([filesys_make] and the
                                       path normalisation it uses);
    - [src/unnamed/part_001]         : the earlier inode layer, written against
                                       the earlier cache interface.

    The C globals ([caches], [cache_count], [filesys_disk], [open_inodes],
    the free-map) are the fields of one [state] record that every function
    threads through a state-and-abort monad.  A failed [ASSERT], a
    [PANIC] and an access outside an object all end in [Abort].  Locks are
    not modelled: every function runs atomically. *)

From Stdlib Require Import ZArith Lia Ascii String.
From stdpp Require Import gmap list strings.

Local Open Scope Z_scope.

(** ** Bytes, words and sector buffers *)

(** devices/disk.h is not part of the sources; the sector size is pinned by
    [ASSERT (sizeof *data == DISK_SECTOR_SIZE)] in part_001, whose
    [struct inode_disk] is 4 + 48 + 4 + 4 + 4 + 448 bytes long. *)
Definition DISK_SECTOR_SIZE : Z := 512.

(** cache.h *)
Definition CACHE_MAX : Z := 64.

(** A byte is a [Z]; a sector buffer is a list of bytes. *)
Definition zeros (n : Z) : list Z := replicate (Z.to_nat n) 0.

(** The [size] bytes of [data] that start at [off]: the source of a
    [memcpy (buf, data + off, size)]. *)
Definition bytes_at (data : list Z) (off size : Z) : list Z :=
  take (Z.to_nat size) (drop (Z.to_nat off) data).

(** [memcpy (data + off, buf, size)]. *)
Definition memcpy (data : list Z) (off : Z) (buf : list Z) (size : Z) : list Z :=
  let src := take (Z.to_nat size) buf in
  take (Z.to_nat off) data ++ src ++ drop (Z.to_nat off + length src) data.

(** Little-endian 32-bit words, as the x86 target stores a [disk_sector_t]
    or an [off_t]. *)
Definition le_word (bs : list Z) : Z := foldr (λ b acc, b + 256 * acc) 0 bs.

Fixpoint le_bytes (n : nat) (v : Z) : list Z :=
  match n with
  | O => []
  | S n' => v `mod` 256 :: le_bytes n' (v `div` 256)
  end.

(** Conversions between the 32-bit types: [disk_sector_t] and [size_t] are
    unsigned, [off_t] and [int] are signed. *)
Definition to_unsigned (z : Z) : Z := z `mod` 2 ^ 32.
Definition to_signed (z : Z) : Z := (z + 2 ^ 31) `mod` 2 ^ 32 - 2 ^ 31.

(** ** The global state *)

(** cache.h, [struct cache] (the list linkage is the position in [caches]). *)
Record cache := mk_cache {
  cache_sector : Z;
  cache_dirty : bool;
  cache_data : list Z
}.

(** inode.c, [struct inode]. *)
Record inode := mk_inode {
  inode_sector : Z;
  open_cnt : Z;
  removed : bool;
  deny_write_cnt : Z
}.

Record state := mk_state {
  disk : gmap Z (list Z);        (* filesys_disk: sector -> contents       *)
  caches : list cache;           (* cache.c, front = most recently used    *)
  cache_count : Z;               (* cache.c                                *)
  free_map : list bool;          (* free-map: bit i set = sector i in use  *)
  inodes : gmap nat inode;       (* the heap of [struct inode]             *)
  open_inodes : list nat         (* inode.c, list of pointers into [inodes]*)
}.

Definition set_disk (d : gmap Z (list Z)) (st : state) : state :=
  mk_state d (caches st) (cache_count st) (free_map st) (inodes st) (open_inodes st).
Definition set_caches (l : list cache) (st : state) : state :=
  mk_state (disk st) l (cache_count st) (free_map st) (inodes st) (open_inodes st).
Definition set_cache_count (n : Z) (st : state) : state :=
  mk_state (disk st) (caches st) n (free_map st) (inodes st) (open_inodes st).
Definition set_free_map (m : list bool) (st : state) : state :=
  mk_state (disk st) (caches st) (cache_count st) m (inodes st) (open_inodes st).
Definition set_inodes (h : gmap nat inode) (st : state) : state :=
  mk_state (disk st) (caches st) (cache_count st) (free_map st) h (open_inodes st).
Definition set_open_inodes (l : list nat) (st : state) : state :=
  mk_state (disk st) (caches st) (cache_count st) (free_map st) (inodes st) l.

(** ** The state-and-abort monad *)

Inductive result (A : Type) : Type :=
  | Ok (a : A)
  | Abort.
Arguments Ok {A} a.
Arguments Abort {A}.

Definition M (A : Type) : Type := state → result (A * state).

#[global] Instance M_ret : MRet M := λ A a st, Ok (a, st).
#[global] Instance M_bind : MBind M := λ A B f m st,
  match m st with
  | Ok (a, st') => f a st'
  | Abort => Abort
  end.

Definition abort {A} : M A := λ _, Abort.
Definition get : M state := λ st, Ok (st, st).
Definition modify (f : state → state) : M unit := λ st, Ok (tt, f st).

(** debug.h: a failed assertion panics the kernel. *)
Definition ASSERT (b : bool) : M unit := if b then mret tt else abort.

(** ** The block device

    Modelled from the spec: devices/disk.c is not part of the sources; the
    device "provides synchronous sector read/write on a 0-based sector
    index".  A sector that was never written reads as zeroes. *)
Definition disk_read (d : gmap Z (list Z)) (sector : Z) : list Z :=
  default (zeros DISK_SECTOR_SIZE) (d !! sector).

Definition disk_write (sector : Z) (data : list Z) : M unit :=
  modify (λ st, set_disk (<[sector := data]> (disk st)) st).

(** ** cache.c *)

Definition cache_init : M unit :=
  modify (λ st, set_cache_count 0 (set_caches [] st)).

(** [cache_save]: write the slot back if it is dirty; the dirty bit stays. *)
Definition cache_save (c : cache) : M unit :=
  if cache_dirty c then disk_write (cache_sector c) (cache_data c) else mret tt.

(** [cache_save_all]: the [for] loop over the list, front to back. *)
Fixpoint cache_save_list (l : list cache) : M unit :=
  match l with
  | [] => mret tt
  | c :: l' => cache_save c ;; cache_save_list l'
  end.

Definition cache_save_all : M unit :=
  st ← get; cache_save_list (caches st).

(** [cache_evict]: [list_pop_back] asserts that the list is not empty. *)
Definition cache_evict : M unit :=
  st ← get;
  match last (caches st) with
  | None => abort
  | Some c =>
      modify (set_caches (removelast (caches st))) ;;
      modify (λ st, set_cache_count (cache_count st - 1) st) ;;
      cache_save c
  end.

(** [cache_make]: the new slot is [calloc]ed, so its data is zero and its
    dirty bit clear; the result is the position of the new slot. *)
Definition cache_make (sector : Z) (read : bool) : M nat :=
  st ← get;
  (if decide (cache_count st = CACHE_MAX) then cache_evict else mret tt) ;;
  st ← get;
  let data := if read then disk_read (disk st) sector
              else zeros DISK_SECTOR_SIZE in
  modify (set_caches (mk_cache sector false data :: caches st)) ;;
  modify (λ st, set_cache_count (cache_count st + 1) st) ;;
  mret 0%nat.

(** [cache_lookup]: the first slot for [sector], as a position in the list;
    [None] is the null pointer. *)
Definition cache_lookup (sector : Z) (make : bool) : M (option nat) :=
  st ← get;
  match list_find (λ c, cache_sector c = sector) (caches st) with
  | Some (i, _) => mret (Some i)
  | None => if make then i ← cache_make sector true; mret (Some i)
            else mret None
  end.

(** [list_remove (&c->elem); list_push_front (&caches, &c->elem)] with the
    slot's new contents. *)
Definition touch (i : nat) (c : cache) : M unit :=
  modify (λ st, set_caches (c :: delete i (caches st)) st).

(** The assertion [off + size <= DISK_SECTOR_SIZE] is evaluated in
    [size_t], i.e. modulo 2^32. *)
Definition in_sector (off size : Z) : bool :=
  bool_decide (to_unsigned (off + size) ≤ DISK_SECTOR_SIZE).

(** A [memcpy] that leaves the 512 bytes of the slot is undefined in C; the
    model aborts there. *)
Definition in_bounds (off size : Z) : bool :=
  bool_decide (0 ≤ off ∧ 0 ≤ size ∧ off + size ≤ DISK_SECTOR_SIZE).

Definition cache_write (sector : Z) (buf : list Z) (off size : Z) : M unit :=
  ASSERT (in_sector off size) ;;
  if decide (size = 0) then mret tt else
  c ← cache_lookup sector true;
  st ← get;
  match c ≫= (λ i, (λ s, (i, s)) <$> caches st !! i) with
  | None => abort
  | Some (i, s) =>
      ASSERT (in_bounds off size) ;;
      touch i (mk_cache (cache_sector s) true (memcpy (cache_data s) off buf size))
  end.

Definition cache_read (sector : Z) (off size : Z) : M (list Z) :=
  ASSERT (in_sector off size) ;;
  if decide (size = 0) then mret [] else
  c ← cache_lookup sector true;
  st ← get;
  match c ≫= (λ i, (λ s, (i, s)) <$> caches st !! i) with
  | None => abort
  | Some (i, s) =>
      ASSERT (in_bounds off size) ;;
      touch i s ;;
      mret (bytes_at (cache_data s) off size)
  end.

Definition cache_create (sector : Z) : M unit :=
  cache_make sector false ;; mret tt.

(** [cache_remove]: the slot is dropped without being written back. *)
Definition cache_remove (sector : Z) : M unit :=
  c ← cache_lookup sector false;
  match c with
  | Some i =>
      modify (λ st, set_caches (delete i (caches st)) st) ;;
      modify (λ st, set_cache_count (cache_count st - 1) st)
  | None => mret tt
  end.

Definition cache_backup : M unit := cache_save_all.


(** ** Running monadic code in proofs *)

Lemma bind_unfold {A B} (m : M A) (f : A → M B) st :
  (m ≫= f) st = match m st with Ok (a, st') => f a st' | Abort => Abort end.
Proof. reflexivity. Qed.

Lemma bind_Ok {A B} (m : M A) (f : A → M B) st a st' :
  m st = Ok (a, st') → (m ≫= f) st = f a st'.
Proof. intros H. rewrite bind_unfold, H. reflexivity. Qed.

Lemma bind_Abort {A B} (m : M A) (f : A → M B) st :
  m st = Abort → (m ≫= f) st = Abort.
Proof. intros H. rewrite bind_unfold, H. reflexivity. Qed.

Ltac mrun :=
  repeat (progress (unfold mbind, M_bind, mret, M_ret, get, modify, abort, ASSERT;
                    cbn beta iota)).

(** ** The cache: flushing *)

(** What [cache_save] does to the disk. *)
Definition save_to (d : gmap Z (list Z)) (c : cache) : gmap Z (list Z) :=
  if cache_dirty c then <[cache_sector c := cache_data c]> d else d.

Definition flush (d : gmap Z (list Z)) (l : list cache) : gmap Z (list Z) :=
  foldl save_to d l.

Lemma cache_save_spec c st :
  cache_save c st = Ok (tt, set_disk (save_to (disk st) c) st).
Proof.
  unfold cache_save, save_to, disk_write. destruct (cache_dirty c); [done|].
  by destruct st.
Qed.

Lemma cache_save_list_spec l st :
  cache_save_list l st = Ok (tt, set_disk (flush (disk st) l) st).
Proof.
  revert st. induction l as [|c l IH]; intros st; simpl.
  - by destruct st.
  - rewrite bind_unfold, cache_save_spec, IH. by destruct st.
Qed.

Lemma cache_save_all_spec st :
  cache_save_all st = Ok (tt, set_disk (flush (disk st) (caches st)) st).
Proof. unfold cache_save_all. mrun. apply cache_save_list_spec. Qed.

(** The sectors that a flush of [l] overwrites. *)
Definition dirty_sectors (l : list cache) : list Z :=
  cache_sector <$> filter (λ c, cache_dirty c = true) l.

Lemma flush_frame l d s :
  s ∉ dirty_sectors l → flush d l !! s = d !! s.
Proof.
  revert d. induction l as [|c l IH]; intros d Hs; [done|].
  unfold dirty_sectors in Hs. rewrite filter_cons in Hs.
  change (flush (save_to d c) l !! s = d !! s). unfold save_to.
  destruct (cache_dirty c) eqn:Hd.
  - rewrite decide_True in Hs by done. rewrite fmap_cons in Hs.
    apply not_elem_of_cons in Hs as [Hne Hs].
    rewrite IH by done. by rewrite lookup_insert_ne.
  - rewrite decide_False in Hs by done. by rewrite IH.
Qed.

Lemma flush_agree l d1 d2 :
  (∀ s, s ∉ dirty_sectors l → d1 !! s = d2 !! s) → flush d1 l = flush d2 l.
Proof.
  revert d1 d2. induction l as [|c l IH]; intros d1 d2 H.
  - apply map_eq. intros s. apply H. apply not_elem_of_nil.
  - change (flush (save_to d1 c) l = flush (save_to d2 c) l).
    apply IH. intros s Hs. unfold save_to.
    assert (Hc : dirty_sectors (c :: l) =
      if cache_dirty c then cache_sector c :: dirty_sectors l else dirty_sectors l).
    { unfold dirty_sectors. rewrite filter_cons.
      destruct (cache_dirty c); [by rewrite decide_True | by rewrite decide_False]. }
    rewrite Hc in H. destruct (cache_dirty c).
    + destruct (decide (cache_sector c = s)) as [->|Hne].
      * by rewrite !lookup_insert_eq.
      * rewrite !lookup_insert_ne by done. apply H.
        apply not_elem_of_cons. split; [congruence | done].
    + by apply H.
Qed.

Lemma flush_idemp l d : flush (flush d l) l = flush d l.
Proof. apply flush_agree. intros s Hs. by apply flush_frame. Qed.

(** ** The cache: reachable states *)

(** The calls of cache.h that a running system makes after [cache_init]. *)
Inductive cache_call :=
  | CallCreate (sector : Z)
  | CallWrite (sector : Z) (buf : list Z) (off size : Z)
  | CallRead (sector : Z) (off size : Z)
  | CallRemove (sector : Z)
  | CallBackup.

Definition run_call (c : cache_call) : M unit :=
  match c with
  | CallCreate sector => cache_create sector
  | CallWrite sector buf off size => cache_write sector buf off size
  | CallRead sector off size => cache_read sector off size ;; mret tt
  | CallRemove sector => cache_remove sector
  | CallBackup => cache_backup
  end.

Inductive reachable : state → Prop :=
  | reachable_init st st' :
      cache_init st = Ok (tt, st') → reachable st'
  | reachable_call st c st' :
      reachable st → run_call c st = Ok (tt, st') → reachable st'.

(** [cache_count] is the number of slots, and never exceeds [CACHE_MAX]. *)
Definition count_ok (st : state) : Prop :=
  cache_count st = Z.of_nat (length (caches st)) ∧ cache_count st ≤ CACHE_MAX.

(** The state after [cache_evict] when the list is [l ++ [t]]. *)
Definition pop_slot (l : list cache) (t : cache) (st : state) : state :=
  set_disk (save_to (disk st) t)
    (set_cache_count (cache_count st - 1) (set_caches l st)).

(** The state after the [list_push_front] and [cache_count++] of
    [cache_make]. *)
Definition push_slot (c : cache) (st : state) : state :=
  set_cache_count (cache_count st + 1) (set_caches (c :: caches st) st).

Definition fresh_slot (sector : Z) (read : bool) (st : state) : cache :=
  mk_cache sector false
    (if read then disk_read (disk st) sector else zeros DISK_SECTOR_SIZE).

Lemma cache_evict_spec st l t :
  caches st = l ++ [t] → cache_evict st = Ok (tt, pop_slot l t st).
Proof.
  intros H. unfold cache_evict. mrun.
  rewrite H, last_snoc. mrun. rewrite cache_save_spec.
  cbn. rewrite removelast_last. by destruct st.
Qed.

Lemma cache_evict_empty st : caches st = [] → cache_evict st = Abort.
Proof. intros H. unfold cache_evict. mrun. by rewrite H. Qed.

Lemma cache_make_full sector read st l t :
  cache_count st = CACHE_MAX → caches st = l ++ [t] →
  cache_make sector read st =
    Ok (0%nat, push_slot (fresh_slot sector read (pop_slot l t st)) (pop_slot l t st)).
Proof.
  intros Hc Hl. unfold cache_make. mrun.
  rewrite decide_True by done. rewrite (cache_evict_spec _ _ _ Hl). mrun.
  reflexivity.
Qed.

Lemma cache_make_room sector read st :
  cache_count st ≠ CACHE_MAX →
  cache_make sector read st = Ok (0%nat, push_slot (fresh_slot sector read st) st).
Proof.
  intros Hc. unfold cache_make. mrun. rewrite decide_False by done. mrun.
  reflexivity.
Qed.

Lemma nonempty_snoc {A} (l : list A) : l ≠ [] → ∃ l' t, l = l' ++ [t].
Proof.
  intros H. destruct (decide (l = [])) as [|_]; [done|].
  induction l as [|x l IH] using rev_ind; [done|]. eauto.
Qed.

Lemma count_ok_full st :
  count_ok st → cache_count st = CACHE_MAX → ∃ l t, caches st = l ++ [t].
Proof.
  intros [Hc _] Hm. apply nonempty_snoc. intros Hnil.
  rewrite Hnil in Hc. simpl in Hc. unfold CACHE_MAX in Hm. lia.
Qed.

Lemma cache_make_count_ok sector read st :
  count_ok st → ∃ st', cache_make sector read st = Ok (0%nat, st') ∧ count_ok st'.
Proof.
  intros Hok. destruct (decide (cache_count st = CACHE_MAX)) as [Hm|Hm].
  - destruct (count_ok_full _ Hok Hm) as (l & t & Hl).
    eexists. split; [by apply cache_make_full|].
    destruct Hok as [Hc Hle]. rewrite Hl, length_app in Hc. simpl in Hc.
    split; cbn; lia.
  - eexists. split; [by apply cache_make_room|].
    destruct Hok as [Hc Hle]. split; cbn; lia.
Qed.

Lemma cache_lookup_hit sector make st i c :
  list_find (λ c, cache_sector c = sector) (caches st) = Some (i, c) →
  cache_lookup sector make st = Ok (Some i, st).
Proof. intros H. unfold cache_lookup. mrun. by rewrite H. Qed.

Lemma cache_lookup_miss sector st :
  list_find (λ c, cache_sector c = sector) (caches st) = None →
  cache_lookup sector true st =
    match cache_make sector true st with
    | Ok (i, st') => Ok (Some i, st')
    | Abort => Abort
    end.
Proof. intros H. unfold cache_lookup. mrun. by rewrite H. Qed.

Lemma cache_lookup_none sector st :
  list_find (λ c, cache_sector c = sector) (caches st) = None →
  cache_lookup sector false st = Ok (None, st).
Proof. intros H. unfold cache_lookup. mrun. by rewrite H. Qed.

Lemma cache_lookup_count_ok sector st :
  count_ok st →
  ∃ i c st', cache_lookup sector true st = Ok (Some i, st') ∧
    caches st' !! i = Some c ∧ cache_sector c = sector ∧ count_ok st'.
Proof.
  intros Hok.
  destruct (list_find (λ c, cache_sector c = sector) (caches st))
    as [[i c]|] eqn:Hf.
  - exists i, c, st. split; [by eapply cache_lookup_hit|].
    apply list_find_Some in Hf as (? & ? & ?). done.
  - destruct (cache_make_count_ok sector true st Hok) as (st' & Hm & Hok').
    assert (∃ c, caches st' !! 0%nat = Some c ∧ cache_sector c = sector)
      as (c & Hc & Hs).
    { destruct (decide (cache_count st = CACHE_MAX)) as [Hx|Hx].
      - destruct (count_ok_full _ Hok Hx) as (l & t & Hl).
        rewrite (cache_make_full _ _ _ _ _ Hx Hl) in Hm. inversion Hm. eauto.
      - rewrite (cache_make_room _ _ _ Hx) in Hm. inversion Hm. eauto. }
    exists 0%nat, c, st'. rewrite (cache_lookup_miss _ _ Hf), Hm. done.
Qed.

Lemma touch_count_ok i c s st :
  caches st !! i = Some s → count_ok st →
  count_ok (set_caches (c :: delete i (caches st)) st).
Proof.
  intros Hi [Hc Hle]. apply lookup_lt_Some in Hi.
  split; cbn; [|done]. rewrite length_delete by eauto using lookup_lt_is_Some_2.
  lia.
Qed.

Lemma cache_write_inv sector buf off size st st' :
  count_ok st → cache_write sector buf off size st = Ok (tt, st') →
  (size = 0 ∧ st' = st) ∨
  ∃ i c st1, cache_lookup sector true st = Ok (Some i, st1) ∧ count_ok st1 ∧
    caches st1 !! i = Some c ∧ cache_sector c = sector ∧
    in_bounds off size = true ∧
    st' = set_caches (mk_cache sector true (memcpy (cache_data c) off buf size)
                        :: delete i (caches st1)) st1.
Proof.
  intros Hok. unfold cache_write. mrun.
  destruct (in_sector off size); [|done]. mrun.
  destruct (decide (size = 0)) as [->|Hsz].
  { intros [= <-]. by left. }
  destruct (cache_lookup_count_ok sector st Hok) as (i & c & st1 & Hl & Hi & Hs & Hok1).
  intros H. rewrite Hl in H. cbn in H. rewrite Hi in H. cbn in H.
  destruct (in_bounds off size); [|done]. unfold touch in H. mrun.
  revert H.
  intros [= <-]. right. exists i, c, st1. rewrite Hs. done.
Qed.

Lemma cache_read_inv sector off size st buf st' :
  count_ok st → cache_read sector off size st = Ok (buf, st') →
  (size = 0 ∧ buf = [] ∧ st' = st) ∨
  ∃ i c st1, cache_lookup sector true st = Ok (Some i, st1) ∧ count_ok st1 ∧
    caches st1 !! i = Some c ∧ cache_sector c = sector ∧
    in_bounds off size = true ∧
    buf = bytes_at (cache_data c) off size ∧
    st' = set_caches (c :: delete i (caches st1)) st1.
Proof.
  intros Hok. unfold cache_read. mrun.
  destruct (in_sector off size); [|done]. mrun.
  destruct (decide (size = 0)) as [->|Hsz].
  { intros [= <- <-]. by left. }
  destruct (cache_lookup_count_ok sector st Hok) as (i & c & st1 & Hl & Hi & Hs & Hok1).
  intros H. rewrite Hl in H. cbn in H. rewrite Hi in H. cbn in H.
  destruct (in_bounds off size); [|done]. unfold touch in H. mrun.
  revert H.
  intros [= <- <-]. right. exists i, c, st1. done.
Qed.

Lemma cache_remove_spec sector st :
  cache_remove sector st =
    match list_find (λ c, cache_sector c = sector) (caches st) with
    | Some (i, _) =>
        Ok (tt, set_cache_count (cache_count st - 1)
                  (set_caches (delete i (caches st)) st))
    | None => Ok (tt, st)
    end.
Proof.
  unfold cache_remove, cache_lookup. mrun.
  destruct (list_find _ _) as [[i c]|]; mrun; reflexivity.
Qed.

Lemma run_call_count_ok c st st' :
  count_ok st → run_call c st = Ok (tt, st') → count_ok st'.
Proof.
  intros Hok. destruct c as [sector|sector buf off size|sector off size|sector|];
    simpl.
  - unfold cache_create. mrun.
    destruct (cache_make_count_ok sector false st Hok) as (st1 & -> & Hok1).
    by intros [= <-].
  - intros H.
    destruct (cache_write_inv _ _ _ _ _ _ Hok H)
      as [[_ ->]|(i & c & st1 & _ & Hok1 & Hi & _ & _ & ->)]; [done|].
    by eapply touch_count_ok.
  - mrun. destruct (cache_read sector off size st) as [[buf st1]|] eqn:H; [|done].
    intros [= <-].
    destruct (cache_read_inv _ _ _ _ _ _ Hok H)
      as [(_ & _ & ->)|(i & c & st2 & _ & Hok1 & Hi & _ & _ & _ & ->)]; [done|].
    by eapply touch_count_ok.
  - rewrite cache_remove_spec.
    destruct (list_find _ _) as [[i c]|] eqn:Hf; intros [= <-]; [|done].
    apply list_find_Some in Hf as (Hi & _). apply lookup_lt_Some in Hi.
    destruct Hok as [Hc Hle]. split; cbn.
    + rewrite length_delete by eauto using lookup_lt_is_Some_2. lia.
    + lia.
  - unfold cache_backup. rewrite cache_save_all_spec. by intros [= <-].
Qed.

Lemma reachable_count_ok st : reachable st → count_ok st.
Proof.
  induction 1 as [st st' H|st c st' _ IH H].
  - unfold cache_init in H. mrun. inversion H. split; cbn; [done|].
    unfold CACHE_MAX. lia.
  - by eapply run_call_count_ok.
Qed.

(** ** The cache: runs of calls *)

Fixpoint run_calls (cs : list cache_call) : M unit :=
  match cs with
  | [] => mret tt
  | c :: cs' => run_call c ;; run_calls cs'
  end.

Lemma run_calls_reachable cs st st' :
  reachable st → run_calls cs st = Ok (tt, st') → reachable st'.
Proof.
  revert st. induction cs as [|c cs IH]; intros st Hr.
  - by intros [= <-].
  - cbn [run_calls]. rewrite bind_unfold.
    destruct (run_call c st) as [[[] st1]|] eqn:Hc; [|done].
    apply IH. by eapply reachable_call.
Qed.

(** ** The cache: the order of the list and the order of use *)

(** The history of a run of calls is kept apart from the code, as a list
    with one entry [(t, s)] for every slot, where [s] is the slot's sector
    and [t] the number of the call that used the slot last.  A call that
    uses a slot stamps it with its own number; every other slot keeps its
    stamp.  The code is compared with it in
    [cache_bounded_and_evicts_tail]. *)

(** No entry of [h] was used before [e]. *)
Definition least_recent (h : list (nat * Z)) (e : nat * Z) : Prop :=
  Forall (λ e', (e.1 ≤ e'.1)%nat) h.

#[global] Instance least_recent_dec h e : Decision (least_recent h e).
Proof. unfold least_recent. apply _. Defined.

(** The policy: what is discarded is what was used least recently. *)
Definition lru_discard (h : list (nat * Z)) : list (nat * Z) :=
  filter (λ e, ¬ least_recent h e) h.

(** A new slot for sector [s], made by call number [t]. *)
Definition lru_new (t : nat) (s : Z) (h : list (nat * Z)) : list (nat * Z) :=
  (t, s) ::
    (if decide (length h = Z.to_nat CACHE_MAX) then lru_discard h else h).

(** Call number [t] uses sector [s]: its slot if it has one, a new slot
    otherwise. *)
Definition lru_use (t : nat) (s : Z) (h : list (nat * Z)) : list (nat * Z) :=
  match list_find (λ e, e.2 = s) h with
  | Some (i, _) => (t, s) :: delete i h
  | None => lru_new t s h
  end.

(** What call number [t] does to the history: [cache_create] makes a slot;
    a transfer of [size ≠ 0] uses one; [cache_remove] drops the slot of its
    sector; [cache_backup] uses none. *)
Definition lru_call (t : nat) (c : cache_call) (h : list (nat * Z)) :
    list (nat * Z) :=
  match c with
  | CallCreate s => lru_new t s h
  | CallWrite s _ _ size | CallRead s _ size =>
      if decide (size = 0) then h else lru_use t s h
  | CallRemove s =>
      match list_find (λ e, e.2 = s) h with
      | Some (i, _) => delete i h
      | None => h
      end
  | CallBackup => h
  end.

Fixpoint lru_run (t : nat) (cs : list cache_call) (h : list (nat * Z)) :
    list (nat * Z) :=
  match cs with
  | [] => h
  | c :: cs' => lru_run (S t) cs' (lru_call t c h)
  end.

(** The history of the calls [cs] made after [cache_init]. *)
Definition lru_history (cs : list cache_call) : list (nat * Z) :=
  lru_run 0 cs [].

(** Nearer the front means used later. *)
Definition recent_first (h : list (nat * Z)) : Prop :=
  ∀ i j a b,
    h !! i = Some a → h !! j = Some b → (i < j)%nat → (b.1 < a.1)%nat.

Lemma recent_first_cons t s h :
  recent_first h → Forall (λ e, (e.1 < t)%nat) h → recent_first ((t, s) :: h).
Proof.
  intros Hh Ht [|i] [|j] a b Ha Hb Hij; try lia; cbn in *.
  - injection Ha as <-. rewrite Forall_forall in Ht. apply Ht.
    by eapply list_elem_of_lookup_2.
  - eapply Hh; [done..|lia].
Qed.

Lemma recent_first_delete k h : recent_first h → recent_first (delete k h).
Proof.
  intros Hh i j a b Ha Hb Hij. rewrite list_lookup_delete in Ha, Hb.
  eapply Hh; [exact Ha|exact Hb|].
  repeat case_decide; lia.
Qed.

Lemma recent_first_snoc h e :
  recent_first (h ++ [e]) →
  recent_first h ∧ Forall (λ e', (e.1 < e'.1)%nat) h.
Proof.
  intros H. split.
  - intros i j a b Ha Hb. apply H; by apply lookup_app_l_Some.
  - apply Forall_forall. intros x Hx.
    apply list_elem_of_lookup_1 in Hx as [i Hi].
    apply (H i (length h) x e).
    + by apply lookup_app_l_Some.
    + by rewrite list_lookup_middle.
    + by eapply lookup_lt_Some.
Qed.

Lemma filter_all {A} (P : A → Prop) `{∀ x, Decision (P x)} (l : list A) :
  Forall P l → filter P l = l.
Proof.
  induction 1 as [|x l Hx _ IH]; [done|].
  rewrite filter_cons_True by done. by rewrite IH.
Qed.

(** In a list ordered by use, the policy discards the last entry. *)
Lemma lru_discard_snoc h e : recent_first (h ++ [e]) → lru_discard (h ++ [e]) = h.
Proof.
  intros H. apply recent_first_snoc in H as [_ Hlt].
  unfold lru_discard. rewrite filter_app.
  rewrite filter_singleton_False; [|exact h|].
  - rewrite app_nil_r. apply filter_all.
    rewrite Forall_forall in Hlt |- *. intros x Hx Hleast.
    unfold least_recent in Hleast. rewrite Forall_forall in Hleast.
    specialize (Hleast e). specialize (Hlt x Hx).
    assert (e ∈ h ++ [e]) as He by set_solver. apply Hleast in He. lia.
  - intros Hn. apply Hn. unfold least_recent.
    apply Forall_app. split.
    + eapply Forall_impl; [exact Hlt|]. cbn. lia.
    + by constructor.
Qed.

(** The history [h] describes the slots of [st] when call number [t] is
    about to run. *)
Definition lru_inv (t : nat) (st : state) (h : list (nat * Z)) : Prop :=
  count_ok st ∧
  cache_sector <$> caches st = h.*2 ∧
  recent_first h ∧
  Forall (λ e, (e.1 < t)%nat) h.

Lemma lru_inv_length t st h :
  lru_inv t st h → length h = length (caches st).
Proof.
  intros (_ & Hs & _). apply (f_equal length) in Hs.
  rewrite !length_fmap in Hs. done.
Qed.

Lemma lru_find t st h s :
  lru_inv t st h →
  fst <$> list_find (λ e, e.2 = s) h =
  fst <$> list_find (λ c, cache_sector c = s) (caches st).
Proof.
  intros (_ & Hs & _).
  pose proof (list_find_fmap cache_sector (λ x, x = s) (caches st)) as H1.
  pose proof (list_find_fmap snd (λ x, x = s) h) as H2.
  rewrite Hs, H2 in H1. apply (f_equal (fmap fst)) in H1.
  rewrite <- !option_fmap_compose in H1.
  etransitivity; [|etransitivity; [exact H1|]].
  - by destruct (list_find _ h) as [[]|].
  - by destruct (list_find _ (caches st)) as [[]|].
Qed.

Lemma Forall_lt_S (h : list (nat * Z)) t :
  Forall (λ e, (e.1 < t)%nat) h → Forall (λ e, (e.1 < S t)%nat) h.
Proof. intros H. eapply Forall_impl; [exact H|]. cbn. lia. Qed.

Lemma Forall_delete {A} (P : A → Prop) l i : Forall P l → Forall P (delete i l).
Proof.
  rewrite !Forall_forall. intros H x Hx. apply H.
  eapply elem_of_sublist; [done|apply sublist_delete].
Qed.

(** Call [c] uses a slot for sector [s]. *)
Definition uses (c : cache_call) (s : Z) : Prop :=
  match c with
  | CallCreate s' => s' = s
  | CallWrite s' _ _ size | CallRead s' _ size => s' = s ∧ size ≠ 0
  | _ => False
  end.

Lemma lru_new_elem t s h e :
  e ∈ lru_new t s h → e = (t, s) ∨ e ∈ h.
Proof.
  unfold lru_new. intros [->|He]%elem_of_cons; [by left|]. right.
  destruct (decide _); [|done].
  unfold lru_discard in He. by apply list_elem_of_filter in He as [_ ?].
Qed.

Lemma lru_call_elem t c h e :
  e ∈ lru_call t c h → e ∈ h ∨ (e.1 = t ∧ uses c e.2).
Proof.
  assert (Huse : ∀ s, e ∈ lru_use t s h → e = (t, s) ∨ e ∈ h).
  { intros s. unfold lru_use. destruct (list_find _ _) as [[i x]|].
    - intros [->|He]%elem_of_cons; [by left|]. right.
      eapply elem_of_sublist; [done|apply sublist_delete].
    - apply lru_new_elem. }
  destruct c as [s|s buf off size|s off size|s|]; cbn [lru_call uses].
  - intros [->|]%lru_new_elem; [by right|by left].
  - destruct (decide (size = 0)); [by left|].
    intros [->|]%Huse; [by right|by left].
  - destruct (decide (size = 0)); [by left|].
    intros [->|]%Huse; [by right|by left].
  - destruct (list_find _ _) as [[i x]|]; [|by left].
    intros He. left. eapply elem_of_sublist; [done|apply sublist_delete].
  - by left.
Qed.

Lemma lru_run_elem cs t h e :
  e ∈ lru_run t cs h →
  e ∈ h ∨ ∃ c, (t ≤ e.1)%nat ∧ cs !! (e.1 - t)%nat = Some c ∧ uses c e.2.
Proof.
  revert t h. induction cs as [|c cs IH]; intros t h; cbn [lru_run].
  { by left. }
  intros [He|(c' & Hle & Hc' & Hu)]%IH.
  - apply lru_call_elem in He as [?|[<- Hu]]; [by left|]. right.
    exists c. rewrite Nat.sub_diag. done.
  - right. exists c'. split; [lia|]. split; [|done].
    replace (e.1 - t)%nat with (S (e.1 - S t)) by lia. done.
Qed.

(** Every stamp of the history is the number of a call that used the
    entry's sector. *)
Lemma lru_history_stamps cs t s :
  (t, s) ∈ lru_history cs → ∃ c, cs !! t = Some c ∧ uses c s.
Proof.
  intros [He|(c & _ & Hc & Hu)]%lru_run_elem.
  - by apply elem_of_nil in He.
  - exists c. cbn in Hc. by rewrite Nat.sub_0_r in Hc.
Qed.

(** What [lru_new] keeps of [h]. *)
Lemma lru_new_rest t st h s :
  lru_inv t st h →
  ∃ h', lru_new t s h = (t, s) :: h' ∧ recent_first h' ∧
    Forall (λ e, (e.1 < t)%nat) h' ∧
    cache_sector <$>
      (if decide (cache_count st = CACHE_MAX) then removelast (caches st)
       else caches st) = h'.*2.
Proof.
  intros Hinv. pose proof (lru_inv_length _ _ _ Hinv) as Hlen.
  destruct Hinv as (Hok & Hs & Hrf & Hlt). unfold lru_new.
  destruct (decide (cache_count st = CACHE_MAX)) as [Hm|Hm].
  - destruct (count_ok_full _ Hok Hm) as (l & x & Hl).
    rewrite decide_True by (destruct Hok as [Hc _]; unfold CACHE_MAX in *; lia).
    assert (h ≠ []) as Hne.
    { intros ->. rewrite Hl, length_app in Hlen. cbn in Hlen. lia. }
    destruct (nonempty_snoc _ Hne) as (h' & e & ->).
    rewrite lru_discard_snoc by done. exists h'. split; [done|].
    apply recent_first_snoc in Hrf as [Hrf _].
    apply Forall_app in Hlt as [Hlt _]. split; [done|]. split; [done|].
    rewrite Hl, removelast_last.
    rewrite Hl, !fmap_app in Hs. cbn in Hs.
    by apply app_inj_tail in Hs as [? _].
  - rewrite decide_False by (destruct Hok as [Hc Hle]; unfold CACHE_MAX in *; lia).
    exists h. done.
Qed.

Lemma lru_inv_front t st s c rest h' :
  count_ok st → caches st = c :: rest → cache_sector c = s →
  cache_sector <$> rest = h'.*2 → recent_first h' →
  Forall (λ e, (e.1 < t)%nat) h' →
  lru_inv (S t) st ((t, s) :: h').
Proof.
  intros Hok Hl Hc Hs Hrf Hlt. split; [done|]. split.
  - rewrite Hl. cbn. by rewrite Hc, Hs.
  - split; [by apply recent_first_cons|].
    constructor; [cbn; lia|]. by apply Forall_lt_S.
Qed.

(** [cache_make] against [lru_new]. *)
Lemma cache_make_lru t st h sector read :
  lru_inv t st h →
  ∃ st' c rest h', cache_make sector read st = Ok (0%nat, st') ∧
    caches st' = c :: rest ∧ cache_sector c = sector ∧
    lru_new t sector h = (t, sector) :: h' ∧
    cache_sector <$> rest = h'.*2 ∧ recent_first h' ∧
    Forall (λ e, (e.1 < t)%nat) h'.
Proof.
  intros Hinv.
  destruct (lru_new_rest _ _ _ sector Hinv) as (h' & Hn & Hrf & Hlt & Hs).
  destruct Hinv as (Hok & _).
  destruct (decide (cache_count st = CACHE_MAX)) as [Hm|Hm].
  - destruct (count_ok_full _ Hok Hm) as (l & x & Hl).
    rewrite Hl, removelast_last in Hs.
    eexists _, _, l, h'. split; [by apply cache_make_full|]. done.
  - eexists _, _, (caches st), h'. split; [by apply cache_make_room|]. done.
Qed.

(** A transfer with [size ≠ 0] against [lru_use]: [i] is the position that
    [cache_lookup] gave in [st1], and the slot there goes to the front. *)
Lemma cache_touch_lru t st h sector i c c' st1 :
  lru_inv t st h →
  cache_lookup sector true st = Ok (Some i, st1) →
  caches st1 !! i = Some c → cache_sector c' = sector →
  count_ok (set_caches (c' :: delete i (caches st1)) st1) →
  lru_inv (S t) (set_caches (c' :: delete i (caches st1)) st1)
    (lru_use t sector h).
Proof.
  intros Hinv Hl Hi Hc' Hok'. pose proof (lru_find _ _ _ sector Hinv) as Hfind.
  unfold lru_use.
  destruct (list_find (λ c, cache_sector c = sector) (caches st))
    as [[i0 c0]|] eqn:Hf.
  - rewrite (cache_lookup_hit _ _ _ _ _ Hf) in Hl. injection Hl as <- <-.
    destruct (list_find (λ e, e.2 = sector) h) as [[j e]|]; [|done].
    injection Hfind as ->. destruct Hinv as (Hok & Hs & Hrf & Hlt).
    eapply lru_inv_front; [done|by destruct st|done| | |].
    + rewrite list_fmap_delete, Hs. by rewrite list_fmap_delete.
    + by apply recent_first_delete.
    + by apply Forall_delete.
  - rewrite (cache_lookup_miss _ _ Hf) in Hl.
    destruct (list_find (λ e, e.2 = sector) h) as [[j e]|]; [done|].
    destruct (cache_make_lru _ _ _ sector true Hinv)
      as (st2 & x & rest & h' & Hm & Hcs & _ & -> & Hs & Hrf & Hlt).
    rewrite Hm in Hl. injection Hl as <- <-.
    eapply lru_inv_front; [done| |done..].
    rewrite Hcs. by destruct st2.
Qed.

Lemma run_call_lru t c st h st' :
  lru_inv t st h → run_call c st = Ok (tt, st') →
  lru_inv (S t) st' (lru_call t c h).
Proof.
  intros Hinv Hrun.
  assert (Hok' : count_ok st').
  { eapply run_call_count_ok; [apply Hinv|exact Hrun]. }
  assert (Hsame : lru_inv (S t) st h).
  { destruct Hinv as (? & ? & ? & ?). split; [done|]. split; [done|].
    split; [done|]. by apply Forall_lt_S. }
  destruct c as [sector|sector buf off size|sector off size|sector|];
    cbn [run_call lru_call] in *.
  - unfold cache_create in Hrun. rewrite bind_unfold in Hrun.
    destruct (cache_make_lru _ _ _ sector false Hinv)
      as (st2 & x & rest & h' & Hm & Hcs & Hx & -> & Hs & Hrf & Hlt).
    rewrite Hm in Hrun. injection Hrun as <-.
    by eapply lru_inv_front.
  - destruct (cache_write_inv _ _ _ _ _ _ (proj1 Hinv) Hrun)
      as [[-> ->]|(i & c & st1 & Hl & _ & Hi & _ & _ & ->)].
    { by rewrite decide_True. }
    unfold cache_write in Hrun.
    destruct (decide (size = 0)) as [->|_].
    { revert Hrun. mrun. destruct (in_sector off 0); [|done].
      intros [= Heq]. by rewrite <- Heq. }
    by eapply cache_touch_lru.
  - revert Hrun. mrun.
    destruct (cache_read sector off size st) as [[buf st1]|] eqn:Hr; [|done].
    intros [= <-].
    destruct (cache_read_inv _ _ _ _ _ _ (proj1 Hinv) Hr)
      as [(-> & _ & ->)|(i & c & st2 & Hl & _ & Hi & Hc & _ & _ & ->)].
    { by rewrite decide_True. }
    destruct (decide (size = 0)) as [->|_].
    { revert Hr. unfold cache_read. mrun. destruct (in_sector off 0); [|done].
      intros [= _ Heq]. by rewrite <- Heq. }
    by eapply cache_touch_lru.
  - rewrite cache_remove_spec in Hrun.
    pose proof (lru_find _ _ _ sector Hinv) as Hfind.
    destruct (list_find (λ c, cache_sector c = sector) (caches st))
      as [[i c]|]; destruct (list_find (λ e, e.2 = sector) h) as [[j e]|];
      try done; injection Hrun as <-; [|done].
    injection Hfind as ->. destruct Hinv as (Hok & Hs & Hrf & Hlt).
    split; [done|]. split; [|split].
    + cbn. by rewrite !list_fmap_delete, Hs.
    + by apply recent_first_delete.
    + by apply Forall_lt_S, Forall_delete.
  - unfold cache_backup in Hrun. rewrite cache_save_all_spec in Hrun.
    injection Hrun as <-. destruct Hsame as (_ & ? & ? & ?).
    split; [done|]. by destruct st.
Qed.

Lemma run_calls_lru cs t st h st' :
  lru_inv t st h → run_calls cs st = Ok (tt, st') →
  lru_inv (t + length cs) st' (lru_run t cs h).
Proof.
  revert t st h. induction cs as [|c cs IH]; intros t st h Hinv.
  - intros [= <-]. cbn. by rewrite Nat.add_0_r.
  - cbn [run_calls lru_run length]. rewrite bind_unfold.
    destruct (run_call c st) as [[[] st1]|] eqn:Hc; [|done]. intros Hrun.
    replace (t + S (length cs))%nat with (S t + length cs)%nat by lia.
    eapply IH; [|exact Hrun]. by eapply run_call_lru.
Qed.

Lemma cache_init_lru st st' : cache_init st = Ok (tt, st') → lru_inv 0 st' [].
Proof.
  unfold cache_init. mrun. intros [= <-]. split.
  - split; cbn; [done|]. unfold CACHE_MAX. lia.
  - split; [done|]. split; [|constructor].
    intros i j a b Ha. by rewrite lookup_nil in Ha.
Qed.

(** Every reachable state is the state after [cache_init] and a list of
    calls. *)
Lemma reachable_run_calls st :
  reachable st ↔ ∃ st0 cs, (cache_init ;; run_calls cs) st0 = Ok (tt, st).
Proof.
  split.
  - induction 1 as [st st' H|st c st' _ (st0 & cs & IH) H].
    + exists st, []. rewrite bind_unfold, H. reflexivity.
    + exists st0, (cs ++ [c]). revert IH. rewrite !bind_unfold.
      destruct (cache_init st0) as [[[] st1]|]; [|done].
      clear -H. revert st1. induction cs as [|x cs IH]; intros st1; cbn.
      * intros [= ->]. rewrite bind_unfold, H. reflexivity.
      * rewrite !bind_unfold. destruct (run_call x st1) as [[[] st2]|]; [|done].
        apply IH.
  - intros (st0 & cs & H). rewrite bind_unfold in H.
    destruct (cache_init st0) as [[[] st1]|] eqn:Hi; [|done].
    eapply run_calls_reachable; [|exact H]. by eapply reachable_init.
Qed.

(** C7.  Let [st] be the state after [cache_init] and the calls [cs]; every
    reachable state is one ([reachable_run_calls]).  Then
    - the cache has at most [CACHE_MAX] = 64 slots;
    - slot by slot, from the front, the list holds the sectors of
      [lru_history cs]: the history in which every call stamps the slot it
      uses with its own number, and a full cache loses the entry with the
      least stamp;
    - every stamp is the number of a call of [cs] that used that sector;
    - the stamps decrease from the front to the back: the slot at the tail
      is the one whose last use is the oldest;
    - when [cache_make] needs a slot while [cache_count = CACHE_MAX], the
      list is [l ++ [t]], the history is [h ++ [e]] with [e] the entry of
      [t] and the least recently used one, and exactly the tail [t] is
      dropped: the new list is the new slot in front of [l], and the disk
      received [t]'s data at [t]'s sector if [t] was dirty and is unchanged
      otherwise. *)
Theorem cache_bounded_and_evicts_tail st0 cs st :
  (cache_init ;; run_calls cs) st0 = Ok (tt, st) →
  (length (caches st) ≤ Z.to_nat CACHE_MAX)%nat ∧
  cache_sector <$> caches st = (lru_history cs).*2 ∧
  (∀ t s, (t, s) ∈ lru_history cs → ∃ c, cs !! t = Some c ∧ uses c s) ∧
  recent_first (lru_history cs) ∧
  ∀ sector read, cache_count st = CACHE_MAX →
    ∃ l t st' h e, caches st = l ++ [t] ∧
      lru_history cs = h ++ [e] ∧ e.2 = cache_sector t ∧
      least_recent (lru_history cs) e ∧
      cache_make sector read st = Ok (0%nat, st') ∧
      (∃ c, caches st' = c :: l ∧ cache_sector c = sector) ∧
      cache_count st' = CACHE_MAX ∧
      disk st' = if cache_dirty t
                 then <[cache_sector t := cache_data t]> (disk st)
                 else disk st.
Proof.
  rewrite bind_unfold.
  destruct (cache_init st0) as [[[] st1]|] eqn:Hi; [|done]. intros Hrun.
  pose proof (run_calls_lru cs 0 st1 [] st (cache_init_lru _ _ Hi) Hrun) as Hinv.
  fold (lru_history cs) in Hinv.
  pose proof (lru_inv_length _ _ _ Hinv) as Hlen.
  destruct Hinv as (Hok & Hs & Hrf & _).
  split; [destruct Hok as [Hc Hle]; unfold CACHE_MAX in *; lia|].
  split; [done|]. split; [apply lru_history_stamps|]. split; [done|].
  intros sector read Hm.
  destruct (count_ok_full _ Hok Hm) as (l & t & Hl).
  assert (lru_history cs ≠ []) as Hne.
  { intros Hnil. rewrite Hnil, Hl, length_app in Hlen. cbn in Hlen. lia. }
  destruct (nonempty_snoc _ Hne) as (h & e & Hh).
  exists l, t. eexists. exists h, e. split; [done|]. split; [done|].
  split.
  { rewrite Hl, Hh, !fmap_app in Hs. cbn in Hs.
    by apply app_inj_tail in Hs as [_ ?]. }
  split.
  { rewrite Hh in Hrf |- *. apply recent_first_snoc in Hrf as [_ Hlt].
    apply Forall_app. split; [|by constructor].
    eapply Forall_impl; [exact Hlt|]. cbn. lia. }
  split; [by apply cache_make_full|]. cbn.
  split; [eauto|]. split; [lia|]. reflexivity.
Qed.

(** ** The cache: backups *)

(** [cache_backup] always returns, and a second [cache_backup] right after
    the first leaves the disk as the first one left it, in every state. *)
Lemma cache_backup_twice st :
  ∃ st1 st2, cache_backup st = Ok (tt, st1) ∧ cache_backup st1 = Ok (tt, st2) ∧
    disk st2 = disk st1.
Proof.
  unfold cache_backup. rewrite cache_save_all_spec.
  eexists. eexists. split; [done|]. rewrite cache_save_all_spec.
  split; [done|]. cbn. apply flush_idemp.
Qed.

(** Every dirty slot holds what the disk has at its sector. *)
Definition synced (st : state) : Prop :=
  ∀ c, c ∈ caches st → cache_dirty c = true →
    disk st !! cache_sector c = Some (cache_data c).

(** A call of cache.h other than [cache_write]. *)
Definition not_write (c : cache_call) : Prop :=
  match c with
  | CallWrite _ _ _ _ => False
  | _ => True
  end.

Lemma dirty_sectors_cons c l :
  dirty_sectors (c :: l) =
    if cache_dirty c then cache_sector c :: dirty_sectors l else dirty_sectors l.
Proof.
  unfold dirty_sectors. rewrite filter_cons.
  destruct (cache_dirty c); [by rewrite decide_True | by rewrite decide_False].
Qed.

Lemma flush_synced l d c :
  NoDup (dirty_sectors l) → c ∈ l → cache_dirty c = true →
  flush d l !! cache_sector c = Some (cache_data c).
Proof.
  revert d. induction l as [|x l IH]; intros d Hnd Hin Hd.
  { by apply elem_of_nil in Hin. }
  change (flush (save_to d x) l !! cache_sector c = Some (cache_data c)).
  rewrite dirty_sectors_cons in Hnd.
  apply elem_of_cons in Hin as [->|Hl].
  - rewrite Hd in Hnd. apply NoDup_cons in Hnd as [Hx _].
    rewrite flush_frame by done. unfold save_to. rewrite Hd.
    apply lookup_insert_eq.
  - apply IH; [|done..]. destruct (cache_dirty x); [|done].
    by apply NoDup_cons in Hnd as [_ ?].
Qed.

Lemma save_to_synced d c :
  (cache_dirty c = true → d !! cache_sector c = Some (cache_data c)) →
  save_to d c = d.
Proof.
  intros H. unfold save_to. destruct (cache_dirty c); [|done].
  by apply insert_id, H.
Qed.

Lemma flush_synced_id l d :
  (∀ c, c ∈ l → cache_dirty c = true →
     d !! cache_sector c = Some (cache_data c)) →
  flush d l = d.
Proof.
  induction l as [|x l IH]; intros H; [done|].
  change (flush (save_to d x) l = d).
  rewrite save_to_synced by (apply H; left).
  apply IH. intros c Hc. apply H. by right.
Qed.

(** A state with the disk of [st] whose slots are slots of [st] or clean. *)
Definition settled (st st' : state) : Prop :=
  disk st' = disk st ∧
  ∀ c, c ∈ caches st' → cache_dirty c = true → c ∈ caches st.

Lemma settled_refl st : settled st st.
Proof. by split. Qed.

Lemma settled_synced st st' : synced st → settled st st' → synced st'.
Proof. intros Hs [Hd Hc] c Hin Hdirty. rewrite Hd. apply Hs; auto. Qed.

Lemma settled_trans st st1 st2 :
  settled st st1 → settled st1 st2 → settled st st2.
Proof.
  intros [Hd1 Hc1] [Hd2 Hc2]. split; [congruence|].
  intros c Hin Hdirty. auto.
Qed.

Lemma cache_make_settled sector read st i st' :
  synced st → cache_make sector read st = Ok (i, st') → settled st st'.
Proof.
  intros Hs. destruct (decide (cache_count st = CACHE_MAX)) as [Hm|Hm].
  - destruct (decide (caches st = [])) as [Hnil|Hne].
    { unfold cache_make. mrun. rewrite decide_True by done.
      by rewrite (cache_evict_empty _ Hnil). }
    destruct (nonempty_snoc _ Hne) as (l & t & Hl).
    rewrite (cache_make_full _ _ _ _ _ Hm Hl). intros [= _ <-].
    assert (Ht : save_to (disk st) t = disk st).
    { apply save_to_synced. apply Hs. rewrite Hl. set_solver. }
    split; [exact Ht|]. cbn. intros c Hin Hdirty.
    apply elem_of_cons in Hin as [->|Hin]; [done|].
    rewrite Hl. set_solver.
  - rewrite (cache_make_room _ _ _ Hm). intros [= _ <-].
    split; [done|]. cbn. intros c Hin Hdirty.
    by apply elem_of_cons in Hin as [->|Hin].
Qed.

Lemma cache_lookup_settled sector make st r st' :
  synced st → cache_lookup sector make st = Ok (r, st') → settled st st'.
Proof.
  intros Hs. unfold cache_lookup. mrun.
  destruct (list_find _ _) as [[i c]|].
  - intros [= _ <-]. apply settled_refl.
  - destruct make; [|intros [= _ <-]; apply settled_refl].
    destruct (cache_make sector true st) as [[j st1]|] eqn:Hm; [|done].
    intros [= _ <-]. by eapply cache_make_settled.
Qed.

Lemma delete_subseteq {A} (l : list A) i x : x ∈ delete i l → x ∈ l.
Proof.
  revert i. induction l as [|y l IH]; intros [|i]; cbn; [done..| |].
  - by right.
  - intros [->|H]%elem_of_cons; [by left|]. right. eauto.
Qed.

Lemma run_call_settled c st st' :
  not_write c → synced st → run_call c st = Ok (tt, st') → settled st st'.
Proof.
  intros Hc Hs.
  destruct c as [sector|sector buf off size|sector off size|sector|];
    [| done | | |]; cbn [run_call].
  - unfold cache_create. rewrite bind_unfold.
    destruct (cache_make sector false st) as [[i st1]|] eqn:Hm; [|done].
    intros [= <-]. by eapply cache_make_settled.
  - unfold cache_read. mrun.
    destruct (in_sector off size); [|done]. mrun.
    destruct (decide (size = 0)); [intros [= <-]; apply settled_refl|].
    destruct (cache_lookup sector true st) as [[r st1]|] eqn:Hl; [|done].
    pose proof (cache_lookup_settled _ _ _ _ _ Hs Hl) as H1.
    destruct r as [i|]; [|done]. cbn.
    destruct (caches st1 !! i) as [s|] eqn:Hi; [|done]. cbn.
    destruct (in_bounds off size); [|done]. unfold touch. mrun.
    intros [= <-]. eapply settled_trans; [exact H1|].
    split; [by destruct st1|]. intros c Hin Hdirty.
    destruct st1; cbn in *.
    apply elem_of_cons in Hin as [->|Hin].
    + by eapply list_elem_of_lookup_2.
    + by eapply delete_subseteq.
  - rewrite cache_remove_spec.
    destruct (list_find _ _) as [[i c]|]; intros [= <-]; [|apply settled_refl].
    split; [by destruct st|]. intros x Hin _. destruct st; cbn in *.
    by eapply delete_subseteq.
  - unfold cache_backup. rewrite cache_save_all_spec. intros [= <-].
    split; [|by destruct st]. destruct st; cbn in *. by apply flush_synced_id.
Qed.

Lemma run_calls_settled cs st st' :
  Forall not_write cs → synced st → run_calls cs st = Ok (tt, st') →
  settled st st'.
Proof.
  revert st. induction cs as [|c cs IH]; intros st Hcs Hs.
  - intros [= <-]. apply settled_refl.
  - apply Forall_cons in Hcs as [Hc Hcs]. cbn [run_calls]. rewrite bind_unfold.
    destruct (run_call c st) as [[[] st1]|] eqn:H1; [|done]. intros H2.
    pose proof (run_call_settled _ _ _ Hc Hs H1) as Hst.
    eapply settled_trans; [exact Hst|].
    apply IH; [done| |done]. by eapply settled_synced.
Qed.

Lemma cache_backup_synced st st' :
  NoDup (dirty_sectors (caches st)) → cache_backup st = Ok (tt, st') →
  synced st'.
Proof.
  intros Hnd. unfold cache_backup. rewrite cache_save_all_spec. intros [= <-].
  intros c Hin Hdirty. destruct st; cbn in *. by apply flush_synced.
Qed.

(** C8, amended.  [cache_backup], then calls of the cache other than
    [cache_write] (reads, creates, removes, further backups), then
    [cache_backup] again: when no two dirty slots of the first state hold
    the same sector -- as when every sector has at most one slot -- or when
    there is no call in between at all, the disk is after the calls in
    between and after the second backup what the first backup left. *)
Theorem cache_backup_again st cs st1 st2 :
  cs = [] ∨ NoDup (dirty_sectors (caches st)) →
  Forall not_write cs →
  cache_backup st = Ok (tt, st1) →
  run_calls cs st1 = Ok (tt, st2) →
  disk st2 = disk st1 ∧
  ∃ st3, cache_backup st2 = Ok (tt, st3) ∧ disk st3 = disk st1.
Proof.
  intros [->|Hnd] Hcs H1 H2.
  - injection H2 as <-. split; [done|].
    destruct (cache_backup_twice st) as (st1' & st2' & H1' & H2' & Hd).
    rewrite H1 in H1'. injection H1' as <-. eauto.
  - pose proof (cache_backup_synced _ _ Hnd H1) as Hs1.
    pose proof (run_calls_settled _ _ _ Hcs Hs1 H2) as H12.
    pose proof (settled_synced _ _ Hs1 H12) as Hs2.
    split; [apply H12|].
    unfold cache_backup. rewrite cache_save_all_spec. eexists. split; [done|].
    cbn. rewrite flush_synced_id by exact Hs2. apply H12.
Qed.

(** ** The free-map

    Modelled from the spec: free-map.c is not part of the sources.  Spec 4.1:
    "[allocate(n)] -> sector index | failure; [release(sector, n)] ...  only
    [n = 1] is used ...  Allocation policy: first-fit over the bitmap." *)
Fixpoint first_fit (bm : list bool) : option nat :=
  match bm with
  | [] => None
  | b :: bm' => if b then S <$> first_fit bm' else Some 0%nat
  end.

(** [free_map_allocate (1, &sector)]: [Some sector] when it returns true. *)
Definition free_map_allocate : M (option Z) :=
  st ← get;
  match first_fit (free_map st) with
  | None => mret None
  | Some i =>
      modify (set_free_map (<[i := true]> (free_map st))) ;;
      mret (Some (Z.of_nat i))
  end.

(** [free_map_release (sector, 1)]. *)
Definition free_map_release (sector : Z) : M unit :=
  if decide (0 ≤ sector)
  then modify (λ st, set_free_map (<[Z.to_nat sector := false]> (free_map st)) st)
  else mret tt.

(** Sector [s] is marked in use. *)
Definition allocated (bm : list bool) (s : Z) : Prop :=
  0 ≤ s ∧ bm !! Z.to_nat s = Some true.

(** ** inode.c *)

Definition INODE_MAGIC : Z := 0x494e4f44.
Definition DIRECT_BLOCK : Z := 12.
Definition SINGLE_BLOCK : Z := DISK_SECTOR_SIZE `div` 4.

(** [struct inode_disk] of inode.c: [off_t length; bool dir;
    disk_sector_t direct[12]; disk_sector_t indirect, double_indirect;
    unsigned magic].  The [bool] is padded to the alignment of the words
    that follow it. *)
Definition OFS_LENGTH : Z := 0.
Definition OFS_DIR : Z := 4.
Definition OFS_DIRECT : Z := 8.
Definition OFS_INDIRECT : Z := 56.
Definition OFS_DOUBLE_INDIRECT : Z := 60.
Definition OFS_MAGIC : Z := 64.
Definition SIZEOF_INODE_DISK : Z := 68.

(** Arithmetic on [off_t] and [int], wrapping to 32 bits. *)
Definition off_add (a b : Z) : Z := to_signed (a + b).
Definition off_sub (a b : Z) : Z := to_signed (a - b).

(** The 32-bit word at byte offset [off] of a buffer. *)
Definition word_at (buf : list Z) (off : Z) : Z := le_word (bytes_at buf off 4).

(** Pointers to [struct inode]: [deref] reads the struct, [store] writes it;
    a pointer that was freed aborts. *)
Definition deref (h : nat) : M inode :=
  st ← get;
  match inodes st !! h with
  | Some ino => mret ino
  | None => abort
  end.

Definition store (h : nat) (ino : inode) : M unit :=
  modify (λ st, set_inodes (<[h := ino]> (inodes st)) st).

(** The macro [MODIFY_CACHE]: [p] points [off] bytes into the scratch copy
    of sector [sector]; the result is the new value of [sector]. *)
Definition MODIFY_CACHE (sector off : Z) : M Z :=
  w ← cache_read sector off 4;
  let p := le_word w in
  if decide (p = 0) then
    success ← free_map_allocate;
    match success with
    | None => abort
    | Some p =>
        cache_write sector (le_bytes 4 p) off 4 ;;
        cache_create p ;;
        mret p
    end
  else mret p.

Definition byte_to_sector (inode : nat) (pos : Z) : M Z :=
  ino ← deref inode;
  let sector := inode_sector ino in
  w ← cache_read sector OFS_LENGTH 4;
  let length := to_signed (le_word w) in
  if decide (pos < length) then
    let num := pos `quot` DISK_SECTOR_SIZE in
    let single := SINGLE_BLOCK in
    if decide (num < DIRECT_BLOCK) then
      MODIFY_CACHE sector (OFS_DIRECT + 4 * num)
    else if decide (num < DIRECT_BLOCK + single) then
      let num := num - DIRECT_BLOCK in
      sector ← MODIFY_CACHE sector OFS_INDIRECT;
      MODIFY_CACHE sector (4 * num)
    else
      let num := num - (DIRECT_BLOCK + single) in
      sector ← MODIFY_CACHE sector OFS_DOUBLE_INDIRECT;
      sector ← MODIFY_CACHE sector (4 * (num `quot` single));
      MODIFY_CACHE sector (4 * (num `rem` single))
  else mret (to_unsigned (-1)).

Definition inode_init : M unit :=
  modify (set_open_inodes []).

Definition inode_create (sector length : Z) : M bool :=
  ASSERT (bool_decide (0 ≤ length)) ;;
  let data := zeros SIZEOF_INODE_DISK in
  let data := memcpy data OFS_LENGTH (le_bytes 4 length) 4 in
  let data := memcpy data OFS_MAGIC (le_bytes 4 INODE_MAGIC) 4 in
  data ← (if decide (sector = 0) then
            success ← free_map_allocate;
            match success with
            | None => abort
            | Some p => mret (memcpy data OFS_DIRECT (le_bytes 4 p) 4)
            end
          else mret data);
  cache_create sector ;;
  cache_write sector data 0 SIZEOF_INODE_DISK ;;
  mret true.

(** [inode_reopen]: [None] is the null pointer. *)
Definition inode_reopen (inode : option nat) : M (option nat) :=
  match inode with
  | Some h =>
      ino ← deref h;
      store h (mk_inode (inode_sector ino) (off_add (open_cnt ino) 1)
                 (removed ino) (deny_write_cnt ino)) ;;
      mret inode
  | None => mret inode
  end.

(** The [for] loop of [inode_open] over [open_inodes]. *)
Fixpoint inode_open_scan (sector : Z) (l : list nat) : M (option nat) :=
  match l with
  | [] => mret None
  | e :: l' =>
      ino ← deref e;
      if decide (inode_sector ino = sector)
      then inode_reopen (Some e)
      else inode_open_scan sector l'
  end.

(** [malloc (sizeof *inode)], taken to succeed: a pointer that is not live. *)
Definition malloc_inode : M nat :=
  st ← get; mret (fresh (dom (inodes st))).

Definition inode_open (sector : Z) : M (option nat) :=
  st ← get;
  found ← inode_open_scan sector (open_inodes st);
  match found with
  | Some h => mret (Some h)
  | None =>
      h ← malloc_inode;
      modify (λ st, set_open_inodes (h :: open_inodes st) st) ;;
      store h (mk_inode sector 1 false 0) ;;
      mret (Some h)
  end.

Definition inode_get_inumber (inode : nat) : M Z :=
  ino ← deref inode; mret (inode_sector ino).

(** A [for (i = 0; i < n; i++)] loop. *)
Fixpoint for_each (l : list Z) (body : Z → M unit) : M unit :=
  match l with
  | [] => mret tt
  | i :: l' => body i ;; for_each l' body
  end.

Definition upto (n : Z) : list Z := Z.of_nat <$> seq 0 (Z.to_nat n).

(** The block of [inode_close] that runs when the inode was removed. *)
Definition inode_close_release (sector : Z) : M unit :=
  let single := SINGLE_BLOCK in
  data ← cache_read sector 0 SIZEOF_INODE_DISK;
  cache_remove sector ;;
  free_map_release sector ;;
  for_each (upto DIRECT_BLOCK) (λ i,
    let d := word_at data (OFS_DIRECT + 4 * i) in
    if decide (d ≠ 0) then cache_remove d ;; free_map_release d
    else mret tt) ;;
  let indirect_sector := word_at data OFS_INDIRECT in
  let double_indirect_sector := word_at data OFS_DOUBLE_INDIRECT in
  (if decide (indirect_sector ≠ 0) then
     indirect ← cache_read indirect_sector 0 DISK_SECTOR_SIZE;
     cache_remove indirect_sector ;;
     free_map_release indirect_sector ;;
     for_each (upto single) (λ i,
       if decide (word_at indirect (4 * i) ≠ 0) then
         cache_remove (word_at indirect (4 * i)) ;;
         free_map_release (word_at indirect (4 * i))
       else mret tt)
   else mret tt) ;;
  (if decide (double_indirect_sector ≠ 0) then
     indirect ← cache_read double_indirect_sector 0 DISK_SECTOR_SIZE;
     cache_remove double_indirect_sector ;;
     free_map_release double_indirect_sector ;;
     for_each (upto single) (λ i,
       if decide (word_at indirect (4 * i) ≠ 0) then
         double_indirect ← cache_read (word_at indirect (4 * i)) 0 DISK_SECTOR_SIZE;
         cache_remove (word_at indirect (4 * i)) ;;
         free_map_release (word_at indirect (4 * i)) ;;
         for_each (upto single) (λ j,
           if decide (word_at double_indirect (4 * j) ≠ 0) then
             cache_remove (word_at double_indirect (4 * j)) ;;
             free_map_release (word_at double_indirect (4 * i))
           else mret tt)
       else mret tt)
   else mret tt).

Definition inode_close (inode : option nat) : M unit :=
  match inode with
  | None => mret tt
  | Some h =>
      ino ← deref h;
      let cnt := off_sub (open_cnt ino) 1 in
      store h (mk_inode (inode_sector ino) cnt (removed ino) (deny_write_cnt ino)) ;;
      if decide (cnt = 0) then
        modify (λ st, set_open_inodes (filter (λ e, e ≠ h) (open_inodes st)) st) ;;
        (if removed ino then inode_close_release (inode_sector ino) else mret tt) ;;
        modify (λ st, set_inodes (delete h (inodes st)) st)
      else mret tt
  end.

Definition inode_remove (inode : nat) : M unit :=
  ino ← deref inode;
  store inode (mk_inode (inode_sector ino) (open_cnt ino) true (deny_write_cnt ino)).

Definition inode_length (inode : nat) : M Z :=
  ino ← deref inode;
  w ← cache_read (inode_sector ino) OFS_LENGTH 4;
  mret (to_signed (le_word w)).

(** The [while (size > 0)] loop of [inode_read_at].  Every iteration that
    does not leave the loop lowers [size] by [chunk_size > 0], so the loop
    runs at most [size] times: [fuel] is that bound (see
    [inode_read_loop_fuel]).  The result is [bytes_read] and the bytes
    stored into [buffer_]. *)
Fixpoint inode_read_loop (fuel : nat) (inode : nat) (size offset : Z)
    (bytes_read : Z) (buffer : list Z) : M (Z * list Z) :=
  match fuel with
  | O => mret (bytes_read, buffer)
  | S fuel =>
      if decide (size > 0) then
        sector_idx ← byte_to_sector inode offset;
        let sector_ofs := offset `rem` DISK_SECTOR_SIZE in
        length ← inode_length inode;
        let inode_left := off_sub length offset in
        let sector_left := DISK_SECTOR_SIZE - sector_ofs in
        let min_left := if decide (inode_left < sector_left)
                        then inode_left else sector_left in
        let chunk_size := if decide (size < min_left) then size else min_left in
        if decide (chunk_size ≤ 0) then mret (bytes_read, buffer)
        else
          chunk ← cache_read sector_idx sector_ofs chunk_size;
          inode_read_loop fuel inode (off_sub size chunk_size)
            (off_add offset chunk_size) (off_add bytes_read chunk_size)
            (buffer ++ chunk)
      else mret (bytes_read, buffer)
  end.

Definition inode_read_at (inode : nat) (size offset : Z) : M (Z * list Z) :=
  inode_read_loop (Z.to_nat size) inode size offset 0 [].

(** The [while (size > 0)] loop of [inode_write_at]; [length] is the local
    variable computed before the loop. *)
Fixpoint inode_write_loop (fuel : nat) (inode : nat) (buffer : list Z)
    (length size offset : Z) (bytes_written : Z) : M Z :=
  match fuel with
  | O => mret bytes_written
  | S fuel =>
      if decide (size > 0) then
        sector_idx ← byte_to_sector inode offset;
        let sector_ofs := offset `rem` DISK_SECTOR_SIZE in
        let inode_left := off_sub length offset in
        let sector_left := DISK_SECTOR_SIZE - sector_ofs in
        let min_left := if decide (inode_left < sector_left)
                        then inode_left else sector_left in
        let chunk_size := if decide (size < min_left) then size else min_left in
        if decide (chunk_size ≤ 0) then mret bytes_written
        else
          cache_write sector_idx (drop (Z.to_nat bytes_written) buffer)
            sector_ofs chunk_size ;;
          inode_write_loop fuel inode buffer length (off_sub size chunk_size)
            (off_add offset chunk_size) (off_add bytes_written chunk_size)
      else mret bytes_written
  end.

Definition inode_write_at (inode : nat) (buffer : list Z) (size offset : Z) : M Z :=
  ino ← deref inode;
  if decide (deny_write_cnt ino ≠ 0) then mret 0
  else
    length ← inode_length inode;
    let length := if decide (length < off_add size offset)
                  then off_add size offset else length in
    cache_write (inode_sector ino) (le_bytes 4 length) OFS_LENGTH 4 ;;
    inode_write_loop (Z.to_nat size) inode buffer length size offset 0.

Definition inode_deny_write (inode : nat) : M unit :=
  ino ← deref inode;
  let ino := mk_inode (inode_sector ino) (open_cnt ino) (removed ino)
               (off_add (deny_write_cnt ino) 1) in
  store inode ino ;;
  ASSERT (bool_decide (deny_write_cnt ino ≤ open_cnt ino)).

Definition inode_allow_write (inode : nat) : M unit :=
  ino ← deref inode;
  ASSERT (bool_decide (deny_write_cnt ino > 0)) ;;
  ASSERT (bool_decide (deny_write_cnt ino ≤ open_cnt ino)) ;;
  store inode (mk_inode (inode_sector ino) (open_cnt ino) (removed ino)
                 (off_sub (deny_write_cnt ino) 1)).

(** ** Concrete states for the examples *)

(** A formatted disk of 32 sectors: sector 0 (free-map inode) and sector 1
    (root directory inode) are in use; nothing is cached or open. *)
Definition st_boot : state :=
  mk_state ∅ [] 0 (true :: true :: replicate 30 false) ∅ [].

(** The state of a result, for examples that run a sequence of calls. *)
Definition state_of {A} (r : result (A * state)) : state :=
  match r with
  | Ok (_, st) => st
  | Abort => st_boot
  end.

Definition value_of {A} (r : result (A * state)) : option A :=
  match r with
  | Ok (a, _) => Some a
  | Abort => None
  end.

(** ** Frame conditions

    [preserves f m]: whenever [m] returns, the projection [f] of the state
    is what it was. *)
Definition preserves {A B} (f : state → B) (m : M A) : Prop :=
  ∀ st a st', m st = Ok (a, st') → f st' = f st.

Create HintDb frame discriminated.

Section Preserves.
Context {B : Type} (f : state → B).

Lemma preserves_ret {A} (a : A) : preserves f (mret a).
Proof. intros st a' st' [= _ <-]. done. Qed.

Lemma preserves_abort {A} : preserves f (@abort A).
Proof. intros st a st' [=]. Qed.

Lemma preserves_get : preserves f get.
Proof. intros st a st' [= _ <-]. done. Qed.

Lemma preserves_bind {A C} (m : M A) (k : A → M C) :
  preserves f m → (∀ a, preserves f (k a)) → preserves f (m ≫= k).
Proof.
  intros Hm Hk st c st'. rewrite bind_unfold.
  destruct (m st) as [[a st1]|] eqn:E; [|done].
  intros H. rewrite (Hk _ _ _ _ H). eauto.
Qed.

Lemma preserves_modify (g : state → state) :
  (∀ st, f (g st) = f st) → preserves f (modify g).
Proof. intros Hg st a st' [= _ <-]. done. Qed.

Lemma preserves_ASSERT b : preserves f (ASSERT b).
Proof. destruct b; [apply preserves_ret | apply preserves_abort]. Qed.

Lemma preserves_for_each l (body : Z → M unit) :
  (∀ i, preserves f (body i)) → preserves f (for_each l body).
Proof.
  intros Hb. induction l as [|i l IH]; simpl.
  - apply preserves_ret.
  - apply preserves_bind; auto.
Qed.
End Preserves.

#[export] Hint Resolve preserves_ret preserves_abort preserves_get
  preserves_ASSERT : frame.

Lemma preserves_if_dec {A B} (f : state → B) {P : Prop} (d : {P} + {¬ P})
    (m1 m2 : M A) :
  preserves f m1 → preserves f m2 → preserves f (if d then m1 else m2).
Proof. by destruct d. Qed.

Lemma preserves_if {A B} (f : state → B) (b : bool) (m1 m2 : M A) :
  preserves f m1 → preserves f m2 → preserves f (if b then m1 else m2).
Proof. by destruct b. Qed.

(** Solves [preserves f m] for straight-line code over frame lemmas. *)
Ltac frame_step :=
  lazymatch goal with
  | |- preserves _ (mret _) => apply preserves_ret
  | |- preserves _ abort => apply preserves_abort
  | |- preserves _ get => apply preserves_get
  | |- preserves _ (ASSERT _) => apply preserves_ASSERT
  | |- preserves _ (modify _) => apply preserves_modify; intros []; reflexivity
  | |- preserves _ (mbind _ _) => apply preserves_bind; [|intros ?]
  | |- preserves _ (for_each _ _) => apply preserves_for_each; intros ?
  | |- preserves _ (if decide _ then _ else _) => apply preserves_if_dec
  | |- preserves _ (if _ then _ else _) => apply preserves_if
  | |- preserves _ (match ?x with _ => _ end) => destruct x
  | |- preserves _ (let _ := _ in _) => cbv zeta
  | |- preserves _ _ => solve [eauto with frame]
  end.
Ltac frame := repeat frame_step.

(** The part of the state that the cache does not own. *)
Definition outside_cache (st : state) : list bool * gmap nat inode * list nat :=
  (free_map st, inodes st, open_inodes st).

(** The part of the state that the inode handles do not own. *)
Definition outside_handles (st : state)
    : gmap Z (list Z) * list cache * Z * list bool :=
  (disk st, caches st, cache_count st, free_map st).

Lemma cache_save_frame c : preserves outside_cache (cache_save c).
Proof. unfold cache_save, disk_write. frame. Qed.
#[export] Hint Resolve cache_save_frame : frame.

Lemma cache_save_all_frame : preserves outside_cache cache_save_all.
Proof.
  intros st a st'. rewrite cache_save_all_spec. intros [= _ <-]. by destruct st.
Qed.
#[export] Hint Resolve cache_save_all_frame : frame.

Lemma cache_evict_frame : preserves outside_cache cache_evict.
Proof. unfold cache_evict. frame. Qed.
#[export] Hint Resolve cache_evict_frame : frame.

Lemma cache_make_frame sector read : preserves outside_cache (cache_make sector read).
Proof. unfold cache_make. frame. Qed.
#[export] Hint Resolve cache_make_frame : frame.

Lemma cache_lookup_frame sector make : preserves outside_cache (cache_lookup sector make).
Proof. unfold cache_lookup. frame. Qed.
#[export] Hint Resolve cache_lookup_frame : frame.

Lemma cache_write_frame sector buf off size :
  preserves outside_cache (cache_write sector buf off size).
Proof. unfold cache_write, touch. frame. Qed.

Lemma cache_read_frame sector off size :
  preserves outside_cache (cache_read sector off size).
Proof. unfold cache_read, touch. frame. Qed.

Lemma cache_create_frame sector : preserves outside_cache (cache_create sector).
Proof. unfold cache_create. frame. Qed.

Lemma cache_remove_frame sector : preserves outside_cache (cache_remove sector).
Proof. unfold cache_remove. frame. Qed.
#[export] Hint Resolve cache_write_frame cache_read_frame cache_create_frame
  cache_remove_frame : frame.

Lemma preserves_proj {A B C} (f : state → B) (g : B → C) (m : M A) :
  preserves f m → preserves (λ st, g (f st)) m.
Proof. intros H st a st' Hm. by rewrite (H _ _ _ Hm). Qed.

Lemma free_map_release_inodes sector :
  preserves (λ st, (inodes st, open_inodes st)) (free_map_release sector).
Proof. unfold free_map_release. frame. Qed.

Lemma free_map_allocate_inodes :
  preserves (λ st, (inodes st, open_inodes st)) free_map_allocate.
Proof. unfold free_map_allocate. frame. Qed.

(** The cache and the free-map never touch the inode handles. *)
Definition handles (st : state) : gmap nat inode * list nat :=
  (inodes st, open_inodes st).

Lemma outside_cache_handles {A} (m : M A) :
  preserves outside_cache m → preserves handles m.
Proof.
  intros H st a st' Hm. apply H in Hm. unfold outside_cache, handles in *.
  congruence.
Qed.

#[export] Hint Resolve free_map_release_inodes free_map_allocate_inodes : frame.
#[export] Hint Extern 2 (preserves handles _) =>
  apply outside_cache_handles; solve [eauto with frame] : frame.

Lemma inode_close_release_handles sector :
  preserves handles (inode_close_release sector).
Proof. unfold inode_close_release. frame. Qed.

(** ** 32-bit arithmetic *)

Lemma to_signed_id z : - 2 ^ 31 ≤ z < 2 ^ 31 → to_signed z = z.
Proof. intros H. unfold to_signed. rewrite Z.mod_small by lia. lia. Qed.

Lemma to_signed_range z : - 2 ^ 31 ≤ to_signed z < 2 ^ 31.
Proof.
  unfold to_signed. pose proof (Z.mod_pos_bound (z + 2 ^ 31) (2 ^ 32)). lia.
Qed.

Lemma off_add_id a b : - 2 ^ 31 ≤ a + b < 2 ^ 31 → off_add a b = a + b.
Proof. apply to_signed_id. Qed.

Lemma off_sub_id a b : - 2 ^ 31 ≤ a - b < 2 ^ 31 → off_sub a b = a - b.
Proof. apply to_signed_id. Qed.

(** ** The inode handles and their openers *)

(** What each handle operation does to the heap of [struct inode]. *)
Definition with_open_cnt (n : Z) (ino : inode) : inode :=
  mk_inode (inode_sector ino) n (removed ino) (deny_write_cnt ino).
Definition with_deny_write_cnt (n : Z) (ino : inode) : inode :=
  mk_inode (inode_sector ino) (open_cnt ino) (removed ino) n.
Definition with_removed (ino : inode) : inode :=
  mk_inode (inode_sector ino) (open_cnt ino) true (deny_write_cnt ino).

Lemma deref_spec h st :
  deref h st = match inodes st !! h with Some ino => Ok (ino, st) | None => Abort end.
Proof. unfold deref. mrun. by destruct (inodes st !! h). Qed.

Lemma inode_reopen_spec h st :
  inode_reopen (Some h) st =
    match inodes st !! h with
    | Some ino =>
        Ok (Some h, set_inodes
              (<[h := with_open_cnt (off_add (open_cnt ino) 1) ino]> (inodes st)) st)
    | None => Abort
    end.
Proof.
  unfold inode_reopen. rewrite bind_unfold, deref_spec.
  destruct (inodes st !! h); reflexivity.
Qed.

Lemma inode_open_scan_inv sector l st r st' :
  inode_open_scan sector l st = Ok (r, st') →
  (r = None ∧ st' = st) ∨
  ∃ e ino, r = Some e ∧ inodes st !! e = Some ino ∧
    st' = set_inodes
            (<[e := with_open_cnt (off_add (open_cnt ino) 1) ino]> (inodes st)) st.
Proof.
  induction l as [|e l IH].
  - intros [= <- <-]. by left.
  - cbn [inode_open_scan]. rewrite bind_unfold, deref_spec.
    destruct (inodes st !! e) as [ino|] eqn:He; [|done].
    destruct (decide (inode_sector ino = sector)); [|by apply IH].
    rewrite inode_reopen_spec, He. intros [= <- <-]. right. eauto.
Qed.

Lemma inode_open_inv sector st r st' :
  inode_open sector st = Ok (r, st') →
  ∃ h, r = Some h ∧
    ((∃ ino, inodes st !! h = Some ino ∧
        inodes st' = <[h := with_open_cnt (off_add (open_cnt ino) 1) ino]> (inodes st)) ∨
     (inodes st !! h = None ∧
        inodes st' = <[h := mk_inode sector 1 false 0]> (inodes st))).
Proof.
  unfold inode_open. mrun.
  destruct (inode_open_scan sector (open_inodes st) st) as [[found st1]|] eqn:Hs;
    [|done].
  apply inode_open_scan_inv in Hs as [[-> ->]|(e & ino & -> & He & ->)].
  - unfold malloc_inode, store. mrun. intros [= <- <-].
    eexists. split; [done|]. right. split; [|done].
    apply not_elem_of_dom, is_fresh.
  - intros [= <- <-]. exists e. split; [done|]. left. eauto.
Qed.

Lemma inode_close_inv h st st' :
  inode_close (Some h) st = Ok (tt, st') →
  ∃ ino, inodes st !! h = Some ino ∧
    inodes st' =
      if decide (off_sub (open_cnt ino) 1 = 0) then delete h (inodes st)
      else <[h := with_open_cnt (off_sub (open_cnt ino) 1) ino]> (inodes st).
Proof.
  unfold inode_close. rewrite bind_unfold, deref_spec.
  destruct (inodes st !! h) as [ino|] eqn:He; [|done].
  intros H. exists ino. split; [done|]. revert H.
  unfold store. mrun.
  destruct (decide (off_sub (open_cnt ino) 1 = 0)) as [Hz|Hz].
  - mrun. destruct (removed ino).
    + destruct (inode_close_release _ _) as [[[] st1]|] eqn:Hr; [|done].
      intros [= <-]. apply inode_close_release_handles in Hr.
      unfold handles in Hr. cbn in Hr. injection Hr as Hr _. cbn. rewrite Hr.
      apply delete_insert_eq.
    + intros [= <-]. cbn. apply delete_insert_eq.
  - intros [= <-]. done.
Qed.

Lemma inode_deny_write_inv h st st' :
  inode_deny_write h st = Ok (tt, st') →
  ∃ ino, inodes st !! h = Some ino ∧
    off_add (deny_write_cnt ino) 1 ≤ open_cnt ino ∧
    inodes st' =
      <[h := with_deny_write_cnt (off_add (deny_write_cnt ino) 1) ino]> (inodes st).
Proof.
  unfold inode_deny_write. rewrite bind_unfold, deref_spec.
  destruct (inodes st !! h) as [ino|] eqn:He; [|done].
  unfold store. mrun. cbn. case_bool_decide as Hle; [|done].
  intros [= <-]. eauto.
Qed.

Lemma inode_allow_write_inv h st st' :
  inode_allow_write h st = Ok (tt, st') →
  ∃ ino, inodes st !! h = Some ino ∧
    0 < deny_write_cnt ino ≤ open_cnt ino ∧
    inodes st' =
      <[h := with_deny_write_cnt (off_sub (deny_write_cnt ino) 1) ino]> (inodes st).
Proof.
  unfold inode_allow_write. rewrite bind_unfold, deref_spec.
  destruct (inodes st !! h) as [ino|] eqn:He; [|done].
  unfold store. mrun. case_bool_decide as Hpos; [|done].
  case_bool_decide as Hle; [|done]. intros [= <-].
  exists ino. repeat split; [lia|done].
Qed.

Lemma inode_remove_inv h st st' :
  inode_remove h st = Ok (tt, st') →
  ∃ ino, inodes st !! h = Some ino ∧
    inodes st' = <[h := with_removed ino]> (inodes st).
Proof.
  unfold inode_remove. rewrite bind_unfold, deref_spec.
  destruct (inodes st !! h) as [ino|] eqn:He; [|done].
  unfold store. mrun. intros [= <-]. eauto.
Qed.

(** An opener is a client that holds a handle (as a [struct file] does):
    the handle, and whether it has called [inode_deny_write] and not yet
    [inode_allow_write]. *)
Abbreviation openers := (list (nat * bool)).

(** The number of openers of [h], and of those that deny writes. *)
Definition holders (h : nat) (g : openers) : Z :=
  Z.of_nat (length (filter (λ o, o.1 = h) g)).
Definition deniers (h : nat) (g : openers) : Z :=
  Z.of_nat (length (filter (λ o, o = (h, true)) g)).

(** The calling discipline of inode.c: an opener calls [inode_deny_write]
    at most once, calls [inode_allow_write] only after it has denied, and
    closes only when it holds no denial; fewer than 2^31 openers exist. *)
Inductive step : state * openers → state * openers → Prop :=
  | step_open sector st g h st' :
      Z.of_nat (length g) + 1 < 2 ^ 31 →
      inode_open sector st = Ok (Some h, st') →
      step (st, g) (st', (h, false) :: g)
  | step_reopen k h b st g st' :
      g !! k = Some (h, b) →
      Z.of_nat (length g) + 1 < 2 ^ 31 →
      inode_reopen (Some h) st = Ok (Some h, st') →
      step (st, g) (st', (h, false) :: g)
  | step_close k h st g st' :
      g !! k = Some (h, false) →
      inode_close (Some h) st = Ok (tt, st') →
      step (st, g) (st', delete k g)
  | step_deny k h st g st' :
      g !! k = Some (h, false) →
      inode_deny_write h st = Ok (tt, st') →
      step (st, g) (st', <[k := (h, true)]> g)
  | step_allow k h st g st' :
      g !! k = Some (h, true) →
      inode_allow_write h st = Ok (tt, st') →
      step (st, g) (st', <[k := (h, false)]> g)
  | step_remove k h b st g st' :
      g !! k = Some (h, b) →
      inode_remove h st = Ok (tt, st') →
      step (st, g) (st', g).

(** The states of a run that starts with no handle and no opener. *)
Inductive disciplined : state → openers → Prop :=
  | disciplined_init st :
      inodes st = ∅ → disciplined st []
  | disciplined_step st g st' g' :
      disciplined st g → step (st, g) (st', g') → disciplined st' g'.

(** Every live handle counts its openers and its deniers. *)
Definition counted (st : state) (g : openers) : Prop :=
  (∀ h ino, inodes st !! h = Some ino →
     open_cnt ino = holders h g ∧ deny_write_cnt ino = deniers h g) ∧
  (∀ h, 0 < holders h g → is_Some (inodes st !! h)) ∧
  Z.of_nat (length g) < 2 ^ 31.

Lemma holders_cons h o g :
  holders h (o :: g) = (if decide (o.1 = h) then 1 else 0) + holders h g.
Proof.
  unfold holders. rewrite filter_cons. destruct (decide (o.1 = h)); simpl; lia.
Qed.

Lemma deniers_cons h o g :
  deniers h (o :: g) = (if decide (o = (h, true)) then 1 else 0) + deniers h g.
Proof.
  unfold deniers. rewrite filter_cons. destruct (decide (o = (h, true))); simpl; lia.
Qed.

Lemma holders_app h g1 g2 : holders h (g1 ++ g2) = holders h g1 + holders h g2.
Proof. unfold holders. rewrite filter_app, length_app. lia. Qed.

Lemma deniers_app h g1 g2 : deniers h (g1 ++ g2) = deniers h g1 + deniers h g2.
Proof. unfold deniers. rewrite filter_app, length_app. lia. Qed.

Lemma deniers_le_holders h g : 0 ≤ deniers h g ≤ holders h g.
Proof.
  induction g as [|o g IH].
  - unfold deniers, holders. simpl. lia.
  - rewrite deniers_cons, holders_cons.
    destruct (decide (o = (h, true))) as [Ho|]; destruct (decide (o.1 = h));
      try lia. subst o. done.
Qed.

Lemma holders_le_length h g : 0 ≤ holders h g ≤ Z.of_nat (length g).
Proof.
  unfold holders. pose proof (length_filter (λ o : nat * bool, o.1 = h) g). lia.
Qed.

Lemma holders_pos h b g : (h, b) ∈ g → 0 < holders h g.
Proof.
  intros Hin. apply list_elem_of_split in Hin as (g1 & g2 & ->).
  rewrite holders_app, holders_cons. simpl. rewrite decide_True by done.
  pose proof (holders_le_length h g1). pose proof (holders_le_length h g2). lia.
Qed.

Lemma split_at {A} (g : list A) k o :
  g !! k = Some o →
  ∃ g1 g2, g = g1 ++ o :: g2 ∧ delete k g = g1 ++ g2 ∧
    ∀ o', <[k := o']> g = g1 ++ o' :: g2.
Proof.
  intros Hk. exists (take k g), (drop (S k) g).
  split; [by rewrite take_drop_middle|].
  split; [by rewrite delete_take_drop|].
  intros o'. apply lookup_lt_Some in Hk.
  rewrite insert_take_drop by done. done.
Qed.

Ltac count_simpl :=
  rewrite ?holders_app, ?holders_cons, ?deniers_app, ?deniers_cons in *;
  cbn [fst snd] in *; repeat case_decide; simplify_eq; try lia.

Lemma counted_insert st g st' g' h ino' :
  counted st g →
  inodes st' = <[h := ino']> (inodes st) →
  open_cnt ino' = holders h g' → deny_write_cnt ino' = deniers h g' →
  (∀ h', h' ≠ h → holders h' g' = holders h' g ∧ deniers h' g' = deniers h' g) →
  Z.of_nat (length g') < 2 ^ 31 →
  counted st' g'.
Proof.
  intros (I1 & I2 & I3) Hh Ho Hd Hother Hlen. split; [|split; [|done]].
  - intros h' ino. rewrite Hh. destruct (decide (h' = h)) as [->|Hne].
    + rewrite lookup_insert_eq. by intros [= <-].
    + rewrite lookup_insert_ne by done. intros Hl.
      destruct (Hother _ Hne) as [-> ->]. eauto.
  - intros h'. rewrite Hh. destruct (decide (h' = h)) as [->|Hne].
    + rewrite lookup_insert_eq. eauto.
    + rewrite lookup_insert_ne by done. destruct (Hother _ Hne) as [-> _]. eauto.
Qed.

Lemma counted_delete st g st' g' h :
  counted st g →
  inodes st' = delete h (inodes st) →
  holders h g' = 0 →
  (∀ h', h' ≠ h → holders h' g' = holders h' g ∧ deniers h' g' = deniers h' g) →
  Z.of_nat (length g') < 2 ^ 31 →
  counted st' g'.
Proof.
  intros (I1 & I2 & I3) Hh Ho Hother Hlen. split; [|split; [|done]].
  - intros h' ino. rewrite Hh. destruct (decide (h' = h)) as [->|Hne].
    + by rewrite lookup_delete_eq.
    + rewrite lookup_delete_ne by done. intros Hl.
      destruct (Hother _ Hne) as [-> ->]. eauto.
  - intros h'. rewrite Hh. destruct (decide (h' = h)) as [->|Hne]; [lia|].
    rewrite lookup_delete_ne by done. destruct (Hother _ Hne) as [-> _]. eauto.
Qed.

Lemma step_counted st g st' g' :
  counted st g → step (st, g) (st', g') → counted st' g'.
Proof.
  intros Hc Hs. pose proof Hc as (I1 & I2 & I3).
  inversion Hs as
    [sector ? ? h ? Hlen Hop|k h b ? ? ? Hk Hlen Hop|k h ? ? ? Hk Hop
    |k h ? ? ? Hk Hop|k h ? ? ? Hk Hop|k h b ? ? ? Hk Hop]; subst.
  - apply inode_open_inv in Hop as (h' & [= <-] & [(ino & Hl & Hh)|[Hl Hh]]).
    + destruct (I1 _ _ Hl) as [Ho Hd].
      pose proof (holders_le_length h g).
      eapply counted_insert; [done|done|..]; cbn.
      * rewrite off_add_id by lia. count_simpl.
      * count_simpl.
      * intros h' Hne. split; count_simpl.
      * lia.
    + assert (holders h g = 0) as Hz.
      { pose proof (holders_le_length h g).
        destruct (decide (0 < holders h g)) as [Hp|]; [|lia].
        apply I2 in Hp as [? Hp]. congruence. }
      pose proof (deniers_le_holders h g).
      eapply counted_insert; [done|done|..]; cbn.
      * count_simpl.
      * count_simpl.
      * intros h' Hne. split; count_simpl.
      * lia.
  - rewrite inode_reopen_spec in Hop.
    destruct (inodes st !! h) as [ino|] eqn:Hl; [|done].
    injection Hop as <-. destruct (I1 _ _ Hl) as [Ho Hd].
    pose proof (holders_le_length h g).
    eapply counted_insert; [done|done|..]; cbn.
    + rewrite off_add_id by lia. count_simpl.
    + count_simpl.
    + intros h' Hne. split; count_simpl.
    + lia.
  - apply inode_close_inv in Hop as (ino & Hl & Hh).
    destruct (I1 _ _ Hl) as [Ho Hd].
    destruct (split_at _ _ _ Hk) as (g1 & g2 & Hg & Hdel & _).
    rewrite Hdel. rewrite Hg in *. clear Hdel Hg Hk.
    pose proof (holders_le_length h g1). pose proof (holders_le_length h g2).
    rewrite length_app in *. cbn [length] in *.
    assert (open_cnt ino = holders h g1 + holders h g2 + 1) as Ho' by count_simpl.
    assert (- 2 ^ 31 ≤ open_cnt ino - 1 < 2 ^ 31) as Hr by lia.
    rewrite (off_sub_id _ _ Hr) in Hh. clear Hr.
    case_decide as Hz.
    + eapply counted_delete; [done|done|..].
      * count_simpl.
      * intros h' Hne. split; count_simpl.
      * rewrite ?length_app; cbn [length]; lia.
    + eapply counted_insert; [done|done|..]; cbn.
      * count_simpl.
      * count_simpl.
      * intros h' Hne. split; count_simpl.
      * rewrite ?length_app; cbn [length]; lia.
  - apply inode_deny_write_inv in Hop as (ino & Hl & _ & Hh).
    destruct (I1 _ _ Hl) as [Ho Hd].
    destruct (split_at _ _ _ Hk) as (g1 & g2 & Hg & _ & Hins).
    rewrite Hins. rewrite Hg in *. clear Hins Hg Hk.
    pose proof (deniers_le_holders h g1). pose proof (deniers_le_holders h g2).
    pose proof (holders_le_length h g1). pose proof (holders_le_length h g2).
    rewrite length_app in *. cbn [length] in *.
    assert (deny_write_cnt ino = deniers h g1 + deniers h g2) as Hd' by count_simpl.
    assert (- 2 ^ 31 ≤ deny_write_cnt ino + 1 < 2 ^ 31) as Hr by lia.
    rewrite (off_add_id _ _ Hr) in Hh. clear Hr.
    eapply counted_insert; [done|done|..]; cbn.
    + count_simpl.
    + count_simpl.
    + intros h' Hne. split; count_simpl.
    + rewrite ?length_app; cbn [length]; lia.
  - apply inode_allow_write_inv in Hop as (ino & Hl & Hpos & Hh).
    destruct (I1 _ _ Hl) as [Ho Hd].
    destruct (split_at _ _ _ Hk) as (g1 & g2 & Hg & _ & Hins).
    rewrite Hins. rewrite Hg in *. clear Hins Hg Hk.
    pose proof (deniers_le_holders h g1). pose proof (deniers_le_holders h g2).
    pose proof (holders_le_length h g1). pose proof (holders_le_length h g2).
    rewrite length_app in *. cbn [length] in *.
    assert (deny_write_cnt ino = deniers h g1 + deniers h g2 + 1) as Hd' by count_simpl.
    assert (- 2 ^ 31 ≤ deny_write_cnt ino - 1 < 2 ^ 31) as Hr by lia.
    rewrite (off_sub_id _ _ Hr) in Hh. clear Hr.
    eapply counted_insert; [done|done|..]; cbn.
    + count_simpl.
    + count_simpl.
    + intros h' Hne. split; count_simpl.
    + rewrite ?length_app; cbn [length]; lia.
  - apply inode_remove_inv in Hop as (ino & Hl & Hh).
    destruct (I1 _ _ Hl) as [Ho Hd].
    eapply counted_insert; [done|done|..]; cbn; try done.
Qed.

Lemma disciplined_counted st g : disciplined st g → counted st g.
Proof.
  induction 1 as [st Hempty|st g st' g' _ IH Hs].
  - split; [|split].
    + intros h ino. by rewrite Hempty, lookup_empty.
    + intros h. unfold holders. simpl. lia.
    + simpl. lia.
  - by eapply step_counted.
Qed.

(** C9. Along every run of [inode_open], [inode_reopen], [inode_close],
    [inode_deny_write], [inode_allow_write] (and [inode_remove]) that keeps
    the calling discipline, every live handle has
    [0 <= deny_write_cnt <= open_cnt]. *)
Theorem deny_write_cnt_bounded st g h ino :
  disciplined st g →
  inodes st !! h = Some ino →
  0 ≤ deny_write_cnt ino ≤ open_cnt ino.
Proof.
  intros Hd Hl. apply disciplined_counted in Hd as (I1 & _ & _).
  destruct (I1 _ _ Hl) as [-> ->]. apply deniers_le_holders.
Qed.

(** ** What the cache shows: the view of a sector *)

(** The first slot of [l] for sector [s]: what [cache_lookup] finds. *)
Definition slot_of (l : list cache) (s : Z) : option cache :=
  snd <$> list_find (λ c, cache_sector c = s) l.

(** The contents of sector [s] as every reader sees them: the data of its
    slot if it has one, else what is on the disk. *)
Definition view (st : state) (s : Z) : list Z :=
  match slot_of (caches st) s with
  | Some c => cache_data c
  | None => disk_read (disk st) s
  end.

(** The sectors that have a slot. *)
Definition cached (st : state) : list Z := cache_sector <$> caches st.

Lemma slot_of_nil s : slot_of [] s = None.
Proof. reflexivity. Qed.

Lemma slot_of_cons c l s :
  slot_of (c :: l) s = if decide (cache_sector c = s) then Some c else slot_of l s.
Proof.
  unfold slot_of. cbn [list_find].
  destruct (decide (cache_sector c = s)); [done|].
  destruct (list_find _ l) as [[i x]|]; done.
Qed.

Lemma slot_of_None l s : slot_of l s = None ↔ s ∉ cache_sector <$> l.
Proof.
  induction l as [|c l IH].
  - split; [intros _; apply not_elem_of_nil | done].
  - rewrite slot_of_cons, fmap_cons, not_elem_of_cons.
    destruct (decide (cache_sector c = s)) as [Heq|Hne].
    + split; [done|]. intros [Hne _]. by destruct Hne.
    + rewrite IH. split; [intros ?; split; [congruence|done] | by intros [_ ?]].
Qed.

Lemma slot_of_Some l s c :
  slot_of l s = Some c → c ∈ l ∧ cache_sector c = s.
Proof.
  induction l as [|x l IH]; [done|]. rewrite slot_of_cons.
  destruct (decide (cache_sector x = s)).
  - intros [= <-]. split; [left|done].
  - intros H. apply IH in H as [? ?]. split; [by right|done].
Qed.

Lemma slot_of_elem l c :
  NoDup (cache_sector <$> l) → c ∈ l → slot_of l (cache_sector c) = Some c.
Proof.
  induction l as [|x l IH]; intros Hnd Hin; [by apply elem_of_nil in Hin|].
  rewrite fmap_cons in Hnd. apply NoDup_cons in Hnd as [Hx Hnd].
  rewrite slot_of_cons. apply elem_of_cons in Hin as [->|Hin].
  - by rewrite decide_True.
  - rewrite decide_False; [by apply IH|].
    intros Heq. apply Hx. rewrite Heq. by apply list_elem_of_fmap_2.
Qed.

Lemma slot_of_app l1 l2 s :
  slot_of (l1 ++ l2) s =
    match slot_of l1 s with Some c => Some c | None => slot_of l2 s end.
Proof.
  induction l1 as [|c l1 IH]; [done|]. rewrite <- app_comm_cons, !slot_of_cons.
  destruct (decide (cache_sector c = s)); done.
Qed.

(** Dropping the slot [c] from a list without duplicates. *)
Lemma slot_of_drop l1 c l2 s :
  NoDup (cache_sector <$> l1 ++ c :: l2) →
  slot_of (l1 ++ l2) s =
    if decide (cache_sector c = s) then None else slot_of (l1 ++ c :: l2) s.
Proof.
  intros Hnd. destruct (decide (cache_sector c = s)) as [<-|Hne].
  - apply slot_of_None. rewrite fmap_app, fmap_cons in Hnd.
    apply NoDup_app in Hnd as (_ & H1 & H2). apply NoDup_cons in H2 as [H2 _].
    rewrite fmap_app, elem_of_app. intros [Hin|Hin]; [|done].
    apply (H1 _ Hin). left.
  - rewrite !slot_of_app, slot_of_cons, decide_False by done. done.
Qed.

Lemma list_find_slot_of l s i c :
  list_find (λ c, cache_sector c = s) l = Some (i, c) → slot_of l s = Some c.
Proof. unfold slot_of. by intros ->. Qed.

Lemma list_find_slot_of_None l s :
  list_find (λ c, cache_sector c = s) l = None → slot_of l s = None.
Proof. unfold slot_of. by intros ->. Qed.

(** [st1] is [st] once [cache_make] has made room for a new slot. *)
Definition room (st st1 : state) : Prop :=
  (cache_count st ≠ CACHE_MAX ∧ st1 = st) ∨
  (cache_count st = CACHE_MAX ∧ ∃ l t, caches st = l ++ [t] ∧ st1 = pop_slot l t st).

Lemma cache_make_spec sector read st :
  count_ok st →
  ∃ st1, room st st1 ∧
    cache_make sector read st =
      Ok (0%nat, push_slot (fresh_slot sector read st1) st1).
Proof.
  intros Hok. destruct (decide (cache_count st = CACHE_MAX)) as [Hm|Hm].
  - destruct (count_ok_full _ Hok Hm) as (l & t & Hl).
    exists (pop_slot l t st). split; [right; eauto|]. by apply cache_make_full.
  - exists st. split; [by left|]. by apply cache_make_room.
Qed.

(** The two ways [cache_lookup (sector, true)] returns: a hit leaves the
    state alone; a miss pushes a slot read from the disk. *)
Lemma cache_lookup_spec sector st :
  count_ok st →
  (∃ i c, caches st !! i = Some c ∧ slot_of (caches st) sector = Some c ∧
      cache_lookup sector true st = Ok (Some i, st)) ∨
  (slot_of (caches st) sector = None ∧ ∃ st1, room st st1 ∧
      cache_lookup sector true st =
        Ok (Some 0%nat, push_slot (fresh_slot sector true st1) st1)).
Proof.
  intros Hok.
  destruct (list_find (λ c, cache_sector c = sector) (caches st))
    as [[i c]|] eqn:Hf.
  - left. exists i, c. split; [by apply list_find_Some in Hf as (? & _)|].
    split; [by eapply list_find_slot_of|]. by eapply cache_lookup_hit.
  - right. split; [by apply list_find_slot_of_None|].
    destruct (cache_make_spec sector true st Hok) as (st1 & Hr & Hm).
    exists st1. split; [done|]. by rewrite (cache_lookup_miss _ _ Hf), Hm.
Qed.

(** ** The cache invariant

    [cache_inv F st]: the slots are counted, there is one slot per sector,
    every buffer is a full sector, and every clean slot holds what the disk
    holds, except for the sectors in [F] (created by [cache_create] and not
    written since). *)
Definition sector_sized (d : list Z) : Prop :=
  length d = Z.to_nat DISK_SECTOR_SIZE.

Definition cache_inv (F : gset Z) (st : state) : Prop :=
  count_ok st ∧
  NoDup (cached st) ∧
  (∀ c, c ∈ caches st → sector_sized (cache_data c)) ∧
  (∀ s d, disk st !! s = Some d → sector_sized d) ∧
  (∀ c, c ∈ caches st → cache_dirty c = false → cache_sector c ∉ F →
     disk_read (disk st) (cache_sector c) = cache_data c).

Lemma cache_inv_mono F F' st : F ⊆ F' → cache_inv F st → cache_inv F' st.
Proof.
  intros HF (H1 & H2 & H3 & H4 & H5).
  split; [done|split; [done|split; [done|split; [done|]]]].
  intros c Hc Hd Hn. apply H5; [done|done|]. set_solver.
Qed.

Lemma zeros_sized : sector_sized (zeros DISK_SECTOR_SIZE).
Proof. unfold sector_sized, zeros. by rewrite length_replicate. Qed.

Lemma disk_read_sized d s :
  (∀ s x, d !! s = Some x → sector_sized x) → sector_sized (disk_read d s).
Proof.
  intros H. unfold disk_read. destruct (d !! s) eqn:E; simpl; [eauto|].
  apply zeros_sized.
Qed.

Lemma view_sized F st s : cache_inv F st → sector_sized (view st s).
Proof.
  intros (_ & _ & H3 & H4 & _). unfold view.
  destruct (slot_of (caches st) s) as [c|] eqn:E.
  - apply slot_of_Some in E as [Hin _]. auto.
  - by apply disk_read_sized.
Qed.

Lemma memcpy_sized d off buf size :
  sector_sized d → 0 ≤ off → 0 ≤ size → off + size ≤ DISK_SECTOR_SIZE →
  sector_sized (memcpy d off buf size).
Proof.
  unfold sector_sized, memcpy, DISK_SECTOR_SIZE. intros Hd Ho Hs Hb.
  rewrite !length_app, length_take, length_drop, length_take. lia.
Qed.

Lemma disk_read_insert d s x s' :
  disk_read (<[s := x]> d) s' = if decide (s = s') then x else disk_read d s'.
Proof.
  unfold disk_read. destruct (decide (s = s')) as [->|Hne].
  - by rewrite lookup_insert_eq.
  - by rewrite lookup_insert_ne.
Qed.

Lemma view_push c st x :
  view (push_slot c st) x =
    if decide (cache_sector c = x) then cache_data c else view st x.
Proof.
  unfold view. change (caches (push_slot c st)) with (c :: caches st).
  change (disk (push_slot c st)) with (disk st). rewrite slot_of_cons.
  by destruct (decide (cache_sector c = x)).
Qed.

Lemma elem_of_cached st s : s ∈ cached st ↔ is_Some (slot_of (caches st) s).
Proof.
  unfold cached. destruct (slot_of (caches st) s) as [c|] eqn:E.
  - split; [eauto|]. intros _. apply slot_of_Some in E as [Hin <-].
    by apply list_elem_of_fmap_2.
  - split; [|by intros [? ?]]. intros Hin. by apply slot_of_None in E.
Qed.

Lemma view_uncached st s : s ∉ cached st → view st s = disk_read (disk st) s.
Proof.
  intros Hn. unfold view. destruct (slot_of (caches st) s) eqn:E; [|done].
  destruct Hn. apply elem_of_cached. eauto.
Qed.

(** Making room keeps the invariant, and changes the view of no sector
    outside [F]. *)
Lemma room_inv F st st1 :
  cache_inv F st → room st st1 →
  cache_inv F st1 ∧ cache_count st1 < CACHE_MAX ∧
  outside_cache st1 = outside_cache st ∧
  (∀ x, x ∈ cached st1 → x ∈ cached st) ∧
  (∀ x, x ∉ F ∨ x ∉ cached st → view st1 x = view st x).
Proof.
  intros Hinv [[Hc ->]|(Hc & l & t & Hl & ->)].
  - split; [done|]. destruct Hinv as ((? & ?) & ?).
    split; [lia|]. split; [done|]. split; [done|]. done.
  - pose proof Hinv as ((Hn & Hle) & Hnd & Hsz & Hdsz & Hcoh).
    unfold cached in *. rewrite Hl in *.
    assert (Ht : t ∈ l ++ [t]) by (apply elem_of_app; right; left).
    assert (Hl' : ∀ c, c ∈ l → c ∈ l ++ [t]) by (intros; apply elem_of_app; by left).
    rewrite fmap_app in Hnd. cbn in Hnd.
    apply NoDup_app in Hnd as (Hnd & Hnt & _).
    assert (Hfresh : ∀ c, c ∈ l → cache_sector c ≠ cache_sector t).
    { intros c Hin Heq. apply (Hnt (cache_sector c)).
      - by apply list_elem_of_fmap_2.
      - rewrite Heq. left. }
    split; [|split; [|split; [|split]]].
    + split; [|split; [|split; [|split]]]; cbn.
      * split; cbn; [|lia]. rewrite length_app in Hn. simpl in Hn. lia.
      * done.
      * auto.
      * unfold save_to. intros s d. destruct (cache_dirty t); [|by eauto].
        destruct (decide (cache_sector t = s)) as [<-|Hne].
        -- rewrite lookup_insert_eq. intros [= <-]. auto.
        -- rewrite lookup_insert_ne by done. eauto.
      * intros c Hin Hd HF. unfold save_to. destruct (cache_dirty t); [|by auto].
        rewrite disk_read_insert, decide_False by (apply not_eq_sym; auto). auto.
    + cbn. lia.
    + by destruct st.
    + cbn. intros x Hx. rewrite fmap_app, elem_of_app. by left.
    + intros x Hx. unfold view.
      change (caches (pop_slot l t st)) with l.
      change (disk (pop_slot l t st)) with (save_to (disk st) t).
      assert (Hnd0 : NoDup (cache_sector <$> l ++ [t])).
      { destruct Hinv as (_ & H0 & _). unfold cached in H0. by rewrite Hl in H0. }
      pose proof (slot_of_drop l t [] x Hnd0) as Hdrop. rewrite app_nil_r in Hdrop.
      rewrite Hdrop, Hl.
      destruct (decide (cache_sector t = x)) as [<-|Hne].
      * rewrite (slot_of_elem (l ++ [t]) t) by done.
        unfold save_to. destruct (cache_dirty t) eqn:Hd.
        -- by rewrite disk_read_insert, decide_True.
        -- destruct Hx as [Hx|Hx]; [by apply Hcoh|].
           destruct Hx. rewrite fmap_app, elem_of_app. right. left.
      * destruct (slot_of (l ++ [t]) x); [done|].
        unfold save_to. destruct (cache_dirty t); [|done].
        by rewrite disk_read_insert, decide_False.
Qed.

Lemma push_inv F st c :
  cache_inv F st → cache_count st < CACHE_MAX →
  cache_sector c ∉ cached st → sector_sized (cache_data c) →
  (cache_dirty c = false → cache_sector c ∉ F →
     disk_read (disk st) (cache_sector c) = cache_data c) →
  cache_inv F (push_slot c st).
Proof.
  intros ((Hn & Hle) & Hnd & Hsz & Hdsz & Hcoh) Hlt Hfresh Hc Hclean.
  split; [|split; [|split; [|split]]].
  - split; cbn; [|lia]. lia.
  - unfold cached. cbn. apply NoDup_cons. done.
  - cbn. intros x [->|Hin]%elem_of_cons; auto.
  - done.
  - cbn. intros x [->|Hin]%elem_of_cons; auto.
Qed.

(** Moving slot [i] to the front with new contents [c']. *)
Definition touched (i : nat) (c' : cache) (st : state) : state :=
  set_caches (c' :: delete i (caches st)) st.

Lemma touched_cached i c c' st x :
  caches st !! i = Some c → cache_sector c' = cache_sector c →
  x ∈ cached (touched i c' st) ↔ x ∈ cached st.
Proof.
  intros Hi Hs. destruct (split_at _ _ _ Hi) as (l1 & l2 & Hl & Hdel & _).
  unfold cached, touched. cbn. rewrite Hdel, Hl, !fmap_app, !fmap_cons, Hs.
  rewrite elem_of_cons, !elem_of_app, elem_of_cons. tauto.
Qed.

Lemma touched_view i c c' st x :
  NoDup (cached st) →
  caches st !! i = Some c → cache_sector c' = cache_sector c →
  view (touched i c' st) x =
    if decide (cache_sector c = x) then cache_data c' else view st x.
Proof.
  intros Hnd Hi Hs. destruct (split_at _ _ _ Hi) as (l1 & l2 & Hl & Hdel & _).
  unfold view, touched. cbn [caches set_caches disk]. rewrite Hdel.
  unfold cached in Hnd. rewrite Hl in *.
  rewrite slot_of_cons, Hs, (slot_of_drop _ _ _ x Hnd).
  destruct (decide (cache_sector c = x)); done.
Qed.

Lemma touched_inv F F' i c c' st :
  cache_inv F st →
  caches st !! i = Some c → cache_sector c' = cache_sector c →
  sector_sized (cache_data c') →
  (∀ x, x ≠ cache_sector c → x ∉ F' → x ∉ F) →
  (cache_dirty c' = false → cache_sector c ∉ F' →
     disk_read (disk st) (cache_sector c) = cache_data c') →
  cache_inv F' (touched i c' st).
Proof.
  intros (Hcnt & Hnd & Hsz & Hdsz & Hcoh) Hi Hs Hc HF Hclean.
  destruct (split_at _ _ _ Hi) as (l1 & l2 & Hl & Hdel & _).
  assert (Hin : ∀ x, x ∈ l1 ++ l2 → x ∈ caches st).
  { intros x. rewrite Hl, !elem_of_app, elem_of_cons. tauto. }
  assert (Hnd' : NoDup (cache_sector c :: (cache_sector <$> l1 ++ l2))).
  { unfold cached in Hnd. rewrite Hl in Hnd.
    rewrite fmap_app, fmap_cons in Hnd. rewrite fmap_app.
    by rewrite <- Permutation_middle in Hnd. }
  split; [|split; [|split; [|split]]].
  - by eapply touch_count_ok.
  - unfold cached, touched. cbn. rewrite Hdel, Hs. done.
  - unfold touched. cbn. rewrite Hdel. intros x [->|Hx]%elem_of_cons; auto.
  - done.
  - unfold touched. cbn. rewrite Hdel. intros x [->|Hx]%elem_of_cons.
    + rewrite Hs. auto.
    + intros Hd Hn. apply Hcoh; [auto|done|]. apply HF; [|done].
      apply NoDup_cons in Hnd' as [Hnd' _]. intros Heq. apply Hnd'.
      rewrite <- Heq. by apply list_elem_of_fmap_2.
Qed.

Lemma in_sector_true off size :
  0 ≤ off → 0 ≤ size → off + size ≤ DISK_SECTOR_SIZE → in_sector off size = true.
Proof.
  intros. unfold in_sector, to_unsigned, DISK_SECTOR_SIZE in *.
  apply bool_decide_eq_true. rewrite Z.mod_small; lia.
Qed.

Lemma in_bounds_true off size :
  0 ≤ off → 0 ≤ size → off + size ≤ DISK_SECTOR_SIZE → in_bounds off size = true.
Proof. intros. unfold in_bounds. by apply bool_decide_eq_true. Qed.

(** What [cache_lookup (sector, true)] leaves behind: the slot of [sector]
    at position [i], holding the view of [sector]. *)
Lemma cache_lookup_inv F sector st :
  cache_inv F st →
  ∃ i c st1, cache_lookup sector true st = Ok (Some i, st1) ∧
    caches st1 !! i = Some c ∧ cache_sector c = sector ∧
    cache_data c = view st sector ∧
    (cache_dirty c = false → sector ∉ F →
       disk_read (disk st1) sector = cache_data c) ∧
    cache_inv F st1 ∧ outside_cache st1 = outside_cache st ∧
    (∀ x, x ∈ cached st1 → x = sector ∨ x ∈ cached st) ∧
    (∀ x, x ∉ F ∨ sector ∈ cached st ∨ x ∉ cached st → view st1 x = view st x).
Proof.
  intros Hinv. pose proof Hinv as (Hcnt & Hnd & Hsz & Hdsz & Hcoh).
  destruct (cache_lookup_spec sector st Hcnt)
    as [(i & c & Hi & Hslot & Hl)|(Hslot & st1 & Hroom & Hl)].
  - exists i, c, st. split; [done|]. split; [done|].
    pose proof (slot_of_Some _ _ _ Hslot) as [Hin Hs].
    split; [done|]. split; [by unfold view; rewrite Hslot|].
    split; [intros; subst; by apply Hcoh|].
    split; [done|]. split; [done|]. split; [auto|done].
  - destruct (room_inv _ _ _ Hinv Hroom) as (Hinv1 & Hlt & Hout & Hsub & Hview).
    assert (Hnc : sector ∉ cached st).
    { intros [c Hc]%elem_of_cached. congruence. }
    assert (Hnc1 : sector ∉ cached st1) by auto.
    assert (Hv : view st1 sector = view st sector) by auto.
    rewrite (view_uncached _ _ Hnc1) in Hv.
    eexists 0%nat, _, _. split; [done|]. split; [done|].
    split; [done|]. split; [done|]. split; [done|].
    split.
    { apply push_inv; try done.
      apply disk_read_sized. by destruct Hinv1 as (_ & _ & _ & ? & _). }
    split; [by destruct st1|].
    split.
    { intros x. unfold cached. cbn. intros [->|Hx]%elem_of_cons; auto. }
    intros x Hx. rewrite view_push. cbn.
    destruct (decide (sector = x)) as [<-|Hne]; [done|].
    apply Hview. tauto.
Qed.

(** [cache_read] returns the bytes of the view; views outside [F] do not
    change, and no view changes at all when the sector had a slot. *)
Lemma cache_read_spec F sector off size st :
  cache_inv F st → 0 ≤ off → 0 < size → off + size ≤ DISK_SECTOR_SIZE →
  ∃ st', cache_read sector off size st =
           Ok (bytes_at (view st sector) off size, st') ∧
    cache_inv F st' ∧ outside_cache st' = outside_cache st ∧
    sector ∈ cached st' ∧
    (∀ x, x ∈ cached st' → x = sector ∨ x ∈ cached st) ∧
    (∀ x, x ∉ F ∨ sector ∈ cached st ∨ x ∉ cached st → view st' x = view st x).
Proof.
  intros Hinv Ho Hs Hb.
  destruct (cache_lookup_inv F sector st Hinv)
    as (i & c & st1 & Hl & Hi & Hsec & Hdata & Hclean & Hinv1 & Hout & Hsub & Hview).
  exists (touched i c st1). unfold cache_read.
  unfold ASSERT. rewrite in_sector_true, in_bounds_true by lia.
  mrun. rewrite decide_False by lia. cbn beta iota. rewrite Hl.
  cbn. rewrite Hi. cbn. unfold touch. mrun.
  split; [by rewrite Hdata|].
  pose proof Hinv1 as (_ & Hnd1 & _).
  split.
  { eapply touched_inv; try done.
    - by destruct Hinv1 as (_ & _ & H3 & _); eapply H3, list_elem_of_lookup_2.
    - intros Hd Hn. rewrite Hsec in *. auto. }
  split; [by destruct st1|].
  split. { eapply touched_cached; try done. rewrite <- Hsec.
           eapply list_elem_of_fmap_2, list_elem_of_lookup_2. done. }
  split. { intros x Hx. apply Hsub. by eapply touched_cached. }
  intros x Hx. rewrite (touched_view i c c) by done.
  destruct (decide (cache_sector c = x)) as [<-|Hne].
  - rewrite Hdata, Hsec. done.
  - auto.
Qed.

(** [cache_write] splices the bytes into the view of its sector, which is
    dirty afterwards. *)
Lemma cache_write_spec F sector buf off size st :
  cache_inv F st → 0 ≤ off → 0 < size → off + size ≤ DISK_SECTOR_SIZE →
  ∃ st', cache_write sector buf off size st = Ok (tt, st') ∧
    cache_inv (F ∖ {[sector]}) st' ∧ outside_cache st' = outside_cache st ∧
    sector ∈ cached st' ∧
    (∀ x, x ∈ cached st' → x = sector ∨ x ∈ cached st) ∧
    view st' sector = memcpy (view st sector) off buf size ∧
    (∀ x, x ≠ sector → x ∉ F ∨ sector ∈ cached st ∨ x ∉ cached st →
       view st' x = view st x).
Proof.
  intros Hinv Ho Hs Hb.
  destruct (cache_lookup_inv F sector st Hinv)
    as (i & c & st1 & Hl & Hi & Hsec & Hdata & Hclean & Hinv1 & Hout & Hsub & Hview).
  set (c' := mk_cache (cache_sector c) true (memcpy (cache_data c) off buf size)).
  exists (touched i c' st1). unfold cache_write.
  unfold ASSERT. rewrite in_sector_true, in_bounds_true by lia.
  mrun. rewrite decide_False by lia. cbn beta iota. rewrite Hl.
  cbn. rewrite Hi. cbn. unfold touch. mrun.
  split; [done|].
  pose proof Hinv1 as (_ & Hnd1 & Hsz1 & _).
  split.
  { eapply touched_inv; try done.
    - apply memcpy_sized; try lia. eapply Hsz1, list_elem_of_lookup_2. done.
    - intros x Hne Hx. rewrite Hsec in Hne. set_solver. }
  split; [by destruct st1|].
  split. { eapply (touched_cached i c c'); try done. rewrite <- Hsec.
           eapply list_elem_of_fmap_2, list_elem_of_lookup_2. done. }
  split. { intros x Hx. apply Hsub. by eapply (touched_cached i c c'). }
  split.
  { rewrite (touched_view i c c') by done. rewrite Hsec, decide_True by done.
    cbn. by rewrite Hdata. }
  intros x Hne Hx. rewrite (touched_view i c c') by done.
  rewrite Hsec, decide_False by done. auto.
Qed.

(** [cache_create] gives a sector without a slot a zeroed, clean slot. *)
Lemma cache_create_spec F sector st :
  cache_inv F st → sector ∉ cached st →
  ∃ st', cache_create sector st = Ok (tt, st') ∧
    cache_inv (F ∪ {[sector]}) st' ∧ outside_cache st' = outside_cache st ∧
    sector ∈ cached st' ∧
    (∀ x, x ∈ cached st' → x = sector ∨ x ∈ cached st) ∧
    view st' sector = zeros DISK_SECTOR_SIZE ∧
    (∀ x, x ≠ sector → x ∉ F ∨ x ∉ cached st → view st' x = view st x).
Proof.
  intros Hinv Hnc. pose proof Hinv as (Hcnt & _).
  destruct (cache_make_spec sector false st Hcnt) as (st1 & Hroom & Hm).
  destruct (room_inv _ _ _ Hinv Hroom) as (Hinv1 & Hlt & Hout & Hsub & Hview).
  eexists. unfold cache_create. rewrite bind_unfold, Hm. mrun.
  split; [done|]. split.
  { apply push_inv.
    - eapply cache_inv_mono; [|done]. set_solver.
    - done.
    - cbn. auto.
    - apply zeros_sized.
    - cbn. set_solver. }
  split; [by destruct st1|].
  split. { unfold cached. cbn. left. }
  split. { intros x. unfold cached. cbn. intros [->|Hx]%elem_of_cons; auto. }
  split. { rewrite view_push. cbn. by rewrite decide_True. }
  intros x Hne Hx. rewrite view_push. cbn. rewrite decide_False by done. auto.
Qed.

(** ** Bytes and words *)

Lemma lookup_bytes_at d off size (i : nat) :
  0 ≤ off → 0 ≤ size →
  bytes_at d off size !! i =
    if decide (Z.of_nat i < size) then d !! (Z.to_nat off + i)%nat else None.
Proof.
  intros Ho Hs. unfold bytes_at. destruct (decide (Z.of_nat i < size)).
  - rewrite lookup_take_lt by lia. by rewrite lookup_drop.
  - apply lookup_take_ge. lia.
Qed.

Lemma lookup_memcpy d off buf size (i : nat) :
  0 ≤ off → off ≤ Z.of_nat (length d) →
  memcpy d off buf size !! i =
    if decide (Z.of_nat i < off) then d !! i
    else if decide (Z.of_nat i < off + Z.of_nat (length (take (Z.to_nat size) buf)))
         then take (Z.to_nat size) buf !! (i - Z.to_nat off)%nat
         else d !! i.
Proof.
  intros Ho Hd. unfold memcpy. set (src := take (Z.to_nat size) buf).
  destruct (decide (Z.of_nat i < off)).
  - rewrite lookup_app_l by (rewrite length_take; lia).
    apply lookup_take_lt. lia.
  - rewrite lookup_app_r by (rewrite length_take; lia).
    rewrite length_take, Nat.min_l by lia.
    destruct (decide (Z.of_nat i < off + Z.of_nat (length src))).
    + by rewrite lookup_app_l by lia.
    + rewrite lookup_app_r by lia. rewrite lookup_drop. f_equal. lia.
Qed.

(** Reading back what [memcpy] stored. *)
Lemma bytes_at_memcpy_same d off buf size :
  0 ≤ off → 0 ≤ size → off + size ≤ Z.of_nat (length d) →
  size ≤ Z.of_nat (length buf) →
  bytes_at (memcpy d off buf size) off size = take (Z.to_nat size) buf.
Proof.
  intros Ho Hs Hd Hb. apply list_eq. intros i.
  rewrite lookup_bytes_at by done.
  destruct (decide (Z.of_nat i < size)).
  - rewrite lookup_memcpy by lia. rewrite length_take, Nat.min_l by lia.
    rewrite decide_False by lia. rewrite decide_True by lia. f_equal. lia.
  - symmetry. apply lookup_take_ge. lia.
Qed.

(** Reading a range that [memcpy] did not touch. *)
Lemma bytes_at_memcpy_other d off buf size off' size' :
  0 ≤ off → 0 ≤ size → off + size ≤ Z.of_nat (length d) →
  0 ≤ off' → 0 ≤ size' →
  off' + size' ≤ off ∨ off + size ≤ off' →
  bytes_at (memcpy d off buf size) off' size' = bytes_at d off' size'.
Proof.
  intros Ho Hs Hd Ho' Hs' Hdisj. apply list_eq. intros i.
  rewrite !lookup_bytes_at by done.
  destruct (decide (Z.of_nat i < size')); [|done].
  rewrite lookup_memcpy by lia.
  assert (Z.of_nat (length (take (Z.to_nat size) buf)) ≤ size)
    by (rewrite length_take; lia).
  destruct (decide (Z.of_nat (Z.to_nat off' + i)%nat < off)); [done|].
  destruct (decide (_ < _)); [lia|done].
Qed.

Lemma le_bytes_length n v : length (le_bytes n v) = n.
Proof. revert v. induction n; intros v; simpl; auto. Qed.

Lemma le_word_bytes n v :
  le_word (le_bytes n v) = v `mod` 256 ^ Z.of_nat n.
Proof.
  revert v. induction n as [|n IH]; intros v.
  - simpl. by rewrite Z.mod_1_r.
  - cbn [le_bytes]. unfold le_word in *. cbn [foldr]. rewrite IH.
    rewrite Nat2Z.inj_succ, Z.pow_succ_r by lia.
    rewrite Z.rem_mul_r by lia. lia.
Qed.

Lemma le_word_sector v : 0 ≤ v < 2 ^ 32 → le_word (le_bytes 4 v) = v.
Proof. intros H. rewrite le_word_bytes. apply Z.mod_small. simpl. lia. Qed.

Lemma le_word_zeros n : le_word (replicate n 0) = 0.
Proof. induction n as [|n IH]; [done|]. unfold le_word in *. simpl. lia. Qed.

Lemma bytes_at_zeros n off size :
  0 ≤ off → 0 ≤ size →
  ∃ m, bytes_at (zeros n) off size = replicate m 0.
Proof.
  intros Ho Hs. unfold bytes_at, zeros. rewrite drop_replicate, take_replicate. eauto.
Qed.

Lemma word_at_zeros n off : 0 ≤ off → word_at (zeros n) off = 0.
Proof.
  intros Ho. unfold word_at.
  destruct (bytes_at_zeros n off 4) as [m ->]; [lia..|]. apply le_word_zeros.
Qed.

(** The word that a 4-byte [memcpy] of [le_bytes 4 v] stored, and the words
    it left alone. *)
Lemma word_at_memcpy_same d off v :
  0 ≤ off → off + 4 ≤ Z.of_nat (length d) → 0 ≤ v < 2 ^ 32 →
  word_at (memcpy d off (le_bytes 4 v) 4) off = v.
Proof.
  intros Ho Hd Hv. unfold word_at. rewrite bytes_at_memcpy_same; try lia.
  - change (Z.to_nat 4) with (length (le_bytes 4 v)) at 1.
    rewrite firstn_all. by apply le_word_sector.
  - rewrite le_bytes_length. lia.
Qed.

Lemma word_at_memcpy_other d off buf off' :
  0 ≤ off → off + 4 ≤ Z.of_nat (length d) → 0 ≤ off' →
  off' + 4 ≤ off ∨ off + 4 ≤ off' →
  word_at (memcpy d off buf 4) off' = word_at d off'.
Proof.
  intros. unfold word_at. f_equal. apply bytes_at_memcpy_other; lia.
Qed.

(** ** What [cache_read] returns, with no assumption on the state *)

Lemma last_snoc_inv {A} (l : list A) t : last l = Some t → ∃ l', l = l' ++ [t].
Proof.
  intros H. induction l as [|x l _] using rev_ind; [done|].
  rewrite last_snoc in H. injection H as ->. eauto.
Qed.

Lemma cache_lookup_data sector st i st1 :
  cache_lookup sector true st = Ok (Some i, st1) →
  ∃ c, caches st1 !! i = Some c ∧ cache_data c = view st sector.
Proof.
  destruct (list_find (λ c, cache_sector c = sector) (caches st))
    as [[j c]|] eqn:Hf.
  - rewrite (cache_lookup_hit _ _ _ _ _ Hf). intros [= <- <-].
    exists c. split; [by apply list_find_Some in Hf as (? & _)|].
    unfold view. by rewrite (list_find_slot_of _ _ _ _ Hf).
  - rewrite (cache_lookup_miss _ _ Hf).
    assert (Hv : view st sector = disk_read (disk st) sector).
    { unfold view. by rewrite (list_find_slot_of_None _ _ Hf). }
    destruct (decide (cache_count st = CACHE_MAX)) as [Hm|Hm].
    + destruct (last (caches st)) as [t|] eqn:Hl.
      * apply last_snoc_inv in Hl as [l Hl].
        rewrite (cache_make_full _ _ _ _ _ Hm Hl). intros [= <- <-].
        eexists. split; [done|]. cbn. rewrite Hv. unfold save_to.
        destruct (cache_dirty t); [|done].
        rewrite disk_read_insert, decide_False; [done|].
        apply list_find_None in Hf. rewrite Hl in Hf.
        rewrite Forall_app, Forall_singleton in Hf. by destruct Hf.
      * unfold cache_make, cache_evict. mrun. rewrite decide_True by done.
        mrun. by rewrite Hl.
    + rewrite (cache_make_room _ _ _ Hm). intros [= <- <-].
      eexists. split; [done|]. cbn. by rewrite Hv.
Qed.

Lemma cache_read_returns_view sector off size st buf st' :
  cache_read sector off size st = Ok (buf, st') →
  buf = bytes_at (view st sector) off size ∧
  outside_cache st' = outside_cache st.
Proof.
  intros H. split; [|by eapply cache_read_frame].
  revert H. unfold cache_read. mrun.
  destruct (in_sector off size); [|done]. mrun.
  destruct (decide (size = 0)) as [->|Hsz].
  { intros [= <- <-]. done. }
  destruct (cache_lookup sector true st) as [[[i|] st1]|] eqn:Hl; [|done..].
  destruct (cache_lookup_data _ _ _ _ Hl) as (c & Hi & Hd).
  cbn. rewrite Hi. cbn. destruct (in_bounds off size); [|done].
  unfold touch. mrun. intros [= <- <-]. by rewrite Hd.
Qed.

(** ** Example: a removed file with second-level blocks *)

(** A file at inode sector 2 with one byte written at the first and one at
    the second block of the double-indirect range (byte offsets
    [(12 + 128) * 512] and [(12 + 128 + 1) * 512]), then marked removed. *)
Definition two_level_file : M nat :=
  free_map_allocate ;;
  inode_create 2 0 ;;
  inode ← inode_open 2;
  let inode := default 0%nat inode in
  inode_write_at inode [1] 1 71680 ;;
  inode_write_at inode [2] 1 72192 ;;
  inode_remove inode ;;
  mret inode.

(** C1 (evaluated on the code).  In the state built by [two_level_file] the
    double-indirect sector is 3, its first first-level block is 4, and that
    block's slots 0 and 1 hold the data sectors 5 and 6, all marked in the
    free-map.  The last [inode_close] returns and frees the handle, but
    sector 6 -- second-level slot [j = 1] -- is still marked in use: the
    inner loop released [double_indirect[i]] (slot 0, sector 5) for it. *)
Theorem inode_close_keeps_second_level_sector :
  ∃ st inode st',
    two_level_file st_boot = Ok (inode, st) ∧
    word_at (view st 2) OFS_DOUBLE_INDIRECT = 3 ∧
    word_at (view st 3) 0 = 4 ∧
    word_at (view st 4) 0 = 5 ∧
    word_at (view st 4) 4 = 6 ∧
    Forall (λ s, free_map st !! s = Some true) [2; 3; 4; 5; 6]%nat ∧
    inode_close (Some inode) st = Ok (tt, st') ∧
    inodes st' !! inode = None ∧
    Forall (λ s, free_map st' !! s = Some false) [2; 3; 4; 5]%nat ∧
    free_map st' !! 6%nat = Some true.
Proof.
  eexists _, _, _.
  split; [vm_compute; reflexivity|].
  do 4 (split; [vm_compute; reflexivity|]).
  split; [repeat constructor|].
  split; [vm_compute; reflexivity|].
  split; [vm_compute; reflexivity|].
  split; [repeat constructor|]. vm_compute. reflexivity.
Qed.

(** ** [inode_create] *)

(** The sector image that [inode_create] writes for a file of [length]
    bytes: length, magic, everything else zero. *)
Definition fresh_inode_disk (length : Z) : list Z :=
  memcpy (memcpy (zeros SIZEOF_INODE_DISK) OFS_LENGTH (le_bytes 4 length) 4)
    OFS_MAGIC (le_bytes 4 INODE_MAGIC) 4.

(** What C6 says of a call [inode_create (sector, length)] in state [st]:
    it returns true, the inode sector is in the cache (dirty, at the
    front) with the length and the magic set and every pointer slot zero,
    and the free-map is what it was. *)
Definition creates_without_allocating (st : state) (sector length : Z) : Prop :=
  ∃ st', inode_create sector length st = Ok (true, st') ∧
    free_map st' = free_map st ∧
    (∃ c rest, caches st' = c :: rest ∧ cache_sector c = sector ∧
       cache_dirty c = true) ∧
    to_signed (word_at (view st' sector) OFS_LENGTH) = length ∧
    word_at (view st' sector) OFS_MAGIC = INODE_MAGIC ∧
    (∀ k, 0 ≤ k < DIRECT_BLOCK →
       word_at (view st' sector) (OFS_DIRECT + 4 * k) = 0) ∧
    word_at (view st' sector) OFS_INDIRECT = 0 ∧
    word_at (view st' sector) OFS_DOUBLE_INDIRECT = 0.

Lemma cache_create_push sector st :
  count_ok st →
  ∃ st1, room st st1 ∧
    cache_create sector st = Ok (tt, push_slot (fresh_slot sector false st1) st1).
Proof.
  intros Hok. destruct (cache_make_spec sector false st Hok) as (st1 & Hr & Hm).
  exists st1. split; [done|]. unfold cache_create. by rewrite bind_unfold, Hm.
Qed.

Lemma room_outside st st1 : room st st1 → outside_cache st1 = outside_cache st.
Proof. intros [[_ ->]|(_ & l & t & _ & ->)]; [done|by destruct st]. Qed.

(** Writing a whole [struct inode_disk] into the slot just created. *)
Lemma cache_write_front sector data st c :
  cache_sector c = sector →
  cache_write sector data 0 SIZEOF_INODE_DISK (push_slot c st) =
    Ok (tt, set_caches
              (mk_cache sector true
                 (memcpy (cache_data c) 0 data SIZEOF_INODE_DISK) :: caches st)
              (push_slot c st)).
Proof.
  intros Hs. unfold cache_write. mrun.
  rewrite in_sector_true by (unfold SIZEOF_INODE_DISK, DISK_SECTOR_SIZE; lia).
  mrun. rewrite decide_False by done. cbn beta iota.
  erewrite cache_lookup_hit; last first.
  { cbn [caches push_slot set_caches set_cache_count list_find].
    by rewrite decide_True. }
  cbn. rewrite in_bounds_true by (unfold SIZEOF_INODE_DISK, DISK_SECTOR_SIZE; lia).
  unfold touch. mrun. by rewrite Hs.
Qed.

Lemma fresh_inode_words length :
  let img := memcpy (zeros DISK_SECTOR_SIZE) 0 (fresh_inode_disk length)
               SIZEOF_INODE_DISK in
  word_at img OFS_LENGTH = length `mod` 2 ^ 32 ∧
  word_at img OFS_MAGIC = INODE_MAGIC ∧
  (∀ k, 0 ≤ k < DIRECT_BLOCK → word_at img (OFS_DIRECT + 4 * k) = 0) ∧
  word_at img OFS_INDIRECT = 0 ∧
  word_at img OFS_DOUBLE_INDIRECT = 0.
Proof.
  intros img. split; [|split; [|split; [|split]]].
  - change (word_at img OFS_LENGTH) with (le_word (le_bytes 4 length)).
    by rewrite le_word_bytes.
  - vm_compute. reflexivity.
  - intros k Hk. unfold DIRECT_BLOCK in Hk.
    assert (k = 0 ∨ k = 1 ∨ k = 2 ∨ k = 3 ∨ k = 4 ∨ k = 5 ∨ k = 6 ∨ k = 7 ∨
            k = 8 ∨ k = 9 ∨ k = 10 ∨ k = 11) as Hc by lia.
    repeat destruct Hc as [->|Hc]; try subst k; vm_compute; reflexivity.
  - vm_compute. reflexivity.
  - vm_compute. reflexivity.
Qed.

(** C6 fails as stated: creating the inode of sector 0 (the free-map's own
    inode) takes a sector from the free-map. *)
Lemma inode_create_sector_0_allocates :
  ¬ creates_without_allocating st_boot 0 0.
Proof.
  intros (st' & Hc & Hfm & _). vm_compute in Hc. injection Hc as <-.
  vm_compute in Hfm. discriminate.
Qed.

(** C6, amended.  For every sector other than 0 and every length
    [0 <= length < 2^31], [inode_create] returns true, leaves the free-map
    alone and puts the initialised inode sector into the cache; for sector 0
    it first takes the first free sector from the free-map for [direct[0]]
    and aborts when there is none. *)
Theorem inode_create_spec st sector length :
  count_ok st → 0 ≤ length < 2 ^ 31 →
  (sector ≠ 0 → creates_without_allocating st sector length) ∧
  (sector = 0 →
     match first_fit (free_map st) with
     | None => inode_create sector length st = Abort
     | Some i =>
         ∃ st', inode_create sector length st = Ok (true, st') ∧
           free_map st' = <[i := true]> (free_map st) ∧
           word_at (view st' sector) OFS_DIRECT = Z.of_nat i `mod` 2 ^ 32
     end).
Proof.
  intros Hok Hlen. split.
  - intros Hne. unfold creates_without_allocating, inode_create.
    rewrite bind_unfold. unfold ASSERT. rewrite bool_decide_eq_true_2 by lia.
    mrun. rewrite decide_False by done. mrun.
    destruct (cache_create_push sector st Hok) as (st1 & Hroom & ->).
    fold (fresh_inode_disk length).
    rewrite cache_write_front by done.
    eexists. split; [done|]. cbn [free_map set_caches push_slot set_cache_count].
    split.
    { apply room_outside in Hroom. unfold outside_cache in Hroom. congruence. }
    split; [eauto|].
    assert (Hv : ∀ st2 d rest, view (set_caches (mk_cache sector true d :: rest) st2)
              sector = d).
    { intros. unfold view. cbn [caches set_caches]. rewrite slot_of_cons.
      cbn. by rewrite decide_True. }
    rewrite Hv. cbn [cache_data fresh_slot].
    destruct (fresh_inode_words length) as (H1 & H2 & H3 & H4 & H5).
    split; [|done]. rewrite H1. unfold to_signed.
    rewrite Zplus_mod_idemp_l. rewrite Z.mod_small by lia. lia.
  - intros ->. unfold inode_create.
    rewrite bind_unfold. unfold ASSERT. rewrite bool_decide_eq_true_2 by lia.
    mrun. rewrite decide_True by done. unfold free_map_allocate. mrun.
    destruct (first_fit (free_map st)) as [i|] eqn:Hff; mrun; [|done].
    set (st0 := set_free_map (<[i:=true]> (free_map st)) st).
    assert (Hok0 : count_ok st0) by done.
    destruct (cache_create_push 0 st0 Hok0) as (st1 & Hroom & ->).
    rewrite cache_write_front by done.
    eexists. split; [done|]. cbn [free_map set_caches push_slot set_cache_count].
    split.
    { apply room_outside in Hroom. unfold outside_cache in Hroom.
      injection Hroom as -> _ _. done. }
    unfold view. cbn [caches set_caches]. rewrite slot_of_cons. cbn.
    change (le_word (le_bytes 4 (Z.of_nat i)) = Z.of_nat i `mod` 2 ^ 32).
    by rewrite le_word_bytes.
Qed.

Lemma st_boot_count_ok : count_ok st_boot.
Proof. split; [done|]. vm_compute. discriminate. Qed.

Lemma inode_create_spec_witness : creates_without_allocating st_boot 2 5.
Proof.
  apply (inode_create_spec st_boot 2 5 st_boot_count_ok); lia.
Defined.

(** ** part_000: the facade (filesys.c) *)

(** [strtok_r (path, "/", &save_ptr)] called until it returns null: the
    maximal runs of characters other than ['/'], in order.  [cur] is the
    token being read, reversed. *)
Fixpoint strtok_all (path : string) (cur : list ascii) : list string :=
  match path with
  | EmptyString =>
      match cur with
      | [] => []
      | _ => [string_of_list_ascii (reverse cur)]
      end
  | String c path' =>
      if decide (c = "/"%char) then
        match cur with
        | [] => strtok_all path' []
        | _ => string_of_list_ascii (reverse cur) :: strtok_all path' []
        end
      else strtok_all path' (c :: cur)
  end.

(** [token_num]: the number of tokens of [path]. *)
Definition token_num (path : string) : Z :=
  Z.of_nat (length (strtok_all path [])).

(** [tokenize_path]: the array of the tokens; it has room for [num]. *)
Definition tokenize_path (path : string) (num : Z) : list string :=
  take (Z.to_nat num) (strtok_all path []).

(** [filesys_absolute]: [None] is the null pointer; [cwd] is
    [thread_current ()->dir]. *)
Definition filesys_absolute (cwd : string) (name : option string) : option string :=
  match name with
  | None => None
  | Some name =>
      match name with
      | EmptyString => None
      | String c _ =>
          if decide (c = "/"%char) then Some (name +:+ "/")
          else Some (cwd +:+ name +:+ "/")
      end
  end.

Section Filesys.
(** directory.c and the accessor [inode_dir] are not part of the sources:
    the directory layer is a parameter of the facade.  [dir] is
    [struct dir *]. *)
Context {dir : Type}.
Variable dir_open_root : M dir.
Variable dir_open : nat → M dir.
Variable dir_close : dir → M unit.
Variable dir_lookup : dir → string → M (option nat).
Variable dir_add : dir → string → Z → M bool.
Variable dir_create : Z → Z → M bool.
Variable inode_dir : nat → M bool.
Variable cwd : string.

(** [filesys_open_from_dir]: the recursion goes from [idx] up to
    [length - 1]; [fuel] bounds its depth by the number of components. *)
Fixpoint filesys_open_from_dir (fuel : nat) (path_name : list string)
    (d : dir) (idx length : Z) : M (option nat) :=
  match fuel with
  | O => abort
  | S fuel =>
      inode ← dir_lookup d (default "" (path_name !! Z.to_nat idx));
      match inode with
      | None => mret None
      | Some i =>
          if decide (idx = length - 1) then mret (Some i)
          else
            is_dir ← inode_dir i;
            if (is_dir : bool) then
              dir_new ← dir_open i;
              result ← filesys_open_from_dir fuel path_name dir_new (idx + 1) length;
              dir_close dir_new ;;
              mret result
            else inode_close (Some i) ;; mret None
      end
  end.

(** The rest of [filesys_make] once [parent] is open: from
    [ASSERT (free_map_allocate (1, &sector))] to the end. *)
Definition filesys_make_at (parent : dir) (name : string) (is_dir : bool)
    (initial_size : Z) : M bool :=
  success ← free_map_allocate;
  match success with
  | None => abort
  | Some sector =>
      (if is_dir then dir_create sector 16 ;; mret tt
       else inode_create sector initial_size ;; mret tt) ;;
      success ← dir_add parent name sector;
      (if (success : bool) then mret tt else free_map_release sector) ;;
      dir_close parent ;;
      mret success
  end.

Definition filesys_make (name : option string) (is_dir : bool)
    (initial_size : Z) : M bool :=
  match filesys_absolute cwd name with
  | None => mret false
  | Some path =>
      let count := token_num path in
      if decide (count = 0) then mret false
      else
        let path_name := tokenize_path path count in
        parent ← dir_open_root;
        parent ←
          (if decide (count ≠ 1) then
             inode ← filesys_open_from_dir (Z.to_nat count) path_name parent
                       0 (count - 1);
             dir_close parent ;;
             match inode with
             | None => mret (@None dir)
             | Some i =>
                 is_dir ← inode_dir i;
                 if (is_dir : bool) then p ← dir_open i; mret (Some p)
                 else mret None
             end
           else mret (Some parent));
        match parent with
        | None => mret false
        | Some parent =>
            filesys_make_at parent
              (default "" (path_name !! Z.to_nat (count - 1)))
              is_dir initial_size
        end
  end.

Definition filesys_create (name : option string) (initial_size : Z) : M bool :=
  filesys_make name false initial_size.

Definition filesys_create_dir (name : option string) : M bool :=
  filesys_make name true 0.
End Filesys.

(** ** Allocation failure *)

(** A disk of three sectors, all in use: the free-map inode, the root
    directory inode and the inode of an empty file, which is open. *)
Definition full_disk : M nat :=
  modify (set_free_map [true; true; true]) ;;
  inode_create 2 0 ;;
  inode ← inode_open 2;
  mret (default 0%nat inode).

(** C4 (evaluated on the code).  On a disk without a free sector, a
    one-byte write into an empty file needs a sector for [direct[0]].
    [inode_write_at] does not return a short count to its caller, as its
    comment says it does when an error occurs: it stops at
    [ASSERT (success)] in [MODIFY_CACHE].  In the same state the creating
    half of [filesys_make] stops at
    [ASSERT (free_map_allocate (1, &sector))], whatever the directory layer
    does, although the lines that follow release the sector and return
    false when [dir_add] fails. *)
Theorem write_on_full_disk_aborts :
  ∃ inode st, full_disk st_boot = Ok (inode, st) ∧
    first_fit (free_map st) = None ∧
    inode_write_at inode [1] 1 0 st = Abort ∧
    ∀ (dir : Type) (dir_close : dir → M unit) (dir_add : dir → string → Z → M bool)
      (dir_create : Z → Z → M bool) parent name is_dir initial_size,
      filesys_make_at dir_close dir_add dir_create parent name is_dir
        initial_size st = Abort.
Proof.
  eexists _, _. split; [vm_compute; reflexivity|].
  split; [vm_compute; reflexivity|]. split; [vm_compute; reflexivity|].
  intros. reflexivity.
Qed.

Lemma MODIFY_CACHE_full sector off st :
  first_fit (free_map st) = None →
  word_at (view st sector) off = 0 →
  MODIFY_CACHE sector off st = Abort.
Proof.
  intros Hfull Hzero. unfold MODIFY_CACHE. rewrite bind_unfold.
  destruct (cache_read sector off 4 st) as [[w st1]|] eqn:Hr; [|done].
  apply cache_read_returns_view in Hr as [-> Hout].
  fold (word_at (view st sector) off). rewrite decide_True by done.
  unfold free_map_allocate. mrun.
  unfold outside_cache in Hout. injection Hout as -> _ _.
  by rewrite Hfull.
Qed.

(** X22.  The assertions on [free_map_allocate], in any state.  When the
    free-map has no free sector, [MODIFY_CACHE] stops at a slot that holds
    0, and so do the part of [filesys_make] that follows the path resolution
    and [filesys_make] itself for a name of one component. *)
Theorem allocation_failure_aborts st :
  first_fit (free_map st) = None →
  (∀ sector off, 0 ≤ off → off + 4 ≤ DISK_SECTOR_SIZE →
     word_at (view st sector) off = 0 →
     MODIFY_CACHE sector off st = Abort) ∧
  (∀ (dir : Type) (dir_close : dir → M unit) (dir_add : dir → string → Z → M bool)
     (dir_create : Z → Z → M bool) parent name is_dir initial_size,
     filesys_make_at dir_close dir_add dir_create parent name is_dir initial_size st
       = Abort) ∧
  (∀ (dir : Type) (dir_open_root : M dir) dir_open dir_close dir_lookup dir_add
     dir_create inode_dir cwd name path is_dir initial_size st0 parent,
     filesys_absolute cwd name = Some path → token_num path = 1 →
     dir_open_root st0 = Ok (parent, st) →
     filesys_make dir_open_root dir_open dir_close dir_lookup dir_add dir_create
       inode_dir cwd name is_dir initial_size st0 = Abort).
Proof.
  intros Hfull.
  assert (Hat : ∀ (dir : Type) (dir_close : dir → M unit) dir_add dir_create
            parent name is_dir initial_size,
            filesys_make_at dir_close dir_add dir_create parent name is_dir
              initial_size st = Abort).
  { intros. unfold filesys_make_at, free_map_allocate. mrun. by rewrite Hfull. }
  split; [intros; by apply MODIFY_CACHE_full|]. split; [done|].
  intros dir dir_open_root dir_open dir_close dir_lookup dir_add dir_create
    inode_dir cwd name path is_dir initial_size st0 parent Hpath Hcount Hroot.
  unfold filesys_make. rewrite Hpath. cbv zeta. rewrite Hcount.
  rewrite decide_False by done. rewrite bind_unfold, Hroot.
  rewrite decide_False by (intros H; by apply H). mrun. apply Hat.
Qed.

Lemma allocation_failure_aborts_witness :
  MODIFY_CACHE 2 OFS_DIRECT (state_of (full_disk st_boot)) = Abort.
Proof.
  apply (allocation_failure_aborts (state_of (full_disk st_boot))).
  - vm_compute. reflexivity.
  - vm_compute. discriminate.
  - vm_compute. discriminate.
  - vm_compute. reflexivity.
Defined.

(** ** Witnesses for the cache and the handle claims *)

(** A full cache: [cache_init], then [cache_create] for sectors 0 to 63. *)
Definition full_cache : state :=
  state_of ((cache_init ;; run_calls (CallCreate <$> upto 64)) st_boot).

Lemma full_cache_reachable : reachable full_cache.
Proof.
  eapply (run_calls_reachable (CallCreate <$> upto 64)
            (state_of (cache_init st_boot))).
  - by eapply reachable_init.
  - vm_compute. reflexivity.
Qed.

(** A full cache whose oldest slot was used again: [cache_create] for the
    sectors 0 to 63, then a read of sector 0. *)
Definition used_cache : list cache_call :=
  (CallCreate <$> upto 64) ++ [CallRead 0 0 1].

(** The state after these calls: sector 0 is at the front and the slot of
    sector 1, made by call number 1, is at the tail. *)
Definition used_state : state :=
  state_of ((cache_init ;; run_calls used_cache) st_boot).

Lemma cache_bounded_and_evicts_tail_witness :
  (length (caches used_state) ≤ Z.to_nat CACHE_MAX)%nat ∧
  cache_sector <$> caches used_state = (lru_history used_cache).*2 ∧
  recent_first (lru_history used_cache) ∧
  ∃ l t st' h e, caches used_state = l ++ [t] ∧
    lru_history used_cache = h ++ [e] ∧ e.2 = cache_sector t ∧
    least_recent (lru_history used_cache) e ∧
    cache_make 64 true used_state = Ok (0%nat, st') ∧
    (∃ c, caches st' = c :: l ∧ cache_sector c = 64) ∧
    cache_count st' = CACHE_MAX ∧
    disk st' = if cache_dirty t
               then <[cache_sector t := cache_data t]> (disk used_state)
               else disk used_state.
Proof.
  assert (Hrun : (cache_init ;; run_calls used_cache) st_boot
                 = Ok (tt, used_state)) by (vm_compute; reflexivity).
  destruct (cache_bounded_and_evicts_tail st_boot used_cache used_state Hrun)
    as (Hlen & Hs & _ & Hrf & Hevict).
  split; [exact Hlen|]. split; [exact Hs|]. split; [exact Hrf|].
  apply Hevict. vm_compute. reflexivity.
Defined.

(** Two slots for sector 5, the older one dirty with [1] and the newer one
    dirty with [2]: [cache_create] makes its slot without looking the
    sector up. *)
Definition two_slots : state :=
  state_of ((cache_init ;; cache_write 5 [1] 0 1 ;; cache_create 5 ;;
             cache_write 5 [2] 0 1) st_boot).

(** 63 reads of other sectors: the last of them evicts the older slot. *)
Definition other_reads : list cache_call :=
  (λ n, CallRead (100 + n) 0 1) <$> upto 63.

(** C8 fails as stated: [two_slots] is reachable, there is no
    [cache_write] between the two backups, and the disk differs at sector 5.
    The first backup writes both slots, the older one last; the reads evict
    the older slot; the second backup writes the newer one, which
    [cache_save] left dirty. *)
Lemma backup_after_reads_differs :
  reachable two_slots ∧ Forall not_write other_reads ∧
  ∃ st1 st2 st3,
    cache_backup two_slots = Ok (tt, st1) ∧
    run_calls other_reads st1 = Ok (tt, st2) ∧
    cache_backup st2 = Ok (tt, st3) ∧
    bytes_at (disk_read (disk st1) 5) 0 1 = [1] ∧
    bytes_at (disk_read (disk st3) 5) 0 1 = [2].
Proof.
  split.
  - eapply (run_calls_reachable
              [CallWrite 5 [1] 0 1; CallCreate 5; CallWrite 5 [2] 0 1]
              (state_of (cache_init st_boot))).
    + by eapply reachable_init.
    + vm_compute. reflexivity.
  - split; [vm_compute; repeat constructor|].
    eexists _, _, _. split; [vm_compute; reflexivity|].
    split; [vm_compute; reflexivity|].
    split; [vm_compute; reflexivity|].
    split; vm_compute; reflexivity.
Qed.

(** One dirty slot for sector 5 and one for sector 6. *)
Definition one_slot_each : state :=
  state_of ((cache_init ;; cache_write 5 [1] 0 1 ;; cache_write 6 [2] 0 1)
              st_boot).

Lemma cache_backup_again_witness :
  disk (state_of (run_calls other_reads (state_of (cache_backup one_slot_each))))
    = disk (state_of (cache_backup one_slot_each)) ∧
  ∃ st3,
    cache_backup
      (state_of (run_calls other_reads (state_of (cache_backup one_slot_each))))
      = Ok (tt, st3) ∧
    disk st3 = disk (state_of (cache_backup one_slot_each)).
Proof.
  apply (cache_backup_again one_slot_each other_reads).
  - right. vm_compute. apply NoDup_cons. split; [|apply NoDup_singleton].
    intros H%list_elem_of_singleton. discriminate.
  - vm_compute. repeat constructor.
  - vm_compute. reflexivity.
  - vm_compute. reflexivity.
Defined.

(** One opener of sector 2 that has denied writes. *)
Definition denied_once : state :=
  state_of (inode_deny_write 0 (state_of (inode_open 2 st_boot))).

Lemma denied_once_disciplined : disciplined denied_once [(0%nat, true)].
Proof.
  eapply disciplined_step.
  - eapply disciplined_step; [by apply (disciplined_init st_boot)|].
    apply (step_open 2 st_boot [] 0%nat); [simpl; lia|].
    vm_compute. reflexivity.
  - apply (step_deny 0 0 _ [(0%nat, false)]); [done|].
    vm_compute. reflexivity.
Qed.

Lemma deny_write_cnt_bounded_witness :
  0 ≤ deny_write_cnt (mk_inode 2 1 false 1) ≤ open_cnt (mk_inode 2 1 false 1).
Proof.
  apply (deny_write_cnt_bounded denied_once [(0%nat, true)] 0%nat).
  - exact denied_once_disciplined.
  - vm_compute. reflexivity.
Defined.

(** ** The free-map: first fit *)

Definition free_count (bm : list bool) : Z :=
  Z.of_nat (length (filter (λ b, b = false) bm)).

Lemma first_fit_Some bm n :
  first_fit bm = Some n → bm !! n = Some false.
Proof.
  revert n. induction bm as [|b bm IH]; intros n; [done|]. cbn [first_fit].
  destruct b.
  - destruct (first_fit bm) as [m|]; [|done]. intros [= <-]. by apply IH.
  - by intros [= <-].
Qed.

Lemma first_fit_None bm : first_fit bm = None → free_count bm = 0.
Proof.
  induction bm as [|b bm IH]; [done|]. cbn [first_fit].
  destruct b; [|done]. destruct (first_fit bm); [done|]. intros _.
  unfold free_count in *. rewrite filter_cons, decide_False by done. by apply IH.
Qed.

Lemma free_count_nonneg bm : 0 ≤ free_count bm.
Proof. unfold free_count. lia. Qed.

Lemma free_count_cons b bm :
  free_count (b :: bm) = (if b then 0 else 1) + free_count bm.
Proof.
  unfold free_count. rewrite filter_cons.
  destruct b; [by rewrite decide_False|rewrite decide_True by done].
  cbn [length]. lia.
Qed.

Lemma free_count_take bm n :
  bm !! n = Some false → free_count (<[n := true]> bm) = free_count bm - 1.
Proof.
  revert n. induction bm as [|b bm IH]; intros n; [done|].
  destruct n as [|n].
  - intros [= ->]. change (<[0%nat:=true]> (false :: bm)) with (true :: bm).
    rewrite !free_count_cons. lia.
  - intros H. change (<[S n:=true]> (b :: bm)) with (b :: <[n:=true]> bm).
    rewrite !free_count_cons, (IH n) by done. lia.
Qed.

Lemma allocated_insert bm n s :
  allocated bm s → allocated (<[n := true]> bm) s.
Proof.
  intros [H0 H]. split; [done|].
  destruct (decide (n = Z.to_nat s)) as [->|Hne].
  - rewrite list_lookup_insert_eq; [done|]. by eapply lookup_lt_Some.
  - by rewrite list_lookup_insert_ne.
Qed.

Lemma allocated_insert_inv bm n s :
  allocated (<[n := true]> bm) s → allocated bm s ∨ s = Z.of_nat n.
Proof.
  intros [H0 H]. destruct (decide (n = Z.to_nat s)) as [->|Hne].
  - right. lia.
  - left. split; [done|]. by rewrite list_lookup_insert_ne in H.
Qed.

Lemma allocated_fresh bm n :
  bm !! n = Some false → allocated (<[n := true]> bm) (Z.of_nat n) ∧
                         ¬ allocated bm (Z.of_nat n).
Proof.
  intros H. split.
  - split; [lia|]. rewrite Nat2Z.id. rewrite list_lookup_insert_eq; [done|].
    by eapply lookup_lt_Some.
  - intros [_ H']. rewrite Nat2Z.id in H'. congruence.
Qed.

Lemma allocated_lt bm s : allocated bm s → 0 ≤ s < Z.of_nat (length bm).
Proof. intros [H0 H]. apply lookup_lt_Some in H. lia. Qed.

Lemma free_map_allocate_spec st :
  free_map_allocate st =
    match first_fit (free_map st) with
    | Some n => Ok (Some (Z.of_nat n), set_free_map (<[n := true]> (free_map st)) st)
    | None => Ok (None, st)
    end.
Proof.
  unfold free_map_allocate. mrun. by destruct (first_fit (free_map st)).
Qed.

(** ** The index of an inode, read through the view *)

(** The pointer slots of an inode: the twelve direct slots, the indirect
    slot and the slots of the indirect sector, the double-indirect slot, the
    slots of the double-indirect sector and the slots of each first-level
    block. *)
Inductive slot :=
  | Direct (k : Z)
  | Indirect
  | IndirectAt (k : Z)
  | Double
  | DoubleAt (i : Z)
  | DoubleAtAt (i j : Z).

#[global] Instance slot_eq_dec : EqDecision slot.
Proof. solve_decision. Defined.

Definition valid (a : slot) : Prop :=
  match a with
  | Direct k => 0 ≤ k < DIRECT_BLOCK
  | Indirect | Double => True
  | IndirectAt k | DoubleAt k => 0 ≤ k < SINGLE_BLOCK
  | DoubleAtAt i j => 0 ≤ i < SINGLE_BLOCK ∧ 0 ≤ j < SINGLE_BLOCK
  end.

(** The slot whose sector holds slot [a]; [None] for the slots of the inode
    sector itself. *)
Definition parent (a : slot) : option slot :=
  match a with
  | Direct _ | Indirect | Double => None
  | IndirectAt _ => Some Indirect
  | DoubleAt _ => Some Double
  | DoubleAtAt i _ => Some (DoubleAt i)
  end.

(** The byte offset of slot [a] in its sector. *)
Definition offset_of (a : slot) : Z :=
  match a with
  | Direct k => OFS_DIRECT + 4 * k
  | Indirect => OFS_INDIRECT
  | Double => OFS_DOUBLE_INDIRECT
  | IndirectAt k | DoubleAt k => 4 * k
  | DoubleAtAt _ j => 4 * j
  end.

(** The slots that point to sectors of slots. *)
Definition is_index (a : slot) : Prop :=
  match a with
  | Indirect | Double | DoubleAt _ => True
  | _ => False
  end.

(** The word at [off] of sector [s]; 0 when [s] is the missing sector. *)
Definition entry (V : Z → list Z) (s off : Z) : Z :=
  if decide (s = 0) then 0 else word_at (V s) off.

(** The value of slot [a] of the inode at sector [isec]. *)
Definition val (V : Z → list Z) (isec : Z) (a : slot) : Z :=
  match a with
  | Direct _ | Indirect | Double => word_at (V isec) (offset_of a)
  | IndirectAt k => entry V (word_at (V isec) OFS_INDIRECT) (4 * k)
  | DoubleAt i => entry V (word_at (V isec) OFS_DOUBLE_INDIRECT) (4 * i)
  | DoubleAtAt i j =>
      entry V (entry V (word_at (V isec) OFS_DOUBLE_INDIRECT) (4 * i)) (4 * j)
  end.

(** The sector that holds slot [a]. *)
Definition home (V : Z → list Z) (isec : Z) (a : slot) : Z :=
  match parent a with
  | None => isec
  | Some p => val V isec p
  end.

(** The sectors that hold the index: the inode sector and the sectors that
    index slots point to. *)
Definition protected (V : Z → list Z) (isec : Z) (x : Z) : Prop :=
  x = isec ∨ ∃ a, valid a ∧ is_index a ∧ val V isec a = x ∧ x ≠ 0.

(** The index is well formed: sector 0 and the inode sector are in use;
    every sector the index points to is in use and is not the inode sector;
    no sector is pointed to twice; sector numbers fit in 32 bits. *)
Definition index_ok (V : Z → list Z) (bm : list bool) (isec : Z) : Prop :=
  allocated bm 0 ∧ allocated bm isec ∧
  Z.of_nat (length bm) ≤ 2 ^ 32 ∧
  (∀ a, valid a → val V isec a ≠ 0 →
     allocated bm (val V isec a) ∧ val V isec a ≠ isec) ∧
  (∀ a b, valid a → valid b → val V isec a ≠ 0 →
     val V isec a = val V isec b → a = b).

Lemma val_top V isec a :
  parent a = None → val V isec a = word_at (V isec) (offset_of a).
Proof. by destruct a. Qed.

Lemma val_sub V isec a p :
  parent a = Some p → val V isec a = entry V (val V isec p) (offset_of a).
Proof. destruct a; intros [= <-]; done. Qed.

Lemma parent_valid a p : valid a → parent a = Some p → valid p.
Proof. destruct a; intros Hv [= <-]; cbn in *; tauto. Qed.

Lemma parent_is_index a p : parent a = Some p → is_index p.
Proof. destruct a; intros [= <-]; done. Qed.

Lemma offset_of_bounds a :
  valid a → 0 ≤ offset_of a ∧ offset_of a + 4 ≤ DISK_SECTOR_SIZE.
Proof.
  destruct a; cbn; unfold DIRECT_BLOCK, SINGLE_BLOCK, OFS_DIRECT, OFS_INDIRECT,
    OFS_DOUBLE_INDIRECT, DISK_SECTOR_SIZE; change (512 `div` 4) with 128; lia.
Qed.

Lemma offsets_apart a b :
  valid a → valid b → parent a = parent b → a ≠ b →
  offset_of a + 4 ≤ offset_of b ∨ offset_of b + 4 ≤ offset_of a.
Proof.
  assert (Hz : ∀ x y : Z, x ≠ y → 4 * x + 4 ≤ 4 * y ∨ 4 * y + 4 ≤ 4 * x) by lia.
  destruct a, b; cbn; try done;
    unfold DIRECT_BLOCK, SINGLE_BLOCK, OFS_DIRECT, OFS_INDIRECT,
      OFS_DOUBLE_INDIRECT, DISK_SECTOR_SIZE; change (512 `div` 4) with 128;
    intros Ha Hb Hp Hne; simplify_eq; try lia.
  - assert (k ≠ k0) by congruence. lia.
  - apply Hz. congruence.
  - apply Hz. congruence.
  - apply Hz. congruence.
Qed.

Lemma option_cases {A} (o : option A) : o = None ∨ ∃ x, o = Some x.
Proof. destruct o; eauto. Qed.

Lemma parent_irrefl a : parent a ≠ Some a.
Proof. by destruct a. Qed.

Lemma index_parent_top p q : is_index p → parent p = Some q → parent q = None.
Proof. destruct p; try done. by intros _ [= <-]. Qed.

Lemma home_protected V isec a :
  valid a → home V isec a ≠ 0 ∨ parent a = None → protected V isec (home V isec a).
Proof.
  intros Hv Hr. unfold home in *. destruct (parent a) as [p|] eqn:Hp.
  - right. exists p. destruct Hr as [Hr|Hr]; [|done].
    split; [by eapply parent_valid|]. split; [by eapply parent_is_index|done].
  - by left.
Qed.

(** Views that agree on the sectors of the index give the same index. *)
Lemma val_stable V V' isec a :
  valid a → (∀ x, protected V isec x → V' x = V x) →
  val V' isec a = val V isec a.
Proof.
  intros Hva H.
  assert (H0 : V' isec = V isec) by (apply H; by left).
  assert (H1 : ∀ p off, valid p → is_index p →
            entry V' (val V isec p) off = entry V (val V isec p) off).
  { intros p off Hv Hi. unfold entry. case_decide; [done|].
    rewrite H; [done|]. right. eauto. }
  destruct a as [k| |k| |i|i j]; cbn [val]; rewrite ?H0; try done.
  - apply (H1 Indirect); done.
  - apply (H1 Double); done.
  - rewrite (H1 Double) by done. apply (H1 (DoubleAt i)); [|done].
    cbn. cbn in Hva. tauto.
Qed.

Lemma protected_stable V V' isec x :
  (∀ x, protected V isec x → V' x = V x) →
  protected V' isec x → protected V isec x.
Proof.
  intros H [->|(a & Hv & Hi & Ha & Hx)]; [by left|].
  right. exists a. rewrite (val_stable V V') in Ha by done. done.
Qed.

Lemma index_ok_stable V V' bm isec :
  (∀ x, protected V isec x → V' x = V x) →
  index_ok V bm isec → index_ok V' bm isec.
Proof.
  intros H (K0 & K1 & K2 & K3 & K4).
  split; [done|]. split; [done|]. split; [done|]. split.
  - intros a Hv. rewrite (val_stable V V') by done. auto.
  - intros a b Hva Hvb. rewrite !(val_stable V V') by done. auto.
Qed.

(** One allocation in the index: slot [a] held 0, the free-map granted
    sector [s'], the slot was overwritten with [s'] and [s'] was zeroed. *)
Section IndexUpdate.
Variables (V V' : Z → list Z) (bm : list bool) (isec : Z) (a : slot) (n : nat).
Let s' := Z.of_nat n.
Let X := home V isec a.
Hypothesis Hok : index_ok V bm isec.
Hypothesis Hsz : ∀ x, sector_sized (V x).
Hypothesis Ha : valid a.
Hypothesis Hreach : parent a = None ∨ home V isec a ≠ 0.
Hypothesis Hzero : val V isec a = 0.
Hypothesis Hfree : bm !! n = Some false.
Hypothesis HX : V' X = memcpy (V X) (offset_of a) (le_bytes 4 s') 4.
Hypothesis Hs' : V' s' = zeros DISK_SECTOR_SIZE.
Hypothesis Hother : ∀ x, protected V isec x → x ≠ X → V' x = V x.

Local Lemma fresh_unalloc : ¬ allocated bm s'.
Proof. by apply allocated_fresh. Qed.

Local Lemma fresh_range : 0 ≤ s' < 2 ^ 32.
Proof.
  pose proof Hok as (_ & _ & K2 & _). apply lookup_lt_Some in Hfree.
  unfold s'. lia.
Qed.

Local Lemma fresh_nonzero : s' ≠ 0.
Proof. intros H. apply fresh_unalloc. rewrite H. by destruct Hok. Qed.

Local Lemma fresh_not_isec : s' ≠ isec.
Proof. intros H. apply fresh_unalloc. rewrite H. by pose proof Hok as (_ & ? & _). Qed.

Local Lemma fresh_not_val b : valid b → val V isec b ≠ 0 → val V isec b ≠ s'.
Proof.
  intros Hb Hnz H. apply fresh_unalloc. rewrite <- H.
  pose proof Hok as (_ & _ & _ & K3 & _). by apply K3.
Qed.

Local Lemma X_protected : protected V isec X.
Proof. apply home_protected; [done|]. tauto. Qed.

Local Lemma fresh_not_protected : ¬ protected V isec s'.
Proof.
  intros [H|(b & Hb & _ & Hv & Hnz)]; [by apply fresh_not_isec|].
  apply (fresh_not_val b); congruence.
Qed.

Local Lemma X_not_fresh : X ≠ s'.
Proof. intros H. apply fresh_not_protected. rewrite <- H. apply X_protected. Qed.

(** The words of a protected sector after the update. *)
Local Lemma word_updated x off :
  protected V isec x → 0 ≤ off →
  (x = X → off + 4 ≤ offset_of a ∨ offset_of a + 4 ≤ off) →
  word_at (V' x) off = word_at (V x) off.
Proof.
  intros Hp Hoff Hapart. destruct (decide (x = X)) as [->|Hne].
  - rewrite HX. pose proof (offset_of_bounds a Ha) as [? ?].
    pose proof (Hsz X) as Hl. unfold sector_sized in Hl.
    apply word_at_memcpy_other; lia.
  - by rewrite Hother.
Qed.

Local Lemma word_stored : word_at (V' X) (offset_of a) = s'.
Proof.
  rewrite HX. pose proof (offset_of_bounds a Ha) as [? ?].
  pose proof (Hsz X) as Hl. unfold sector_sized in Hl.
  apply word_at_memcpy_same; [lia|lia|apply fresh_range].
Qed.

(** A top-level slot other than [a] keeps its value. *)
Local Lemma val_updated_top b :
  valid b → parent b = None → b ≠ a → val V' isec b = val V isec b.
Proof.
  intros Hb Hp Hne. rewrite !val_top by done.
  apply word_updated; [by left|by apply offset_of_bounds|].
  intros HisX. apply offsets_apart; try done.
  destruct (option_cases (parent a)) as [Hpa|[p Hpa]]; [congruence|].
  exfalso. unfold X, home in HisX. rewrite Hpa in HisX.
  pose proof Hok as (_ & _ & _ & K3 & _).
  pose proof Hreach as [|Hr]; [congruence|]. unfold home in Hr. rewrite Hpa in Hr.
  destruct (K3 p); [exact (parent_valid _ _ Ha Hpa)|done|]. congruence.
Qed.

(** The value of [a] itself, given that its parent kept its value. *)
Local Lemma val_filled_from :
  (∀ p, parent a = Some p → val V' isec p = val V isec p) →
  val V' isec a = s'.
Proof.
  intros Hpar. pose proof word_stored as Hw. unfold X, home in Hw.
  destruct (option_cases (parent a)) as [Hq|[q Hq]]; rewrite Hq in Hw.
  - by rewrite val_top.
  - rewrite (val_sub _ _ a q), (Hpar q) by done. unfold entry.
    pose proof Hreach as [Hr|Hr]; [congruence|].
    unfold home in Hr. rewrite Hq in Hr. by rewrite decide_False.
Qed.

(** A slot other than [a] keeps its value if its parent did, or if its
    parent is [a]. *)
Local Lemma val_updated_sub b p :
  valid b → parent b = Some p → b ≠ a →
  (p ≠ a → val V' isec p = val V isec p) →
  val V' isec b = val V isec b.
Proof.
  intros Hb Hp Hne Hpar. rewrite !(val_sub _ _ b p) by done.
  pose proof (parent_valid _ _ Hb Hp) as Hvp.
  pose proof (parent_is_index _ _ Hp) as Hip.
  destruct (decide (p = a)) as [Heq|Hpa]; [subst p|].
  - (* the parent is the slot that was filled: its new sector is zeroed *)
    rewrite val_filled_from.
    + rewrite Hzero. unfold entry.
      rewrite decide_False by apply fresh_nonzero. rewrite decide_True by done.
      rewrite Hs'. apply word_at_zeros. by apply offset_of_bounds.
    + intros q Hq. apply val_updated_top.
      * exact (parent_valid _ _ Ha Hq).
      * by eapply index_parent_top.
      * intros Heq. subst q. by apply parent_irrefl in Hq.
  - rewrite Hpar by done. unfold entry. case_decide as Hnz; [done|].
    apply word_updated.
    + right. eauto.
    + by apply offset_of_bounds.
    + intros HisX. apply offsets_apart; try done. rewrite Hp.
      unfold X, home in HisX.
      destruct (option_cases (parent a)) as [Hq|[q Hq]]; rewrite Hq in HisX.
      * exfalso. pose proof Hok as (_ & _ & _ & K3 & _).
        destruct (K3 p); [done|done|]. congruence.
      * rewrite Hq. f_equal. pose proof Hok as (_ & _ & _ & _ & K4).
        apply K4; try done. exact (parent_valid _ _ Ha Hq).
Qed.

Lemma val_updated b : valid b → b ≠ a → val V' isec b = val V isec b.
Proof.
  intros Hb Hne.
  destruct (option_cases (parent b)) as [Hp|[p Hp]];
    [by apply val_updated_top|].
  apply (val_updated_sub b p); try done. intros Hpa.
  pose proof (parent_valid _ _ Hb Hp) as Hvp.
  destruct (option_cases (parent p)) as [Hq|[q Hq]];
    [by apply val_updated_top|].
  apply (val_updated_sub p q); try done. intros Hqa.
  apply val_updated_top; [exact (parent_valid _ _ Hvp Hq)| |done].
  eapply index_parent_top; [|done]. by eapply parent_is_index.
Qed.

Lemma val_filled : val V' isec a = s'.
Proof.
  apply val_filled_from. intros p Hp. apply val_updated.
  - exact (parent_valid _ _ Ha Hp).
  - intros Heq. subst p. by apply parent_irrefl in Hp.
Qed.

Lemma index_ok_updated : index_ok V' (<[n := true]> bm) isec.
Proof.
  pose proof Hok as (K0 & K1 & K2 & K3 & K4).
  assert (Hval : ∀ b, valid b → val V' isec b ≠ 0 →
            (b = a ∧ val V' isec b = s') ∨
            (b ≠ a ∧ val V' isec b = val V isec b)).
  { intros b Hb Hnz. destruct (decide (b = a)) as [Heq|Hne].
    - left. split; [done|]. subst b. apply val_filled.
    - right. split; [done|]. by apply val_updated. }
  split; [by apply allocated_insert|]. split; [by apply allocated_insert|].
  split; [by rewrite length_insert|]. split.
  - intros b Hb Hnz. destruct (Hval b Hb Hnz) as [[_ Heq]|[Hne Heq]].
    + rewrite Heq. split; [by apply allocated_fresh|apply fresh_not_isec].
    + rewrite Heq in *. destruct (K3 b Hb Hnz). split; [|done].
      by apply allocated_insert.
  - intros b c Hb Hc Hnz Heq.
    assert (Hnz' : val V' isec c ≠ 0) by congruence.
    destruct (Hval b Hb Hnz) as [[Hba Hvb]|[Hne Hvb]];
      destruct (Hval c Hc Hnz') as [[Hca Hvc]|[Hne' Hvc]]; try congruence.
    + exfalso. apply (fresh_not_val c); [done| |]; congruence.
    + exfalso. apply (fresh_not_val b); [done| |]; congruence.
    + apply K4; try done; congruence.
Qed.

Lemma protected_updated x :
  protected V' isec x → protected V isec x ∨ (x = s' ∧ is_index a).
Proof.
  intros [->|(b & Hb & Hi & Hv & Hnz)]; [left; by left|].
  destruct (decide (b = a)) as [Heq|Hne].
  - subst b. right. rewrite val_filled in Hv. done.
  - left. right. exists b. rewrite val_updated in Hv by done. done.
Qed.

Lemma protected_kept x : protected V isec x → protected V' isec x.
Proof.
  intros [->|(b & Hb & Hi & Hv & Hnz)]; [by left|].
  right. exists b. rewrite val_updated; [done|done|].
  intros Heq. subst b. congruence.
Qed.
End IndexUpdate.

(** ** The file system invariant *)

(** [fs_inv F isec st]: the cache invariant holds, the index of the inode at
    [isec] is well formed in the view, and every sector with a slot is in
    use. *)
Definition fs_inv (F : gset Z) (isec : Z) (st : state) : Prop :=
  cache_inv F st ∧
  index_ok (view st) (free_map st) isec ∧
  (∀ x, x ∈ cached st → allocated (free_map st) x).

(** The only index sector that may be in [F] is [X], the sector created
    last: it still has its slot, and it is all zero. *)
Definition hot (F : gset Z) (isec : Z) (st : state) (X : Z) : Prop :=
  ∀ x, x ∈ F → protected (view st) isec x →
    x = X ∧ X ∈ cached st ∧ view st X = zeros DISK_SECTOR_SIZE.

(** No index sector is in [F]. *)
Definition calm (F : gset Z) (isec : Z) (st : state) : Prop :=
  ∀ x, x ∈ F → ¬ protected (view st) isec x.

(** What a walk through the index may change between [st] and [st']:
    slots that hold a sector keep it, the length stays, sectors in use that
    are neither index sectors nor in [F] keep their contents, and whatever
    is new to the index or to [F] was free before. *)
Definition walked (F : gset Z) (isec : Z) (st : state)
    (F' : gset Z) (st' : state) : Prop :=
  (∀ c, valid c → val (view st) isec c ≠ 0 →
     val (view st') isec c = val (view st) isec c) ∧
  word_at (view st' isec) OFS_LENGTH = word_at (view st isec) OFS_LENGTH ∧
  (∀ x, x ∉ F → allocated (free_map st) x → ¬ protected (view st) isec x →
     view st' x = view st x) ∧
  (∀ x, allocated (free_map st) x → allocated (free_map st') x) ∧
  (∀ x, protected (view st') isec x →
     protected (view st) isec x ∨ ¬ allocated (free_map st) x) ∧
  (∀ x, x ∈ F' → x ∈ F ∨ ¬ allocated (free_map st) x) ∧
  handles st' = handles st ∧
  free_count (free_map st') ≤ free_count (free_map st).

Lemma walked_refl F isec st : walked F isec st F st.
Proof.
  split; [done|]. split; [done|]. split; [done|]. split; [done|].
  split; [by left|]. split; [by left|]. split; [done|]. lia.
Qed.

Lemma walked_trans F isec st F1 st1 F2 st2 :
  walked F isec st F1 st1 → walked F1 isec st1 F2 st2 →
  walked F isec st F2 st2.
Proof.
  intros (A1 & A2 & A3 & A4 & A5 & A6 & A7 & A8)
         (B1 & B2 & B3 & B4 & B5 & B6 & B7 & B8).
  split; [|split; [|split; [|split; [|split; [|split; [|split]]]]]].
  - intros c Hc Hnz. rewrite B1; [by apply A1|done|]. rewrite A1; done.
  - congruence.
  - intros x HF Hal Hp. rewrite B3; [by apply A3| | |].
    + intros HF1. destruct (A6 _ HF1); done.
    + by apply A4.
    + intros Hp1. destruct (A5 _ Hp1); done.
  - auto.
  - intros x Hp. destruct (B5 _ Hp) as [Hp1|Hn]; [by apply A5|].
    right. intros Hal. apply Hn. by apply A4.
  - intros x HF. destruct (B6 _ HF) as [HF1|Hn]; [by apply A6|].
    right. intros Hal. apply Hn. by apply A4.
  - congruence.
  - lia.
Qed.

Lemma protected_allocated V bm isec x :
  index_ok V bm isec → protected V isec x → allocated bm x.
Proof.
  intros (_ & K1 & _ & K3 & _) [->|(a & Ha & _ & <- & Hnz)]; [done|].
  by apply K3.
Qed.

Lemma val_home V isec a :
  parent a = None ∨ home V isec a ≠ 0 →
  val V isec a = word_at (V (home V isec a)) (offset_of a).
Proof.
  unfold home. destruct (option_cases (parent a)) as [Hp|[p Hp]]; rewrite Hp.
  - intros _. by apply val_top.
  - intros [|Hnz]; [done|]. rewrite (val_sub _ _ a p) by done.
    unfold entry. by rewrite decide_False.
Qed.

Lemma home_isec_top V bm isec a :
  index_ok V bm isec → valid a → parent a = None ∨ home V isec a ≠ 0 →
  home V isec a = isec → parent a = None.
Proof.
  intros (_ & _ & _ & K3 & _) Ha Hr. unfold home in *.
  destruct (option_cases (parent a)) as [Hp|[p Hp]]; rewrite Hp in *; [done|].
  intros Heq. destruct Hr as [|Hr]; [done|].
  destruct (K3 p); [by eapply parent_valid|done|]. done.
Qed.

Lemma top_offset a : valid a → parent a = None → OFS_DIRECT ≤ offset_of a.
Proof.
  destruct a; cbn; try done;
    unfold DIRECT_BLOCK, OFS_DIRECT, OFS_INDIRECT, OFS_DOUBLE_INDIRECT; lia.
Qed.

(** What one [MODIFY_CACHE] at slot [a] establishes when it returns [r] in
    state [st']. *)
Definition modified (F : gset Z) (isec : Z) (st : state) (a : slot)
    (r : Z) (F' : gset Z) (st' : state) : Prop :=
  fs_inv F' isec st' ∧
  r = val (view st') isec a ∧ r ≠ 0 ∧
  hot F' isec st' r ∧
  F' ⊆ (F ∖ {[home (view st) isec a]}) ∪ {[r]} ∧
  walked F isec st F' st' ∧
  (∀ c, valid c → c ≠ a → val (view st') isec c = val (view st) isec c) ∧
  free_count (free_map st) ≤ free_count (free_map st') + 1 ∧
  (val (view st) isec a ≠ 0 →
     free_map st' = free_map st ∧ F' = F ∧
     ∀ x, x ∉ F → view st' x = view st x) ∧
  (val (view st) isec a = 0 →
     r ∈ cached st' ∧ view st' r = zeros DISK_SECTOR_SIZE ∧
     ¬ allocated (free_map st) r).

Lemma cache_inv_set_free_map F bm st :
  cache_inv F st → cache_inv F (set_free_map bm st).
Proof. by destruct st. Qed.

Lemma MODIFY_CACHE_spec F isec st a :
  fs_inv F isec st → valid a →
  parent a = None ∨ home (view st) isec a ≠ 0 →
  hot F isec st (home (view st) isec a) →
  match MODIFY_CACHE (home (view st) isec a) (offset_of a) st with
  | Abort => val (view st) isec a = 0 ∧ first_fit (free_map st) = None
  | Ok (r, st') => ∃ F', modified F isec st a r F' st'
  end.
Proof.
  intros (Hinv & Hok & Hcal) Ha Hreach Hhot.
  set (V := view st) in *. set (X := home V isec a) in *.
  pose proof (offset_of_bounds a Ha) as [Hoff0 Hoff1].
  pose proof (home_protected V isec a Ha ltac:(tauto)) as HXp. fold X in HXp.
  pose proof (protected_allocated _ _ _ _ Hok HXp) as HXal.
  (* the read of the slot *)
  destruct (cache_read_spec F X (offset_of a) 4 st Hinv)
    as (st1 & Hr & Hinv1 & Hout1 & HX1 & Hsub1 & Hview1); [lia..|].
  assert (Hfm1 : free_map st1 = free_map st).
  { unfold outside_cache in Hout1. congruence. }
  assert (Hh1 : handles st1 = handles st).
  { unfold outside_cache, handles in *. congruence. }
  assert (Hv1 : ∀ x, x ∉ F ∨ protected V isec x → view st1 x = V x).
  { intros x [Hx|Hx]; [by apply Hview1; left|].
    destruct (decide (x ∈ F)) as [HF|HF]; [|by apply Hview1; left].
    destruct (Hhot x HF Hx) as (-> & Hc & _). apply Hview1. tauto. }
  assert (Hcal1 : ∀ x, x ∈ cached st1 → allocated (free_map st) x).
  { intros x Hx. destruct (Hsub1 x Hx) as [->|Hx']; auto. }
  pose proof (val_home V isec a Hreach) as Hval. fold X in Hval.
  unfold MODIFY_CACHE. rewrite bind_unfold, Hr. cbv zeta.
  change (le_word (bytes_at (view st X) (offset_of a) 4))
    with (word_at (V X) (offset_of a)).
  rewrite <- Hval.
  destruct (decide (val V isec a = 0)) as [Hzero|Hnz].
  - (* the slot holds 0: allocate *)
    rewrite bind_unfold, free_map_allocate_spec, Hfm1.
    destruct (first_fit (free_map st)) as [n|] eqn:Hff; [|done].
    pose proof (first_fit_Some _ _ Hff) as Hfree.
    set (s' := Z.of_nat n).
    pose proof (allocated_fresh _ _ Hfree) as [Hal' Hnal]. fold s' in Hal', Hnal.
    set (st2 := set_free_map (<[n:=true]> (free_map st)) st1).
    assert (Hinv2 : cache_inv F st2) by by apply cache_inv_set_free_map.
    destruct (cache_write_spec F X (le_bytes 4 s') (offset_of a) 4 st2 Hinv2)
      as (st3 & Hw & Hinv3 & Hout3 & HX3 & Hsub3 & HvX3 & Hview3); [lia..|].
    assert (Hnc3 : s' ∉ cached st3).
    { intros Hc. apply Hnal. destruct (Hsub3 _ Hc) as [->|Hc']; auto. }
    destruct (cache_create_spec (F ∖ {[X]}) s' st3 Hinv3 Hnc3)
      as (st4 & Hc & Hinv4 & Hout4 & Hs4 & Hsub4 & Hvs4 & Hview4).
    rewrite bind_unfold, Hw, bind_unfold, Hc. mrun.
    set (F' := (F ∖ {[X]}) ∪ {[s']}). exists F'.
    assert (HXs : X ≠ s') by (intros Heq; apply Hnal; by rewrite <- Heq).
    assert (Hfm4 : free_map st4 = <[n:=true]> (free_map st)).
    { unfold outside_cache in *. injection Hout4 as -> _ _.
      injection Hout3 as -> _ _. done. }
    assert (Hh4 : handles st4 = handles st).
    { unfold outside_cache, handles in *. injection Hout4 as _ -> ->.
      injection Hout3 as _ -> ->. cbn. by injection Hout1 as _ -> ->. }
    (* the view after the three cache calls *)
    assert (HVX : view st4 X = memcpy (V X) (offset_of a) (le_bytes 4 s') 4).
    { rewrite Hview4; [|done|left; intros [_ Hn]%elem_of_difference;
                              by apply Hn, elem_of_singleton].
      rewrite HvX3. change (view st2 X) with (view st1 X).
      rewrite Hv1 by (by right). done. }
    assert (HVo : ∀ x, x ≠ X → x ≠ s' → x ∉ F ∨ protected V isec x →
              view st4 x = V x).
    { intros x HxX Hxs Hx. rewrite Hview4; [|done|].
      - rewrite Hview3; [|done|]. { change (view st2 x) with (view st1 x). auto. }
        right. left. done.
      - left. intros [HF _]%elem_of_difference.
        destruct Hx as [Hx|Hx]; [done|].
        destruct (Hhot x HF Hx) as (-> & _). done. }
    assert (Hoth : ∀ x, protected V isec x → x ≠ X → view st4 x = V x).
    { intros x Hx HxX. apply HVo; [done| |by right].
      intros ->. apply Hnal. by eapply protected_allocated. }
    assert (Hsz : ∀ x, sector_sized (V x)) by (intros; by eapply view_sized).
    pose proof (val_filled V (view st4) (free_map st) isec a n Hok Hsz Ha
                  Hreach Hzero Hfree HVX Hvs4 Hoth) as Hfill.
    pose proof (val_updated V (view st4) (free_map st) isec a n Hok Hsz Ha
                  Hreach Hzero Hfree HVX Hvs4 Hoth) as Hupd.
    pose proof (index_ok_updated V (view st4) (free_map st) isec a n Hok Hsz Ha
                  Hreach Hzero Hfree HVX Hvs4 Hoth) as Hok4.
    pose proof (protected_updated V (view st4) (free_map st) isec a n Hok Hsz Ha
                  Hreach Hzero Hfree HVX Hvs4 Hoth) as Hprot4.
    fold s' in Hfill.
    assert (Hs0 : s' ≠ 0).
    { intros Heq. apply Hnal. rewrite Heq. by destruct Hok. }
    split; [|split; [|split; [|split; [|split; [|split; [|split; [|split; [|split]]]]]]]].
    + split; [done|]. split; [by rewrite Hfm4|]. rewrite Hfm4.
      intros x Hx. destruct (Hsub4 x Hx) as [->|Hx3]; [done|].
      apply allocated_insert. destruct (Hsub3 x Hx3) as [->|Hx2]; auto.
    + done.
    + done.
    + intros x HF' Hx.
      assert (x = s') as ->; [|done].
      apply elem_of_union in HF' as [HF'|HF']; [|by apply elem_of_singleton in HF'].
      apply elem_of_difference in HF' as [HF HnX].
      destruct (Hprot4 x Hx) as [Hp|[-> _]]; [|done].
      destruct (Hhot x HF Hp) as (-> & _). exfalso. apply HnX.
      by apply elem_of_singleton.
    + unfold F'. done.
    + split; [|split; [|split; [|split; [|split; [|split; [|split]]]]]].
      * intros c Hvc Hcz. apply Hupd; [done|]. intros ->. done.
      * destruct (decide (isec = X)) as [HiX|HiX].
        -- pose proof (home_isec_top V _ isec a Hok Ha Hreach (eq_sym HiX)) as Htop.
           pose proof (top_offset a Ha Htop) as Hto.
           pose proof (Hsz X) as Hl. unfold sector_sized in Hl.
           assert (Hg : ∀ y, y = X →
                     word_at (view st4 y) OFS_LENGTH = word_at (V y) OFS_LENGTH).
           { intros y ->. rewrite HVX. unfold OFS_LENGTH, OFS_DIRECT in *.
             apply word_at_memcpy_other; lia. }
           by apply Hg.
        -- rewrite Hoth; [done|by left|done].
      * intros x HF Hal Hp. apply HVo; [| |by left].
        -- intros ->. done.
        -- intros ->. done.
      * intros x Hal. rewrite Hfm4. by apply allocated_insert.
      * intros x Hx. destruct (Hprot4 x Hx) as [Hp|[-> _]]; [by left|by right].
      * intros x HF'. apply elem_of_union in HF' as [HF'|HF'].
        -- left. by apply elem_of_difference in HF' as [? _].
        -- right. by apply elem_of_singleton in HF' as ->.
      * done.
      * rewrite Hfm4, (free_count_take _ _ Hfree). lia.
    + intros c Hvc Hne. by apply Hupd.
    + rewrite Hfm4, (free_count_take _ _ Hfree). lia.
    + done.
    + intros _. done.
  - (* the slot holds a sector *)
    mrun. exists F.
    assert (HnoF : ∀ x, x ∈ F → ¬ protected V isec x).
    { intros x HF Hp. destruct (Hhot x HF Hp) as (-> & _ & Hz).
      apply Hnz. rewrite Hval. fold V in Hz. rewrite Hz.
      by apply word_at_zeros. }
    assert (Hp1 : ∀ x, protected V isec x → view st1 x = V x) by auto.
    assert (Hval1 : ∀ c, valid c → val (view st1) isec c = val V isec c).
    { intros c Hc. by apply val_stable. }
    split; [|split; [|split; [|split; [|split; [|split; [|split; [|split; [|split]]]]]]]].
    + split; [done|]. split; [|by rewrite Hfm1].
      rewrite Hfm1. by apply (index_ok_stable V).
    + by rewrite Hval1.
    + done.
    + intros x HF Hp. exfalso. apply (HnoF x HF). by eapply protected_stable.
    + intros x HF. apply elem_of_union. left. apply elem_of_difference.
      split; [done|]. intros ->%elem_of_singleton. by apply (HnoF X).
    + split; [|split; [|split; [|split; [|split; [|split; [|split]]]]]].
      * intros c Hc _. by apply Hval1.
      * rewrite Hp1; [done|by left].
      * intros x HF _ _. apply Hv1. by left.
      * intros x. by rewrite Hfm1.
      * intros x Hp. left. by eapply protected_stable.
      * intros x. by left.
      * done.
      * rewrite Hfm1. lia.
    + intros c Hc _. by apply Hval1.
    + rewrite Hfm1. lia.
    + intros _. split; [done|]. split; [done|]. intros x HF. apply Hv1. by left.
    + done.
Qed.

(** ** The index walk: [byte_to_sector] *)

(** The block of the file that holds byte [pos], and its slot. *)
Definition MAX_BLOCKS : Z := DIRECT_BLOCK + SINGLE_BLOCK + SINGLE_BLOCK * SINGLE_BLOCK.
Definition MAX_FILE_SIZE : Z := MAX_BLOCKS * DISK_SECTOR_SIZE.

Definition data_slot (num : Z) : slot :=
  if decide (num < DIRECT_BLOCK) then Direct num
  else if decide (num < DIRECT_BLOCK + SINGLE_BLOCK)
  then IndirectAt (num - DIRECT_BLOCK)
  else DoubleAtAt ((num - (DIRECT_BLOCK + SINGLE_BLOCK)) `quot` SINGLE_BLOCK)
                  ((num - (DIRECT_BLOCK + SINGLE_BLOCK)) `rem` SINGLE_BLOCK).

(** The length field of the inode at [isec]. *)
Definition file_length (V : Z → list Z) (isec : Z) : Z :=
  to_signed (word_at (V isec) OFS_LENGTH).

Lemma data_slot_valid num : 0 ≤ num < MAX_BLOCKS → valid (data_slot num).
Proof.
  unfold data_slot, MAX_BLOCKS, DIRECT_BLOCK, SINGLE_BLOCK, DISK_SECTOR_SIZE.
  change (512 `div` 4) with 128. intros H.
  repeat case_decide; cbn; unfold DIRECT_BLOCK, SINGLE_BLOCK, DISK_SECTOR_SIZE;
    change (512 `div` 4) with 128; try lia.
  pose proof (Z.quot_pos (num - (12 + 128)) 128).
  pose proof (Z.quot_lt_upper_bound (num - (12 + 128)) 128 128).
  pose proof (Z.rem_bound_pos (num - (12 + 128)) 128). lia.
Qed.

Lemma data_slot_not_index num : ¬ is_index (data_slot num).
Proof. unfold data_slot. repeat case_decide; cbn; tauto. Qed.

Lemma data_slot_inj n m :
  0 ≤ n < MAX_BLOCKS → 0 ≤ m < MAX_BLOCKS → data_slot n = data_slot m → n = m.
Proof.
  unfold data_slot, MAX_BLOCKS, DIRECT_BLOCK, SINGLE_BLOCK, DISK_SECTOR_SIZE.
  change (512 `div` 4) with 128. intros Hn Hm.
  repeat case_decide; intros Heq; simplify_eq; try lia.
  pose proof (Z.quot_rem' (n - (12 + 128)) 128).
  pose proof (Z.quot_rem' (m - (12 + 128)) 128). lia.
Qed.

(** A sector that a data slot points to holds no part of the index. *)
Lemma data_not_protected V bm isec a :
  index_ok V bm isec → valid a → ¬ is_index a → val V isec a ≠ 0 →
  ¬ protected V isec (val V isec a).
Proof.
  intros (_ & _ & _ & K3 & K4) Ha Hi Hnz [Heq|(c & Hc & Hic & Heq & _)].
  - by destruct (K3 a Ha Hnz).
  - assert (c = a) as -> by (apply K4; congruence). done.
Qed.

(** A cache call that changes no view outside [F] keeps the invariant. *)
Lemma quiet_step F isec st st' s :
  fs_inv F isec st → calm F isec st →
  cache_inv F st' → outside_cache st' = outside_cache st →
  allocated (free_map st) s →
  (∀ x, x ∈ cached st' → x = s ∨ x ∈ cached st) →
  (∀ x, x ∉ F → view st' x = view st x) →
  fs_inv F isec st' ∧ calm F isec st' ∧ walked F isec st F st' ∧
  (∀ c, valid c → val (view st') isec c = val (view st) isec c) ∧
  free_map st' = free_map st.
Proof.
  intros (Hinv & Hok & Hcal) Hcalm Hinv' Hout Hs Hsub Hview.
  assert (Hfm : free_map st' = free_map st).
  { unfold outside_cache in Hout. congruence. }
  assert (Hp : ∀ x, protected (view st) isec x → view st' x = view st x).
  { intros x Hx. apply Hview. intros HF. by apply (Hcalm x). }
  assert (Hval : ∀ c, valid c → val (view st') isec c = val (view st) isec c).
  { intros c Hc. by apply val_stable. }
  split; [|split; [|split; [|split]]]; try done.
  - split; [done|]. split.
    + rewrite Hfm. by apply (index_ok_stable (view st)).
    + rewrite Hfm. intros x Hx. destruct (Hsub x Hx) as [->|Hx']; auto.
  - intros x HF Hx. apply (Hcalm x HF). by eapply protected_stable.
  - split; [|split; [|split; [|split; [|split; [|split; [|split]]]]]].
    + intros c Hc _. by apply Hval.
    + rewrite Hp; [done|by left].
    + intros x HF _ _. by apply Hview.
    + intros x. by rewrite Hfm.
    + intros x Hx. left. by eapply protected_stable.
    + intros x. by left.
    + unfold outside_cache, handles in *. congruence.
    + rewrite Hfm. lia.
Qed.

(** [c] is [a] or one of the slots on the way from the inode to [a]. *)
Definition on_path_to (a c : slot) : Prop :=
  c = a ∨ parent a = Some c ∨ ∃ p, parent a = Some p ∧ parent p = Some c.

Lemma child_off_path a c : parent c = Some a → ¬ on_path_to a c.
Proof.
  intros Hp [H|[H|(p & H1 & H2)]].
  - subst c. by apply parent_irrefl in Hp.
  - destruct a, c; simplify_eq.
  - destruct a, c, p; simplify_eq.
Qed.

Lemma on_path_parent a p c : parent a = Some p → on_path_to p c → on_path_to a c.
Proof.
  intros Hp [->|[H|(q & H1 & H2)]].
  - right. by left.
  - right. right. eauto.
  - exfalso. destruct a, p, q; simplify_eq.
Qed.

Lemma val_parent_zero V isec a p :
  parent a = Some p → val V isec p = 0 → val V isec a = 0.
Proof.
  intros Hp Hz. rewrite (val_sub _ _ a p Hp), Hz. unfold entry.
  by rewrite decide_True.
Qed.

(** What the walk has established when it has reached slot [a] with at most
    [k] allocations: [r] is the sector in [a]. *)
Definition reached (k : Z) (F : gset Z) (isec : Z) (st : state) (a : slot)
    (r : Z) (F' : gset Z) (st' : state) : Prop :=
  fs_inv F' isec st' ∧
  r = val (view st') isec a ∧ r ≠ 0 ∧
  hot F' isec st' r ∧
  F' ⊆ F ∪ {[r]} ∧
  walked F isec st F' st' ∧
  (∀ c, valid c → ¬ on_path_to a c →
     val (view st') isec c = val (view st) isec c) ∧
  free_count (free_map st) ≤ free_count (free_map st') + k ∧
  (val (view st) isec a ≠ 0 →
     free_map st' = free_map st ∧ F' = F ∧
     ∀ x, x ∉ F → view st' x = view st x) ∧
  (val (view st) isec a = 0 →
     r ∈ cached st' ∧ view st' r = zeros DISK_SECTOR_SIZE ∧
     ¬ allocated (free_map st) r).

(** The walk either aborted for want of a free sector, or reached [a]. *)
Definition outcome (k : Z) (F : gset Z) (isec : Z) (st : state) (a : slot)
    (res : result (Z * state)) : Prop :=
  match res with
  | Abort => free_count (free_map st) < k ∧ val (view st) isec a = 0
  | Ok (r, st') => ∃ F', reached k F isec st a r F' st'
  end.

Lemma calm_hot F isec st X : calm F isec st → hot F isec st X.
Proof. intros Hc x HF Hp. by destruct (Hc x HF). Qed.

Lemma outcome_first F isec st a :
  fs_inv F isec st → calm F isec st → valid a → parent a = None →
  outcome 1 F isec st a (MODIFY_CACHE isec (offset_of a) st).
Proof.
  intros Hinv Hcalm Ha Hp.
  pose proof (MODIFY_CACHE_spec F isec st a Hinv Ha (or_introl Hp)) as H.
  unfold home in H. rewrite Hp in H. specialize (H (calm_hot _ _ _ _ Hcalm)).
  destruct (MODIFY_CACHE isec (offset_of a) st) as [[r st']|]; cbn.
  - destruct H as (F' & H1 & H2 & H3 & H4 & H5 & H6 & H7 & H8 & H9 & H10).
    exists F'. split; [done|]. split; [done|]. split; [done|]. split; [done|].
    split.
    { intros x Hx. apply H5 in Hx. apply elem_of_union in Hx as [Hx|Hx].
      - apply elem_of_difference in Hx as [Hx _]. apply elem_of_union. by left.
      - apply elem_of_union. by right. }
    split; [done|]. split; [|done].
    intros c Hc Hn. apply H7; [done|]. intros ->. apply Hn. by left.
  - destruct H as [Hz Hff]. apply first_fit_None in Hff. split; [lia|done].
Qed.

Lemma outcome_next k F isec st p a res :
  outcome k F isec st p res → valid a → parent a = Some p →
  outcome (k + 1) F isec st a
    (match res with
     | Ok (r, st') => MODIFY_CACHE r (offset_of a) st'
     | Abort => Abort
     end).
Proof.
  intros Hres Ha Hp. destruct res as [[r1 st1]|]; last first.
  { destruct Hres as [Hfc Hz]. split; [lia|]. by eapply val_parent_zero. }
  destruct Hres as (F1 & Hinv1 & Hr1 & Hnz1 & Hhot1 & HF1 & Hw1 & Hoff1 & Hfc1
                    & Hno1 & Hal1).
  assert (Hhome : home (view st1) isec a = r1).
  { unfold home. by rewrite Hp. }
  pose proof (MODIFY_CACHE_spec F1 isec st1 a Hinv1 Ha) as H.
  rewrite Hhome in H. specialize (H (or_intror Hnz1) Hhot1).
  assert (Hva : val (view st1) isec a = val (view st) isec a).
  { apply Hoff1; [done|]. by apply child_off_path. }
  destruct (MODIFY_CACHE r1 (offset_of a) st1) as [[r st2]|]; cbn.
  - destruct H as (F2 & H1 & H2 & H3 & H4 & H5 & H6 & H7 & H8 & H9 & H10).
    rewrite Hhome in H5. exists F2.
    split; [done|]. split; [done|]. split; [done|]. split; [done|].
    split.
    { intros x Hx. apply H5 in Hx. apply elem_of_union in Hx as [Hx|Hx].
      - apply elem_of_difference in Hx as [Hx Hn]. apply HF1 in Hx.
        apply elem_of_union in Hx as [Hx|Hx]; [by apply elem_of_union; left|].
        done.
      - apply elem_of_union. by right. }
    split; [by eapply walked_trans|].
    split.
    { intros c Hc Hn. rewrite H7; [|done|intros ->; apply Hn; by left].
      apply Hoff1; [done|]. intros Hc'. apply Hn. by eapply on_path_parent. }
    split; [lia|]. split.
    + intros Hnz. rewrite <- Hva in Hnz.
      assert (Hnzp : val (view st) isec p ≠ 0).
      { intros Hz. rewrite Hva in Hnz. apply Hnz. by eapply val_parent_zero. }
      destruct (Hno1 Hnzp) as (Hfm1 & -> & Hv1).
      destruct (H9 Hnz) as (Hfm2 & -> & Hv2).
      split; [congruence|]. split; [done|].
      intros x Hx. rewrite Hv2 by done. by apply Hv1.
    + intros Hz. rewrite <- Hva in Hz. destruct (H10 Hz) as (? & ? & Hn).
      split; [done|]. split; [done|]. intros Hal. apply Hn.
      by destruct Hw1 as (_ & _ & _ & Hmono & _); apply Hmono.
  - destruct H as [Hz Hff]. apply first_fit_None in Hff.
    split; [lia|congruence].
Qed.

(** What [byte_to_sector] establishes when it returns the sector [r] of a
    byte below the length. *)
Definition located (F : gset Z) (isec : Z) (st : state) (a : slot)
    (r : Z) (F' : gset Z) (st' : state) : Prop :=
  fs_inv F' isec st' ∧ calm F' isec st' ∧
  r = val (view st') isec a ∧ r ≠ 0 ∧
  F' ⊆ F ∪ {[r]} ∧
  walked F isec st F' st' ∧
  free_count (free_map st) ≤ free_count (free_map st') + 3 ∧
  (val (view st) isec a ≠ 0 →
     free_map st' = free_map st ∧ F' = F ∧
     ∀ x, x ∉ F → view st' x = view st x) ∧
  (val (view st) isec a = 0 →
     r ∈ cached st' ∧ view st' r = zeros DISK_SECTOR_SIZE ∧
     ¬ allocated (free_map st) r).

Lemma reached_located k F isec st a r F' st' :
  k ≤ 3 → valid a → ¬ is_index a →
  reached k F isec st a r F' st' → located F isec st a r F' st'.
Proof.
  intros Hk Ha Hi (H1 & H2 & H3 & H4 & H5 & H6 & H7 & H8 & H9 & H10).
  split; [done|]. split.
  { intros x HF Hx. destruct (H4 x HF Hx) as (-> & _).
    destruct H1 as (_ & Hok & _). rewrite H2 in Hx, H3.
    by eapply data_not_protected. }
  split; [done|]. split; [done|]. split; [done|]. split; [done|].
  split; [lia|]. done.
Qed.

Lemma located_lift F isec st st0 a r F' st' :
  walked F isec st F st0 → free_map st0 = free_map st →
  (∀ x, x ∉ F → view st0 x = view st x) →
  val (view st0) isec a = val (view st) isec a →
  located F isec st0 a r F' st' → located F isec st a r F' st'.
Proof.
  intros Hw Hfm Hv Hva (H1 & H2 & H3 & H4 & H5 & H6 & H7 & H8 & H9).
  rewrite Hva, Hfm in *.
  split; [done|]. split; [done|]. split; [done|]. split; [done|].
  split; [done|]. split; [by eapply walked_trans|]. split; [done|].
  split; [|done].
  intros Hnz. destruct (H8 Hnz) as (? & ? & Hv'). split; [done|].
  split; [done|]. intros x Hx. rewrite Hv' by done. by apply Hv.
Qed.

Lemma quot_sector_bounds pos :
  0 ≤ pos < MAX_FILE_SIZE → 0 ≤ pos `quot` DISK_SECTOR_SIZE < MAX_BLOCKS.
Proof.
  unfold MAX_FILE_SIZE, DISK_SECTOR_SIZE. intros H.
  rewrite Z.quot_div_nonneg by lia. split.
  - apply Z.div_pos; lia.
  - apply Z.div_lt_upper_bound; lia.
Qed.

(** The two ways [byte_to_sector] returns, and the one way it aborts. *)
Definition byte_to_sector_post (F : gset Z) (isec : Z) (st : state) (pos : Z)
    (res : result (Z * state)) : Prop :=
  let a := data_slot (pos `quot` DISK_SECTOR_SIZE) in
  match res with
  | Abort =>
      pos < file_length (view st) isec ∧
      free_count (free_map st) < 3 ∧ val (view st) isec a = 0
  | Ok (r, st') =>
      if decide (pos < file_length (view st) isec)
      then ∃ F', located F isec st a r F' st'
      else r = to_unsigned (-1) ∧
           fs_inv F isec st' ∧ calm F isec st' ∧ walked F isec st F st' ∧
           free_map st' = free_map st ∧
           (∀ x, x ∉ F → view st' x = view st x)
  end.

Lemma byte_to_sector_spec F isec st h ino pos :
  fs_inv F isec st → calm F isec st →
  inodes st !! h = Some ino → inode_sector ino = isec →
  0 ≤ pos → (pos < file_length (view st) isec → pos < MAX_FILE_SIZE) →
  byte_to_sector_post F isec st pos (byte_to_sector h pos st).
Proof.
  intros Hinv Hcalm Hh Hsec Hpos0 Hpos1.
  pose proof Hinv as (Hci & Hok & Hcal).
  assert (Hisec : isec ∉ F) by (intros HF; apply (Hcalm isec HF); by left).
  destruct (cache_read_spec F isec OFS_LENGTH 4 st Hci)
    as (st0 & Hr & Hci0 & Hout0 & _ & Hsub0 & Hview0);
    [unfold OFS_LENGTH, DISK_SECTOR_SIZE; lia..|].
  assert (Hv0 : ∀ x, x ∉ F → view st0 x = view st x)
    by (intros; apply Hview0; by left).
  destruct (quiet_step F isec st st0 isec Hinv Hcalm Hci0 Hout0)
    as (Hinv0 & Hcalm0 & Hw0 & Hval0 & Hfm0); try done.
  { by destruct Hok as (_ & ? & _). }
  unfold byte_to_sector. rewrite bind_unfold, deref_spec, Hh, Hsec.
  rewrite bind_unfold, Hr. cbv zeta.
  change (to_signed (le_word (bytes_at (view st isec) OFS_LENGTH 4)))
    with (file_length (view st) isec).
  unfold byte_to_sector_post. cbv zeta.
  destruct (decide (pos < file_length (view st) isec)) as [Hlt|Hge]; last first.
  { cbn. done. }
  pose proof (quot_sector_bounds pos (conj Hpos0 (Hpos1 Hlt))) as Hnum.
  set (num := pos `quot` DISK_SECTOR_SIZE) in *.
  pose proof (data_slot_valid num Hnum) as Hva.
  pose proof (data_slot_not_index num) as Hni.
  assert (Hlift : ∀ res,
            outcome 3 F isec st0 (data_slot num) res →
            match res with
            | Abort => pos < file_length (view st) isec ∧
                       free_count (free_map st) < 3 ∧
                       val (view st) isec (data_slot num) = 0
            | Ok (r, st') => ∃ F', located F isec st (data_slot num) r F' st'
            end).
  { intros [[r st']|]; cbn.
    - intros (F' & Hreach). exists F'.
      eapply located_lift; [done|done|done|by apply Hval0|].
      by eapply (reached_located 3).
    - intros [Hfc Hz]. rewrite <- Hfm0, <- Hval0 by done. done. }
  assert (Hmono : ∀ k res, k ≤ 3 → outcome k F isec st0 (data_slot num) res →
            outcome 3 F isec st0 (data_slot num) res).
  { intros k [[r st']|] Hk; cbn.
    - intros (F' & H1 & H2 & H3 & H4 & H5 & H6 & H7 & H8 & H9).
      exists F'. repeat (split; [done|]). split; [lia|done].
    - intros [? ?]. split; [lia|done]. }
  apply Hlift. unfold data_slot in *.
  destruct (decide (num < DIRECT_BLOCK)) as [Hd|Hd].
  - apply (Hmono 1); [lia|]. by apply (outcome_first F isec st0 (Direct num)).
  - destruct (decide (num < DIRECT_BLOCK + SINGLE_BLOCK)) as [Hs|Hs].
    + apply (Hmono 2); [lia|]. rewrite bind_unfold.
      apply (outcome_next 1 F isec st0 Indirect (IndirectAt (num - DIRECT_BLOCK)));
        [|done|done].
      by apply (outcome_first F isec st0 Indirect).
    + rewrite bind_unfold.
      set (i := (num - (DIRECT_BLOCK + SINGLE_BLOCK)) `quot` SINGLE_BLOCK) in *.
      set (j := (num - (DIRECT_BLOCK + SINGLE_BLOCK)) `rem` SINGLE_BLOCK) in *.
      pose proof (outcome_first F isec st0 Double Hinv0 Hcalm0 I eq_refl) as H1.
      pose proof (outcome_next 1 F isec st0 Double (DoubleAt i) _ H1) as H2.
      cbn in Hva. specialize (H2 ltac:(cbn; tauto) eq_refl).
      pose proof (outcome_next 2 F isec st0 (DoubleAt i) (DoubleAtAt i j) _ H2
                    Hva eq_refl) as H3.
      cbn [offset_of] in *.
      destruct (MODIFY_CACHE isec OFS_DOUBLE_INDIRECT st0) as [[r1 st1]|];
        [|exact H3].
      rewrite bind_unfold.
      destruct (MODIFY_CACHE r1 (4 * i) st1) as [[r2 st2]|]; exact H3.
Qed.

(** ** Reading and writing: the loops *)

Lemma inode_length_spec F isec st h ino :
  fs_inv F isec st → calm F isec st →
  inodes st !! h = Some ino → inode_sector ino = isec →
  ∃ st', inode_length h st = Ok (file_length (view st) isec, st') ∧
    fs_inv F isec st' ∧ calm F isec st' ∧ walked F isec st F st' ∧
    (∀ c, valid c → val (view st') isec c = val (view st) isec c) ∧
    free_map st' = free_map st ∧
    (∀ x, x ∉ F → view st' x = view st x).
Proof.
  intros Hinv Hcalm Hh Hsec. pose proof Hinv as (Hci & Hok & Hcal).
  destruct (cache_read_spec F isec OFS_LENGTH 4 st Hci)
    as (st0 & Hr & Hci0 & Hout0 & _ & Hsub0 & Hview0);
    [unfold OFS_LENGTH, DISK_SECTOR_SIZE; lia..|].
  assert (Hv0 : ∀ x, x ∉ F → view st0 x = view st x)
    by (intros; apply Hview0; by left).
  destruct (quiet_step F isec st st0 isec Hinv Hcalm Hci0 Hout0)
    as (Hinv0 & Hcalm0 & Hw0 & Hval0 & Hfm0); try done.
  { by destruct Hok as (_ & ? & _). }
  exists st0. unfold inode_length.
  rewrite bind_unfold, deref_spec, Hh, Hsec, bind_unfold, Hr. done.
Qed.

Lemma walked_length F isec st F' st' :
  walked F isec st F' st' →
  file_length (view st') isec = file_length (view st) isec.
Proof. intros (_ & H & _). unfold file_length. by rewrite H. Qed.

Lemma walked_inodes F isec st F' st' :
  walked F isec st F' st' → inodes st' = inodes st.
Proof. intros (_ & _ & _ & _ & _ & _ & H & _). unfold handles in H. congruence. Qed.

(** The sectors that a transfer of [size] bytes at [offset] touches. *)
Definition blocks_left (offset size : Z) : Z :=
  (offset `rem` DISK_SECTOR_SIZE + size + 511) `div` DISK_SECTOR_SIZE.

(** No slot of the bytes [offset .. offset + m - 1] holds 0. *)
Definition no_hole (V : Z → list Z) (isec : Z) (offset m : Z) : Prop :=
  ∀ q, offset ≤ q < offset + m →
    val V isec (data_slot (q `quot` DISK_SECTOR_SIZE)) ≠ 0.

(** Byte [q] of the file. *)
Definition file_byte (V : Z → list Z) (isec : Z) (q : Z) : option Z :=
  V (val V isec (data_slot (q `quot` DISK_SECTOR_SIZE)))
    !! Z.to_nat (q `rem` DISK_SECTOR_SIZE).

Lemma same_sector offset i :
  0 ≤ offset → 0 ≤ i → offset `rem` DISK_SECTOR_SIZE + i < DISK_SECTOR_SIZE →
  (offset + i) `quot` DISK_SECTOR_SIZE = offset `quot` DISK_SECTOR_SIZE ∧
  (offset + i) `rem` DISK_SECTOR_SIZE = offset `rem` DISK_SECTOR_SIZE + i.
Proof.
  unfold DISK_SECTOR_SIZE. intros Ho Hi Hlt.
  rewrite !Z.quot_div_nonneg, !Z.rem_mod_nonneg in * by lia.
  pose proof (Z.div_mod offset 512 ltac:(lia)).
  pose proof (Z.mod_pos_bound offset 512 ltac:(lia)).
  assert ((offset + i) `div` 512 = offset `div` 512) as Hd.
  { symmetry. apply (Z.div_unique _ _ _ (offset `mod` 512 + i)); lia. }
  split; [done|].
  pose proof (Z.div_mod (offset + i) 512 ltac:(lia)). lia.
Qed.

Lemma blocks_left_nonneg offset size : 0 ≤ size → 0 ≤ blocks_left offset size.
Proof.
  unfold blocks_left, DISK_SECTOR_SIZE. intros Hs. apply Z.div_pos; [|lia].
  pose proof (Z.rem_bound_abs offset 512). lia.
Qed.

Lemma blocks_left_pos offset size :
  0 ≤ offset → 0 < size → 1 ≤ blocks_left offset size.
Proof.
  unfold blocks_left, DISK_SECTOR_SIZE. intros Ho Hs.
  rewrite Z.rem_mod_nonneg by lia.
  pose proof (Z.mod_pos_bound offset 512 ltac:(lia)).
  apply Z.div_le_lower_bound; lia.
Qed.

Lemma blocks_left_next offset size chunk :
  0 ≤ offset → 0 < chunk → chunk < size →
  chunk = DISK_SECTOR_SIZE - offset `rem` DISK_SECTOR_SIZE →
  blocks_left (offset + chunk) (size - chunk) + 1 = blocks_left offset size.
Proof.
  unfold blocks_left, DISK_SECTOR_SIZE. intros Ho Hc Hs Heq.
  rewrite !Z.rem_mod_nonneg in * by lia.
  pose proof (Z.mod_pos_bound offset 512 ltac:(lia)).
  assert ((offset + chunk) `mod` 512 = 0) as ->.
  { pose proof (Z.div_mod offset 512 ltac:(lia)).
    symmetry. apply (Z.mod_unique_pos _ _ (offset `div` 512 + 1)); lia. }
  replace (offset `mod` 512 + size + 511) with ((0 + (size - chunk) + 511) + 1 * 512)
    by lia.
  rewrite Z.div_add by lia. lia.
Qed.

Lemma blocks_left_bound offset size :
  0 ≤ offset → 0 ≤ size →
  blocks_left offset size ≤ size `div` DISK_SECTOR_SIZE + 2.
Proof.
  unfold blocks_left, DISK_SECTOR_SIZE. intros Ho Hs.
  rewrite Z.rem_mod_nonneg by lia.
  pose proof (Z.mod_pos_bound offset 512 ltac:(lia)).
  pose proof (Z.div_mod size 512 ltac:(lia)).
  pose proof (Z.mod_pos_bound size 512 ltac:(lia)).
  apply Z.lt_succ_r. apply Z.div_lt_upper_bound; lia.
Qed.

Lemma file_length_range V isec : - 2 ^ 31 ≤ file_length V isec < 2 ^ 31.
Proof. apply to_signed_range. Qed.

(** What [inode_read_loop] has done when it returns [n] and [buf']. *)
Definition read_done (F : gset Z) (isec : Z) (st : state) (offset m br : Z)
    (buf : list Z) (n : Z) (buf' : list Z) (st' : state) : Prop :=
  ∃ F' chunk,
    n = br + m ∧ buf' = buf ++ chunk ∧ Z.of_nat (length chunk) = m ∧
    fs_inv F' isec st' ∧ calm F' isec st' ∧ walked F isec st F' st' ∧
    (no_hole (view st) isec offset m →
       free_map st' = free_map st ∧ F' = F ∧
       (∀ x, x ∉ F → view st' x = view st x) ∧
       ∀ i, 0 ≤ i < m →
         val (view st) isec (data_slot ((offset + i) `quot` DISK_SECTOR_SIZE)) ∉ F →
         chunk !! Z.to_nat i = file_byte (view st) isec (offset + i)).

Definition read_post (F : gset Z) (isec : Z) (st : state) (size offset br : Z)
    (buf : list Z) (res : result (Z * list Z * state)) : Prop :=
  let m := Z.min size (Z.max 0 (file_length (view st) isec - offset)) in
  match res with
  | Abort =>
      offset < file_length (view st) isec ∧
      free_count (free_map st) < 3 * blocks_left offset size ∧
      ¬ no_hole (view st) isec offset m
  | Ok ((n, buf'), st') => read_done F isec st offset m br buf n buf' st'
  end.

Lemma read_done_nothing F isec st offset br buf :
  fs_inv F isec st → calm F isec st →
  read_done F isec st offset 0 br buf br buf st.
Proof.
  intros Hinv Hcalm. exists F, []. split; [lia|]. split; [by rewrite app_nil_r|].
  split; [done|]. split; [done|]. split; [done|]. split; [apply walked_refl|].
  intros _. split; [done|]. split; [done|]. split; [done|]. intros i Hi. lia.
Qed.

(** One turn of the read loop, up to the recursive call. *)
Lemma read_body F isec st h ino size offset :
  fs_inv F isec st → calm F isec st →
  inodes st !! h = Some ino → inode_sector ino = isec →
  0 ≤ offset → 0 < size →
  (offset < file_length (view st) isec → offset < MAX_FILE_SIZE) →
  let L := file_length (view st) isec in
  let a := data_slot (offset `quot` DISK_SECTOR_SIZE) in
  let sector_ofs := offset `rem` DISK_SECTOR_SIZE in
  let chunk := Z.min size (Z.min (L - offset) (DISK_SECTOR_SIZE - sector_ofs)) in
  match byte_to_sector h offset st with
  | Abort => offset < L ∧ free_count (free_map st) < 3 ∧ val (view st) isec a = 0
  | Ok (r, st1) =>
      ∃ st2 F1, inode_length h st1 = Ok (L, st2) ∧
        if decide (chunk ≤ 0) then
          F1 = F ∧ fs_inv F isec st2 ∧ calm F isec st2 ∧
          walked F isec st F st2 ∧ free_map st2 = free_map st ∧
          (∀ x, x ∉ F → view st2 x = view st x)
        else
          ∃ st3,
            cache_read r sector_ofs chunk st2 =
              Ok (bytes_at (view st2 r) sector_ofs chunk, st3) ∧
            sector_sized (view st2 r) ∧
            fs_inv F1 isec st3 ∧ calm F1 isec st3 ∧ walked F isec st F1 st3 ∧
            free_count (free_map st) ≤ free_count (free_map st3) + 3 ∧
            (val (view st) isec a ≠ 0 →
               r = val (view st) isec a ∧
               free_map st3 = free_map st ∧ F1 = F ∧
               (∀ x, x ∉ F → view st3 x = view st x) ∧
               (r ∉ F → view st2 r = view st r))
  end.
Proof.
  intros Hinv Hcalm Hh Hsec Hoff Hsize Hmax L a sector_ofs chunk.
  pose proof (byte_to_sector_spec F isec st h ino offset Hinv Hcalm Hh Hsec
                Hoff Hmax) as Hb.
  destruct (byte_to_sector h offset st) as [[r st1]|]; [|exact Hb].
  unfold byte_to_sector_post in Hb. cbn in Hb. fold L a in Hb.
  assert (Hofs : 0 ≤ sector_ofs < DISK_SECTOR_SIZE).
  { unfold sector_ofs, DISK_SECTOR_SIZE. apply Z.rem_bound_pos; lia. }
  destruct (decide (offset < L)) as [Hlt|Hge].
  - destruct Hb as (F1 & Hinv1 & Hcalm1 & Hr & Hrnz & HF1 & Hw1 & Hfc1 & Hno1 & Hal1).
    assert (Hh1 : inodes st1 !! h = Some ino)
      by (by rewrite (walked_inodes _ _ _ _ _ Hw1)).
    destruct (inode_length_spec F1 isec st1 h ino Hinv1 Hcalm1 Hh1 Hsec)
      as (st2 & Hlen & Hinv2 & Hcalm2 & Hw2 & Hval2 & Hfm2 & Hv2).
    rewrite (walked_length _ _ _ _ _ Hw1) in Hlen. fold L in Hlen.
    exists st2, F1. split; [done|].
    rewrite decide_False by (unfold chunk; lia).
    pose proof Hinv2 as (Hci2 & Hok2 & Hcal2).
    assert (Hr2 : r = val (view st2) isec a) by (by rewrite Hval2
      by (apply data_slot_valid, quot_sector_bounds; lia)).
    assert (Hral : allocated (free_map st2) r).
    { destruct Hok2 as (_ & _ & _ & K3 & _). rewrite Hr2.
      apply K3; [apply data_slot_valid, quot_sector_bounds; lia|congruence]. }
    destruct (cache_read_spec F1 r sector_ofs chunk st2 Hci2)
      as (st3 & Hrd & Hci3 & Hout3 & _ & Hsub3 & Hview3);
      [lia|unfold chunk; lia|unfold chunk; lia|].
    assert (Hv3 : ∀ x, x ∉ F1 → view st3 x = view st2 x)
      by (intros; apply Hview3; by left).
    destruct (quiet_step F1 isec st2 st3 r Hinv2 Hcalm2 Hci3 Hout3)
      as (Hinv3 & Hcalm3 & Hw3 & Hval3 & Hfm3); try done.
    exists st3. split; [done|]. split; [by eapply view_sized|].
    split; [done|]. split; [done|].
    split; [eauto using walked_trans|].
    split; [rewrite Hfm3, Hfm2; lia|].
    intros Hnz. destruct (Hno1 Hnz) as (Hfm1 & -> & Hv1).
    assert (Hva : val (view st1) isec a = val (view st) isec a).
    { by destruct Hw1 as (Hw & _); apply Hw;
        [apply data_slot_valid, quot_sector_bounds; lia|]. }
    split; [congruence|]. split; [congruence|]. split; [done|].
    split.
    + intros x Hx. rewrite Hv3, Hv2 by done. by apply Hv1.
    + intros Hx. rewrite Hv2 by done. by apply Hv1.
  - destruct Hb as (-> & Hinv1 & Hcalm1 & Hw1 & Hfm1 & Hv1).
    assert (Hh1 : inodes st1 !! h = Some ino)
      by (by rewrite (walked_inodes _ _ _ _ _ Hw1)).
    destruct (inode_length_spec F isec st1 h ino Hinv1 Hcalm1 Hh1 Hsec)
      as (st2 & Hlen & Hinv2 & Hcalm2 & Hw2 & Hval2 & Hfm2 & Hv2).
    rewrite (walked_length _ _ _ _ _ Hw1) in Hlen. fold L in Hlen.
    exists st2, F. split; [done|].
    rewrite decide_True by (unfold chunk; lia).
    split; [done|]. split; [done|]. split; [done|].
    split; [eauto using walked_trans|]. split; [congruence|].
    intros x Hx. rewrite Hv2 by done. by apply Hv1.
Qed.

Lemma bytes_at_length d off size :
  0 ≤ off → 0 ≤ size → off + size ≤ Z.of_nat (length d) →
  Z.of_nat (length (bytes_at d off size)) = size.
Proof.
  intros. unfold bytes_at. rewrite length_take, length_drop. lia.
Qed.

Lemma no_hole_walked F isec st F' st' offset m offset' m' :
  walked F isec st F' st' →
  0 ≤ offset → offset + m ≤ MAX_FILE_SIZE →
  offset ≤ offset' → offset' + m' ≤ offset + m →
  no_hole (view st) isec offset m → no_hole (view st') isec offset' m'.
Proof.
  intros (Hw & _) Ho Hmax Ho' Hm' Hno q Hq.
  rewrite Hw; [apply Hno; lia| |apply Hno; lia].
  apply data_slot_valid, quot_sector_bounds. lia.
Qed.

Lemma inode_read_loop_spec h ino isec fuel : ∀ F st size offset br buf,
  fs_inv F isec st → calm F isec st →
  inodes st !! h = Some ino → inode_sector ino = isec →
  0 ≤ file_length (view st) isec →
  Z.min (offset + size) (file_length (view st) isec) ≤ MAX_FILE_SIZE →
  0 ≤ br ≤ offset → offset < 2 ^ 31 → 0 ≤ size < 2 ^ 31 →
  size ≤ Z.of_nat fuel →
  read_post F isec st size offset br buf
    (inode_read_loop fuel h size offset br buf st).
Proof.
  induction fuel as [|fuel IH];
    intros F st size offset br buf Hinv Hcalm Hh Hsec HL Hmax Hbr Hoff Hsize Hfuel.
  { cbn. assert (size = 0) as -> by lia.
    rewrite Z.min_l by lia. by apply read_done_nothing. }
  cbn [inode_read_loop].
  destruct (decide (size > 0)) as [Hpos|Hz]; last first.
  { cbn. assert (size = 0) as -> by lia.
    rewrite Z.min_l by lia. by apply read_done_nothing. }
  unfold read_post. cbv zeta.
  set (L := file_length (view st) isec) in *.
  pose proof (file_length_range (view st) isec) as HLr. fold L in HLr.
  assert (Hlim : offset < L → offset < MAX_FILE_SIZE) by lia.
  pose proof (read_body F isec st h ino size offset Hinv Hcalm Hh Hsec
                ltac:(lia) ltac:(lia) Hlim) as Hb.
  cbv zeta in Hb. fold L in Hb.
  set (a := data_slot (offset `quot` DISK_SECTOR_SIZE)) in *.
  set (sofs := offset `rem` DISK_SECTOR_SIZE) in *.
  assert (Hofs : 0 ≤ sofs < DISK_SECTOR_SIZE).
  { unfold sofs, DISK_SECTOR_SIZE. apply Z.rem_bound_pos; lia. }
  rewrite bind_unfold.
  destruct (byte_to_sector h offset st) as [[r st1]|]; last first.
  { destruct Hb as (Hlt & Hfc & Hz). split; [done|]. split.
    - pose proof (blocks_left_pos offset size ltac:(lia) ltac:(lia)). lia.
    - intros Hno. apply (Hno offset); [lia|done]. }
  destruct Hb as (st2 & F1 & Hlen & Hb).
  rewrite bind_unfold, Hlen. cbv zeta.
  rewrite (off_sub_id L offset) by lia.
  set (chunk := Z.min size (Z.min (L - offset) (DISK_SECTOR_SIZE - sofs))) in *.
  assert (Hchunk :
    (if decide (size < (if decide (L - offset < DISK_SECTOR_SIZE - sofs)
                        then L - offset else DISK_SECTOR_SIZE - sofs))
     then size
     else (if decide (L - offset < DISK_SECTOR_SIZE - sofs)
           then L - offset else DISK_SECTOR_SIZE - sofs)) = chunk).
  { unfold chunk. repeat case_decide; lia. }
  rewrite Hchunk.
  destruct (decide (chunk ≤ 0)) as [Hle|Hgt].
  { destruct Hb as (-> & Hinv2 & Hcalm2 & Hw2 & Hfm2 & Hv2). cbv beta iota.
    replace (Z.min size (Z.max 0 (L - offset))) with 0 by (unfold chunk in Hle; lia).
    exists F, []. split; [lia|]. split; [by rewrite app_nil_r|].
    split; [done|]. split; [done|]. split; [done|]. split; [done|].
    intros _. split; [done|]. split; [done|]. split; [done|]. intros i Hi. lia. }
  destruct Hb as (st3 & Hrd & Hs & Hinv3 & Hcalm3 & Hw3 & Hfc3 & Hno3).
  rewrite bind_unfold, Hrd.
  assert (Hlt : offset < L) by (unfold chunk in Hgt; lia).
  rewrite (off_sub_id size chunk), (off_add_id offset chunk),
    (off_add_id br chunk) by (unfold chunk; lia).
  set (cb := bytes_at (view st2 r) sofs chunk) in *.
  assert (Hh3 : inodes st3 !! h = Some ino)
    by (by rewrite (walked_inodes _ _ _ _ _ Hw3)).
  assert (HL3 : file_length (view st3) isec = L) by (by eapply walked_length).
  specialize (IH F1 st3 (size - chunk) (offset + chunk) (br + chunk) (buf ++ cb)
                Hinv3 Hcalm3 Hh3 Hsec).
  rewrite HL3 in IH.
  specialize (IH ltac:(lia) ltac:(unfold chunk; lia) ltac:(lia)
                ltac:(unfold chunk; lia) ltac:(unfold chunk; lia)
                ltac:(unfold chunk; lia)).
  unfold read_post in IH. cbv zeta in IH. rewrite HL3 in IH.
  set (m := Z.min size (Z.max 0 (L - offset))) in *.
  set (m' := Z.min (size - chunk) (Z.max 0 (L - (offset + chunk)))) in *.
  assert (Hm : m = chunk + m') by (unfold m, m', chunk; lia).
  assert (Hm0 : 0 ≤ m') by (unfold m', chunk; lia).
  assert (Hend : offset + m ≤ MAX_FILE_SIZE) by (unfold m; lia).
  assert (Hnext : no_hole (view st) isec offset m →
            no_hole (view st3) isec (offset + chunk) m').
  { apply (no_hole_walked F isec st F1 st3); try done; lia. }
  assert (Ha : no_hole (view st) isec offset m → val (view st) isec a ≠ 0).
  { intros Hno. apply (Hno offset). lia. }
  destruct (inode_read_loop fuel h (size - chunk) (offset + chunk) (br + chunk)
              (buf ++ cb) st3) as [[[n buf'] st']|].
  - destruct IH as (F2 & ch & Hn & Hbuf & Hlench & Hinv' & Hcalm' & Hw' & Hno').
    assert (Hlencb : Z.of_nat (length cb) = chunk).
    { unfold cb. apply bytes_at_length; [lia|lia|].
      unfold sector_sized, DISK_SECTOR_SIZE in *. rewrite Hs. unfold chunk. lia. }
    exists F2, (cb ++ ch). split; [lia|]. split; [by rewrite Hbuf, <- app_assoc|].
    split; [rewrite length_app; lia|]. split; [done|]. split; [done|].
    split; [by eapply walked_trans|].
    intros Hno. destruct (Hno3 (Ha Hno)) as (Hr & Hfm3 & -> & Hv3 & Hv2).
    destruct (Hno' (Hnext Hno)) as (Hfm' & -> & Hv' & Hbytes).
    split; [congruence|]. split; [done|].
    split. { intros x Hx. rewrite Hv' by done. by apply Hv3. }
    intros i Hi HiF.
    destruct (decide (i < chunk)) as [Hic|Hic].
    + destruct (same_sector offset i ltac:(lia) ltac:(lia)
                  ltac:(fold sofs; unfold chunk in Hic; lia)) as [Hq Hrm].
      rewrite Hq in HiF. fold a in HiF. rewrite <- Hr in HiF.
      rewrite lookup_app_l by lia. unfold cb.
      rewrite lookup_bytes_at by lia. rewrite decide_True by lia.
      unfold file_byte. rewrite Hq, Hrm. fold a sofs. rewrite <- Hr.
      rewrite Hv2 by done. f_equal. lia.
    + rewrite lookup_app_r by lia.
      replace (Z.to_nat i - length cb)%nat with (Z.to_nat (i - chunk)) by lia.
      assert (Hvq : val (view st3) isec
                      (data_slot ((offset + i) `quot` DISK_SECTOR_SIZE)) =
                    val (view st) isec
                      (data_slot ((offset + i) `quot` DISK_SECTOR_SIZE))).
      { destruct Hw3 as (Hw & _). apply Hw; [|apply Hno; lia].
        apply data_slot_valid, quot_sector_bounds. lia. }
      replace (offset + i) with (offset + chunk + (i - chunk)) in HiF, Hvq |- * by lia.
      rewrite Hbytes; [|lia|by rewrite Hvq].
      unfold file_byte. rewrite Hvq. by rewrite Hv3.
  - destruct IH as (Hlt' & Hfc' & Hno'). split; [done|]. split.
    + assert (Hrest : 0 < size - chunk).
      { destruct (decide (0 < size - chunk)); [done|].
        exfalso. apply Hno'. intros q Hq. unfold m' in Hq. lia. }
      assert (Hc : chunk = DISK_SECTOR_SIZE - sofs) by (unfold chunk in *; lia).
      pose proof (blocks_left_next offset size chunk ltac:(lia) ltac:(lia)
                    ltac:(lia) Hc). lia.
    + intros Hno. apply Hno'. by apply Hnext.
Qed.

(** A cache call that changes no view of an index sector keeps the index. *)
Lemma index_step F F' isec st st' s :
  fs_inv F isec st →
  cache_inv F' st' → outside_cache st' = outside_cache st →
  allocated (free_map st) s →
  (∀ x, x ∈ cached st' → x = s ∨ x ∈ cached st) →
  (∀ x, protected (view st) isec x → view st' x = view st x) →
  fs_inv F' isec st' ∧
  (∀ c, valid c → val (view st') isec c = val (view st) isec c) ∧
  (∀ x, protected (view st') isec x → protected (view st) isec x) ∧
  free_map st' = free_map st ∧ inodes st' = inodes st.
Proof.
  intros (Hinv & Hok & Hcal) Hinv' Hout Hs Hsub Hp.
  assert (Hfm : free_map st' = free_map st).
  { unfold outside_cache in Hout. congruence. }
  split; [|split; [|split; [|split]]]; try done.
  - split; [done|]. split.
    + rewrite Hfm. by apply (index_ok_stable (view st)).
    + rewrite Hfm. intros x Hx. destruct (Hsub x Hx) as [->|Hx']; auto.
  - intros c Hc. by apply val_stable.
  - intros x. by apply protected_stable.
  - unfold outside_cache in Hout. congruence.
Qed.

(** The index does not read the first eight bytes of the inode sector. *)
Lemma val_words V V' bm isec a :
  index_ok V bm isec → valid a →
  (∀ b, valid b → parent b = None →
     word_at (V' isec) (offset_of b) = word_at (V isec) (offset_of b)) →
  (∀ x, protected V isec x → x ≠ isec → V' x = V x) →
  val V' isec a = val V isec a.
Proof.
  intros (_ & _ & _ & K3 & _) Hva Htop Hsub.
  assert (H1 : ∀ p off, valid p → is_index p →
            entry V' (val V isec p) off = entry V (val V isec p) off).
  { intros p off Hv Hi. unfold entry. case_decide as Hnz; [done|].
    rewrite Hsub; [done| |by destruct (K3 p Hv Hnz)]. right. eauto. }
  assert (H0 : ∀ b, valid b → parent b = None → val V' isec b = val V isec b).
  { intros b Hb Hp. rewrite !val_top by done. by apply Htop. }
  destruct (option_cases (parent a)) as [Hp|[p Hp]]; [by apply H0|].
  pose proof (parent_valid _ _ Hva Hp) as Hvp.
  pose proof (parent_is_index _ _ Hp) as Hip.
  assert (Hpv : val V' isec p = val V isec p).
  { destruct (option_cases (parent p)) as [Hq|[q Hq]]; [by apply H0|].
    pose proof (parent_valid _ _ Hvp Hq) as Hvq.
    pose proof (parent_is_index _ _ Hq) as Hiq.
    rewrite !(val_sub _ _ p q) by done.
    rewrite (H0 q Hvq (index_parent_top p q Hip Hq)). by apply H1. }
  rewrite !(val_sub _ _ a p) by done. rewrite Hpv. by apply H1.
Qed.

(** Storing the length leaves the index as it is. *)
Lemma length_step F isec st st' :
  fs_inv F isec st → calm F isec st →
  cache_inv F st' → outside_cache st' = outside_cache st →
  (∀ x, x ∈ cached st' → x = isec ∨ x ∈ cached st) →
  (∃ bs, view st' isec = memcpy (view st isec) OFS_LENGTH bs 4) →
  (∀ x, x ≠ isec → x ∉ F → view st' x = view st x) →
  fs_inv F isec st' ∧ calm F isec st' ∧
  (∀ c, valid c → val (view st') isec c = val (view st) isec c) ∧
  free_map st' = free_map st ∧ inodes st' = inodes st.
Proof.
  intros Hinv Hcalm Hinv' Hout Hsub [bs Hlen] Hview.
  pose proof Hinv as (Hci & Hok & Hcal).
  assert (Hfm : free_map st' = free_map st).
  { unfold outside_cache in Hout. congruence. }
  assert (Hval : ∀ c, valid c → val (view st') isec c = val (view st) isec c).
  { intros c Hc. apply (val_words _ _ (free_map st)); try done.
    - intros b Hb Hp. rewrite Hlen.
      pose proof (top_offset b Hb Hp). pose proof (offset_of_bounds b Hb).
      pose proof (view_sized F st isec Hci) as Hs. unfold sector_sized in Hs.
      apply word_at_memcpy_other; unfold OFS_LENGTH, OFS_DIRECT, DISK_SECTOR_SIZE in *;
        lia.
    - intros x Hx Hne. apply Hview; [done|]. intros HF. by apply (Hcalm x). }
  assert (Hprot : ∀ x, protected (view st') isec x → protected (view st) isec x).
  { intros x [->|(a & Ha & Hi & Hv & Hnz)]; [by left|].
    right. exists a. rewrite Hval in Hv by done. done. }
  split; [|split; [|split; [|split]]]; try done.
  - split; [done|]. split.
    + rewrite Hfm. destruct Hok as (K0 & K1 & K2 & K3 & K4).
      split; [done|]. split; [done|]. split; [done|]. split.
      * intros a Ha. rewrite Hval by done. auto.
      * intros a b Ha Hb. rewrite !Hval by done. auto.
    + rewrite Hfm. intros x Hx. destruct (Hsub x Hx) as [->|Hx']; auto.
      by destruct Hok as (_ & ? & _).
  - intros x HF Hx. apply (Hcalm x HF). by apply Hprot.
  - unfold outside_cache in Hout. congruence.
Qed.

(** What [inode_write_loop] has done when it returns [n] in state [st']:
    slots that held a sector keep it, the blocks outside the range keep
    their bytes, and the bytes of the range are those of the buffer. *)
Definition write_done (F : gset Z) (isec : Z) (st : state) (buffer : list Z)
    (size offset bw n : Z) (st' : state) : Prop :=
  ∃ F',
    n = bw + size ∧ fs_inv F' isec st' ∧ calm F' isec st' ∧ F' ⊆ F ∧
    (∀ x, allocated (free_map st) x → allocated (free_map st') x) ∧
    (∀ c, valid c → val (view st) isec c ≠ 0 →
       val (view st') isec c = val (view st) isec c) ∧
    file_length (view st') isec = file_length (view st) isec ∧
    inodes st' = inodes st ∧
    (∀ b, 0 ≤ b < MAX_BLOCKS → val (view st) isec (data_slot b) ≠ 0 →
       val (view st) isec (data_slot b) ∉ F →
       (∀ q, offset ≤ q < offset + size → q `quot` DISK_SECTOR_SIZE ≠ b) →
       view st' (val (view st) isec (data_slot b)) =
         view st (val (view st) isec (data_slot b))) ∧
    (∀ i, 0 ≤ i < size →
       val (view st') isec (data_slot ((offset + i) `quot` DISK_SECTOR_SIZE)) ≠ 0 ∧
       (val (view st') isec (data_slot ((offset + i) `quot` DISK_SECTOR_SIZE)) ∉ F') ∧
       file_byte (view st') isec (offset + i) = buffer !! Z.to_nat (bw + i)) ∧
    free_count (free_map st) ≤
      free_count (free_map st') + 3 * blocks_left offset size ∧
    (size = 0 → free_map st' = free_map st).

Definition write_post (F : gset Z) (isec : Z) (st : state) (buffer : list Z)
    (size offset bw : Z) (res : result (Z * state)) : Prop :=
  match res with
  | Abort => 0 < size ∧ free_count (free_map st) < 3 * blocks_left offset size
  | Ok (n, st') => write_done F isec st buffer size offset bw n st'
  end.

Lemma write_done_nothing F isec st buffer offset bw :
  fs_inv F isec st → calm F isec st →
  write_done F isec st buffer 0 offset bw bw st.
Proof.
  intros Hinv Hcalm. exists F. split; [lia|]. split; [done|]. split; [done|].
  split; [done|]. split; [done|]. split; [done|]. split; [done|].
  split; [done|]. split; [done|]. split; [intros i Hi; lia|].
  split; [|done]. pose proof (blocks_left_nonneg offset 0). lia.
Qed.

Lemma calm_empty isec st : calm ∅ isec st.
Proof. intros x Hx. by apply not_elem_of_empty in Hx. Qed.

Lemma inode_write_loop_spec h ino isec buffer len fuel : ∀ F st size offset bw,
  fs_inv F isec st → calm F isec st →
  inodes st !! h = Some ino → inode_sector ino = isec →
  file_length (view st) isec = len →
  0 ≤ bw ≤ offset → 0 ≤ size → offset + size ≤ len →
  offset + size ≤ MAX_FILE_SIZE →
  bw + size ≤ Z.of_nat (length buffer) → size ≤ Z.of_nat fuel →
  write_post F isec st buffer size offset bw
    (inode_write_loop fuel h buffer len size offset bw st).
Proof.
  induction fuel as [|fuel IH];
    intros F st size offset bw Hinv Hcalm Hh Hsec HL Hbw Hsize Hlen Hmax Hbuf Hfuel.
  { cbn. assert (size = 0) as -> by lia. by apply write_done_nothing. }
  cbn [inode_write_loop].
  destruct (decide (size > 0)) as [Hpos|Hz]; last first.
  { cbn. assert (size = 0) as -> by lia. by apply write_done_nothing. }
  pose proof (file_length_range (view st) isec) as HLr. rewrite HL in HLr.
  assert (Hlim : offset < file_length (view st) isec → offset < MAX_FILE_SIZE) by lia.
  pose proof (byte_to_sector_spec F isec st h ino offset Hinv Hcalm
                Hh Hsec ltac:(lia) Hlim) as Hb.
  unfold byte_to_sector_post in Hb. cbv zeta in Hb. rewrite HL in Hb.
  set (b0 := offset `quot` DISK_SECTOR_SIZE) in *.
  set (a := data_slot b0) in *.
  set (sofs := offset `rem` DISK_SECTOR_SIZE) in *.
  assert (Hofs : 0 ≤ sofs < DISK_SECTOR_SIZE).
  { unfold sofs, DISK_SECTOR_SIZE. apply Z.rem_bound_pos; lia. }
  assert (Hb0 : 0 ≤ b0 < MAX_BLOCKS) by (apply quot_sector_bounds; lia).
  pose proof (data_slot_valid b0 Hb0) as Hva.
  pose proof (data_slot_not_index b0) as Hni.
  rewrite bind_unfold.
  destruct (byte_to_sector h offset st) as [[r st1]|]; last first.
  { destruct Hb as (Hlt & Hfc & Hz). cbn. split; [lia|].
    pose proof (blocks_left_pos offset size ltac:(lia) ltac:(lia)). lia. }
  rewrite decide_True in Hb by lia.
  destruct Hb as (F1 & Hinv1 & Hcalm1 & Hr & Hrnz & HF1 & Hw1 & Hfc1 & _ & _).
  cbv zeta. rewrite (off_sub_id len offset) by lia.
  set (chunk := Z.min size (DISK_SECTOR_SIZE - sofs)).
  assert (Hchunk :
    (if decide (size < (if decide (len - offset < DISK_SECTOR_SIZE - sofs)
                        then len - offset else DISK_SECTOR_SIZE - sofs))
     then size
     else (if decide (len - offset < DISK_SECTOR_SIZE - sofs)
           then len - offset else DISK_SECTOR_SIZE - sofs)) = chunk).
  { unfold chunk. repeat case_decide; lia. }
  rewrite Hchunk. rewrite decide_False by (unfold chunk; lia).
  pose proof Hinv1 as (Hci1 & Hok1 & Hcal1).
  assert (Hral : allocated (free_map st1) r).
  { destruct Hok1 as (_ & _ & _ & K3 & _). rewrite Hr. apply K3; [done|congruence]. }
  assert (Hrp : ¬ protected (view st1) isec r).
  { rewrite Hr. eapply data_not_protected; try done. congruence. }
  destruct (cache_write_spec F1 r (drop (Z.to_nat bw) buffer) sofs chunk st1 Hci1)
    as (st2 & Hwr & Hci2 & Hout2 & _ & Hsub2 & Hvr2 & Hview2);
    [lia|unfold chunk; lia|unfold chunk; lia|].
  assert (Hother : ∀ x, x ≠ r → x ∉ F1 → view st2 x = view st1 x).
  { intros x Hx HxF. apply Hview2; [done|]. by left. }
  destruct (index_step F1 (F1 ∖ {[r]}) isec st1 st2 r Hinv1 Hci2 Hout2 Hral Hsub2)
    as (Hinv2 & Hval2 & Hprot2 & Hfm2 & Hino2).
  { intros x Hx. apply Hother; [by intros ->|]. intros HxF. by apply (Hcalm1 x). }
  assert (Hcalm2 : calm (F1 ∖ {[r]}) isec st2).
  { intros x Hx Hp. apply elem_of_difference in Hx as [Hx _].
    apply (Hcalm1 x Hx). by apply Hprot2. }
  rewrite bind_unfold, Hwr.
  rewrite (off_sub_id size chunk), (off_add_id offset chunk),
    (off_add_id bw chunk) by (unfold chunk; lia).
  assert (Hh2 : inodes st2 !! h = Some ino).
  { by rewrite Hino2, (walked_inodes _ _ _ _ _ Hw1). }
  assert (HL2 : file_length (view st2) isec = len).
  { unfold file_length. rewrite Hother.
    - by rewrite <- HL, <- (walked_length _ _ _ _ _ Hw1).
    - intros ->. apply Hrp. by left.
    - intros HxF. apply (Hcalm1 isec HxF). by left. }
  specialize (IH (F1 ∖ {[r]}) st2 (size - chunk) (offset + chunk) (bw + chunk)
                Hinv2 Hcalm2 Hh2 Hsec HL2
                ltac:(unfold chunk; lia) ltac:(unfold chunk; lia) ltac:(lia)
                ltac:(lia) ltac:(lia) ltac:(unfold chunk; lia)).
  unfold write_post in *.
  assert (Hfar : 0 < size - chunk →
            ∀ q, offset + chunk ≤ q → q `quot` DISK_SECTOR_SIZE ≠ b0).
  { intros Hrest q Hq.
    assert (chunk = DISK_SECTOR_SIZE - sofs) as Hc by (unfold chunk in *; lia).
    unfold b0, sofs, DISK_SECTOR_SIZE in *.
    rewrite !Z.quot_div_nonneg, ?Z.rem_mod_nonneg in * by lia.
    pose proof (Z.div_mod offset 512 ltac:(lia)).
    assert (offset `div` 512 + 1 ≤ q `div` 512); [|lia].
    apply Z.div_le_lower_bound; lia. }
  assert (Hmono1 : ∀ x, allocated (free_map st) x → allocated (free_map st1) x).
  { by destruct Hw1 as (_ & _ & _ & ? & _). }
  assert (HF1' : ∀ x, x ∈ F1 → x ∈ F ∨ ¬ allocated (free_map st) x).
  { by destruct Hw1 as (_ & _ & _ & _ & _ & ? & _). }
  destruct (inode_write_loop fuel h buffer len (size - chunk) (offset + chunk)
              (bw + chunk) st2) as [[n st']|].
  - destruct IH as (F' & Hn & Hinv' & Hcalm' & HF' & Hmono' & Hval' & HL' & Hino'
                    & Hkept' & Hbytes' & Hfree' & Hzero').
    assert (Hv02 : ∀ c, valid c → val (view st) isec c ≠ 0 →
              val (view st2) isec c = val (view st) isec c).
    { intros c Hc Hnz. rewrite Hval2 by done. destruct Hw1 as (Hw & _); auto. }
    assert (Hr2 : val (view st2) isec a = r) by (by rewrite Hval2).
    assert (Hr' : val (view st') isec a = r).
    { rewrite Hval'; [done|done|]. by rewrite Hr2. }
    assert (HrF2 : r ∉ F1 ∖ {[r]}).
    { intros Hx. apply elem_of_difference in Hx as [_ Hx]. apply Hx.
      by apply elem_of_singleton. }
    assert (Hvr' : view st' r = view st2 r).
    { pose proof (Hkept' b0 Hb0) as Hk. fold a in Hk. rewrite Hr2 in Hk.
      apply Hk; [done|done|]. intros q Hq.
      destruct (decide (0 < size - chunk)) as [Hrest|Hrest]; [|lia].
      apply Hfar; lia. }
    exists F'. split; [lia|]. split; [done|]. split; [done|]. split.
    { intros x Hx. apply HF' in Hx. apply elem_of_difference in Hx as [Hx Hxr].
      apply HF1 in Hx. apply elem_of_union in Hx as [Hx|Hx]; done. }
    split.
    { intros x Hx. apply Hmono'. rewrite Hfm2. by apply Hmono1. }
    split.
    { intros c Hc Hnz. rewrite Hval'; [by apply Hv02|done|].
      by rewrite Hv02. }
    split; [congruence|]. split.
    { rewrite Hino', Hino2. by eapply walked_inodes. }
    split.
    { intros b Hb Hnz HnF Hun. set (x := val (view st) isec (data_slot b)) in *.
      pose proof Hinv as (_ & Hok & _).
      assert (Hxal : allocated (free_map st) x).
      { destruct Hok as (_ & _ & _ & K3 & _).
        by apply (K3 (data_slot b)); [apply data_slot_valid|]. }
      assert (Hx2 : val (view st2) isec (data_slot b) = x).
      { apply Hv02; [by apply data_slot_valid|done]. }
      assert (Hx1 : val (view st1) isec (data_slot b) = x).
      { by rewrite <- Hval2 by (by apply data_slot_valid). }
      assert (Hxr : x ≠ r).
      { intros Heq. apply (Hun offset); [lia|]. fold b0.
        destruct Hok1 as (_ & _ & _ & _ & K4). symmetry.
        apply data_slot_inj; try done. apply K4; try done.
        - by apply data_slot_valid.
        - congruence.
        - rewrite Hx1, Heq. exact Hr. }
      assert (HxF1 : x ∉ F1).
      { intros HxF. destruct (HF1' x HxF); done. }
      rewrite <- Hx2.
      rewrite Hkept'; [|done|by rewrite Hx2| |intros q Hq; apply Hun; lia].
      2:{ rewrite Hx2. intros HxF. by apply elem_of_difference in HxF as [? _]. }
      rewrite Hx2, Hother by done.
      destruct Hw1 as (_ & _ & Hw & _). apply Hw; [done|done|].
      apply (data_not_protected _ (free_map st)); try done.
      + by apply data_slot_valid.
      + apply data_slot_not_index. }
    split; last first.
    { split; [|lia]. rewrite Hfm2 in Hfree'.
      destruct (decide (0 < size - chunk)) as [Hrest|Hrest].
      - assert (Hc : chunk = DISK_SECTOR_SIZE - sofs) by (unfold chunk in *; lia).
        pose proof (blocks_left_next offset size chunk ltac:(lia) ltac:(lia)
                      ltac:(lia) Hc). lia.
      - rewrite Hzero', Hfm2 by (unfold chunk in *; lia).
        pose proof (blocks_left_pos offset size ltac:(lia) ltac:(lia)). lia. }
    intros i Hi. destruct (decide (i < chunk)) as [Hic|Hic].
    + destruct (same_sector offset i ltac:(lia) ltac:(lia)
                  ltac:(fold sofs; unfold chunk in Hic; lia)) as [Hq Hrm].
      unfold file_byte. rewrite Hq, Hrm. fold b0 a sofs. rewrite Hr'.
      split; [done|]. split.
      { intros HxF. by apply HF' in HxF. }
      rewrite Hvr', Hvr2.
      pose proof (view_sized F1 st1 r Hci1) as Hs.
      unfold sector_sized, DISK_SECTOR_SIZE in *.
      rewrite lookup_memcpy by lia.
      rewrite decide_False by lia.
      rewrite length_take, length_drop.
      rewrite decide_True by (unfold chunk in *; lia).
      rewrite lookup_take_lt by (unfold chunk in *; lia).
      rewrite lookup_drop. f_equal. lia.
    + replace (offset + i) with (offset + chunk + (i - chunk)) by lia.
      replace (bw + i) with (bw + chunk + (i - chunk)) by lia.
      apply Hbytes'. lia.
  - destruct IH as (Hrest & Hfc'). split; [lia|].
    assert (Hc : chunk = DISK_SECTOR_SIZE - sofs) by (unfold chunk in *; lia).
    pose proof (blocks_left_next offset size chunk ltac:(lia) ltac:(lia)
                  ltac:(lia) Hc).
    rewrite Hfm2 in Hfc'. lia.
Qed.

Lemma MAX_FILE_SIZE_small : MAX_FILE_SIZE < 2 ^ 31.
Proof. vm_compute. done. Qed.

(** What [inode_write_at] establishes on a handle that does not deny
    writes: all [size] bytes are written, the length is the larger of the
    old length and [offset + size], and the bytes of the range are those of
    the buffer, in sectors that are no longer fragile. *)
Definition write_at_post (F : gset Z) (isec : Z) (st : state) (buffer : list Z)
    (size offset : Z) (res : result (Z * state)) : Prop :=
  match res with
  | Abort => 0 < size ∧ free_count (free_map st) < 3 * blocks_left offset size
  | Ok (n, st') =>
      ∃ F',
        n = size ∧ fs_inv F' isec st' ∧ calm F' isec st' ∧ F' ⊆ F ∧
        inodes st' = inodes st ∧
        file_length (view st') isec =
          Z.max (file_length (view st) isec) (offset + size) ∧
        (∀ x, allocated (free_map st) x → allocated (free_map st') x) ∧
        (∀ c, valid c → val (view st) isec c ≠ 0 →
           val (view st') isec c = val (view st) isec c) ∧
        (∀ i, 0 ≤ i < size →
           val (view st') isec
             (data_slot ((offset + i) `quot` DISK_SECTOR_SIZE)) ≠ 0 ∧
           (val (view st') isec
              (data_slot ((offset + i) `quot` DISK_SECTOR_SIZE)) ∉ F') ∧
           file_byte (view st') isec (offset + i) = buffer !! Z.to_nat i) ∧
        free_count (free_map st) ≤
          free_count (free_map st') + 3 * blocks_left offset size ∧
        (size = 0 → free_map st' = free_map st)
  end.

Lemma inode_write_at_spec F h ino isec buffer size offset st :
  fs_inv F isec st → calm F isec st →
  inodes st !! h = Some ino → inode_sector ino = isec →
  deny_write_cnt ino = 0 →
  0 ≤ offset → 0 ≤ size → offset + size ≤ MAX_FILE_SIZE →
  size ≤ Z.of_nat (length buffer) →
  write_at_post F isec st buffer size offset (inode_write_at h buffer size offset st).
Proof.
  intros Hinv Hcalm Hh Hsec Hdeny Hoff Hsize Hmax Hbuf.
  pose proof MAX_FILE_SIZE_small as Hsmall.
  pose proof (file_length_range (view st) isec) as HLr.
  set (L := file_length (view st) isec) in *.
  unfold inode_write_at. rewrite bind_unfold, deref_spec, Hh.
  rewrite decide_False by (rewrite Hdeny; lia).
  destruct (inode_length_spec F isec st h ino Hinv Hcalm Hh Hsec)
    as (sta & Hlen & Hinva & Hcalma & Hwa & Hvala & Hfma & Hva).
  rewrite bind_unfold, Hlen. fold L. cbv zeta.
  rewrite (off_add_id size offset) by lia.
  set (len := if decide (L < size + offset) then size + offset else L).
  assert (Hlen' : len = Z.max L (offset + size)) by (unfold len; case_decide; lia).
  pose proof Hinva as (Hcia & Hoka & Hcala).
  destruct (cache_write_spec F isec (le_bytes 4 len) OFS_LENGTH 4 sta Hcia)
    as (stb & Hwr & Hcib & Houtb & _ & Hsubb & Hvib & Hviewb);
    [unfold OFS_LENGTH, DISK_SECTOR_SIZE; lia..|].
  rewrite Hsec, bind_unfold, Hwr.
  assert (Hcib' : cache_inv F stb).
  { eapply cache_inv_mono; [|done]. intros x Hx.
    by apply elem_of_difference in Hx as [Hx _]. }
  destruct (length_step F isec sta stb Hinva Hcalma Hcib' Houtb Hsubb)
    as (Hinvb & Hcalmb & Hvalb & Hfmb & Hinob); [by eauto| |].
  { intros x Hne HxF. apply Hviewb; [done|]. by left. }
  assert (HLb : file_length (view stb) isec = len).
  { unfold file_length. rewrite Hvib.
    pose proof (view_sized F sta isec Hcia) as Hs.
    unfold sector_sized, DISK_SECTOR_SIZE in Hs.
    rewrite word_at_memcpy_same by (unfold OFS_LENGTH; lia).
    apply to_signed_id. lia. }
  assert (Hhb : inodes stb !! h = Some ino).
  { by rewrite Hinob, (walked_inodes _ _ _ _ _ Hwa). }
  pose proof (inode_write_loop_spec h ino isec buffer len (Z.to_nat size) F stb size
                offset 0 Hinvb Hcalmb Hhb Hsec HLb ltac:(lia) Hsize ltac:(lia) Hmax
                ltac:(lia) ltac:(lia)) as Hloop.
  unfold write_post, write_at_post in *.
  destruct (inode_write_loop (Z.to_nat size) h buffer len size offset 0 stb)
    as [[n st']|].
  - destruct Hloop as (F' & Hn & Hinv' & Hcalm' & HF' & Hmono' & Hval' & HL' & Hino'
                       & _ & Hbytes' & Hfree' & Hzero').
    exists F'. split; [lia|]. split; [done|]. split; [done|]. split; [done|].
    split.
    { rewrite Hino', Hinob. by eapply walked_inodes. }
    split; [rewrite HL', HLb; exact Hlen'|]. split.
    { intros x Hx. apply Hmono'. by rewrite Hfmb, Hfma. }
    split.
    { intros c Hc Hnz. rewrite Hval'; [|done|]; by rewrite Hvalb, Hvala. }
    split; [|split].
    + intros i Hi. destruct (Hbytes' i Hi) as (? & ? & Hb). split; [done|].
      split; [done|]. rewrite Hb. f_equal.
    + by rewrite <- Hfma, <- Hfmb.
    + intros Hz. by rewrite Hzero', Hfmb, Hfma.
  - destruct Hloop as [? Hfc]. split; [done|]. by rewrite <- Hfma, <- Hfmb.
Qed.

(** ** [inode_read_at] and [inode_write_at] *)

Lemma inode_read_at_spec F h ino isec size offset st :
  fs_inv F isec st → calm F isec st →
  inodes st !! h = Some ino → inode_sector ino = isec →
  0 ≤ file_length (view st) isec ≤ MAX_FILE_SIZE →
  0 ≤ offset < 2 ^ 31 → 0 ≤ size < 2 ^ 31 →
  read_post F isec st size offset 0 [] (inode_read_at h size offset st).
Proof.
  intros Hinv Hcalm Hh Hsec HL Hoff Hsize. unfold inode_read_at.
  apply (inode_read_loop_spec h ino isec); try done; lia.
Qed.

(** An index without sectors: every top-level slot of the inode holds 0. *)
Lemma blank_index_ok V bm isec :
  allocated bm 0 → allocated bm isec → Z.of_nat (length bm) ≤ 2 ^ 32 →
  (∀ a, valid a → parent a = None → word_at (V isec) (offset_of a) = 0) →
  (∀ a, valid a → val V isec a = 0) ∧ index_ok V bm isec.
Proof.
  intros H0 Hi Hlen Htop.
  assert (Hval : ∀ a, valid a → val V isec a = 0).
  { intros a Ha.
    destruct (option_cases (parent a)) as [Hp|[p Hp]].
    - rewrite val_top by done. by apply Htop.
    - pose proof (parent_valid _ _ Ha Hp) as Hvp.
      apply (val_parent_zero _ _ a p Hp).
      destruct (option_cases (parent p)) as [Hq|[q Hq]].
      + rewrite val_top by done. by apply Htop.
      + apply (val_parent_zero _ _ p q Hq). rewrite val_top.
        * apply Htop; [exact (parent_valid _ _ Hvp Hq)|].
          eapply index_parent_top; [|done]. by eapply parent_is_index.
        * eapply index_parent_top; [|done]. by eapply parent_is_index. }
  split; [done|]. split; [done|]. split; [done|]. split; [done|]. split.
  - intros a Ha Hnz. by rewrite Hval in Hnz.
  - intros a b Ha Hb Hnz. by rewrite Hval in Hnz.
Qed.

(** The state in which the only slot of the cache holds the inode sector
    that [inode_create (isec, len)] wrote. *)
Definition fresh_file (isec len : Z) (bm : list bool) (hs : gmap nat inode)
    (opens : list nat) : state :=
  mk_state ∅
    [mk_cache isec true
       (memcpy (zeros DISK_SECTOR_SIZE) 0 (fresh_inode_disk len) SIZEOF_INODE_DISK)]
    1 bm hs opens.

Lemma fresh_file_inv isec len bm hs opens :
  allocated bm 0 → allocated bm isec → Z.of_nat (length bm) ≤ 2 ^ 32 →
  fs_inv ∅ isec (fresh_file isec len bm hs opens) ∧
  (∀ a, valid a → val (view (fresh_file isec len bm hs opens)) isec a = 0) ∧
  file_length (view (fresh_file isec len bm hs opens)) isec = to_signed len.
Proof.
  intros H0 Hi Hlen.
  set (img := memcpy (zeros DISK_SECTOR_SIZE) 0 (fresh_inode_disk len)
                SIZEOF_INODE_DISK).
  assert (Hview : view (fresh_file isec len bm hs opens) isec = img).
  { unfold view, fresh_file. cbn [caches]. rewrite slot_of_cons. cbn.
    by rewrite decide_True. }
  destruct (fresh_inode_words len) as (Hw0 & _ & Hw1 & Hw2 & Hw3).
  fold img in Hw0, Hw1, Hw2, Hw3.
  destruct (blank_index_ok (view (fresh_file isec len bm hs opens)) bm isec H0 Hi Hlen)
    as [Hval Hok].
  { rewrite Hview. intros [k| |k| |i|i j] Ha Hp; try done; cbn [offset_of]; auto. }
  split; [|split; [done|]].
  - split; [|split; [done|]].
    + split; [|split; [|split; [|split]]].
      * split; [done|]. cbn. unfold CACHE_MAX. lia.
      * unfold cached, fresh_file. cbn. apply NoDup_singleton.
      * intros c Hc. apply list_elem_of_singleton in Hc as ->. cbn.
        apply memcpy_sized; [apply zeros_sized|done|done|].
        unfold SIZEOF_INODE_DISK, DISK_SECTOR_SIZE. lia.
      * intros s d Hd. cbn in Hd. by rewrite lookup_empty in Hd.
      * intros c Hc Hd. apply list_elem_of_singleton in Hc as ->. done.
    + unfold cached, fresh_file. cbn. intros x Hx.
      by apply list_elem_of_singleton in Hx as ->.
  - unfold file_length. rewrite Hview, Hw0. unfold to_signed.
    by rewrite Zplus_mod_idemp_l.
Qed.

(** ** Examples: files on the boot disk *)

(** A file of [len] bytes at inode sector 2, created and opened on the boot
    disk (29 free sectors are left). *)
Definition new_file (len : Z) : M nat :=
  free_map_allocate ;;
  inode_create 2 len ;;
  inode ← inode_open 2;
  mret (default 0%nat inode).

(** The same, with five bytes written at offset 0. *)
Definition hello : list Z := [104; 101; 108; 108; 111].

Definition hello_file : M nat :=
  inode ← new_file 0;
  inode_write_at inode hello 5 0 ;;
  mret inode.

(** A file of 512 bytes without a data sector, on a disk with no free
    sector. *)
Definition gap_on_full_disk : M nat :=
  modify (set_free_map [true; true; true]) ;;
  inode_create 2 512 ;;
  inode ← inode_open 2;
  mret (default 0%nat inode).

Lemma new_file_state len :
  0 ≤ len →
  new_file len st_boot =
    Ok (0%nat, fresh_file 2 len (true :: true :: true :: replicate 29 false)
                 {[0%nat := mk_inode 2 1 false 0]} [0%nat]).
Proof.
  intros Hlen. unfold new_file, inode_create, ASSERT.
  rewrite bool_decide_eq_true_2 by done. vm_compute. reflexivity.
Qed.

Lemma new_file_inv len :
  0 ≤ len < 2 ^ 31 →
  ∃ st, new_file len st_boot = Ok (0%nat, st) ∧
    fs_inv ∅ 2 st ∧ inodes st !! 0%nat = Some (mk_inode 2 1 false 0) ∧
    file_length (view st) 2 = len ∧ free_count (free_map st) = 29 ∧
    ∀ a, valid a → val (view st) 2 a = 0.
Proof.
  intros Hlen. eexists. split; [apply new_file_state; lia|].
  destruct (fresh_file_inv 2 len (true :: true :: true :: replicate 29 false)
              {[0%nat := mk_inode 2 1 false 0]} [0%nat]) as (Hinv & Hval & HL);
    [done|done|cbn; lia|].
  split; [done|]. split; [done|]. split; [by rewrite HL, to_signed_id by lia|].
  split; [done|]. done.
Qed.

(** ** How many bytes [inode_read_at] returns *)

(** What C5 says of a call [inode_read_at (inode, buffer, size, offset)]:
    it returns, the byte count is [min (size, max (0, length - offset))],
    that many bytes were stored, and the length is what it was. *)
Definition reads_exactly (st : state) (h : nat) (isec size offset : Z) : Prop :=
  ∃ buf st',
    inode_read_at h size offset st =
      Ok ((Z.min size (Z.max 0 (file_length (view st) isec - offset)), buf), st') ∧
    Z.of_nat (length buf) =
      Z.min size (Z.max 0 (file_length (view st) isec - offset)) ∧
    file_length (view st') isec = file_length (view st) isec.

(** C5 (evaluated on the code).  The file has 512 bytes and no data sector,
    and the disk has no free sector.  A read of one byte at offset 0 should
    return 1, or less "if an error occurs" as the comment of [inode_read_at]
    says; it returns nothing: the index walk stops at [ASSERT (success)] in
    [MODIFY_CACHE]. *)
Theorem read_on_full_disk_aborts :
  ∃ inode st, gap_on_full_disk st_boot = Ok (inode, st) ∧
    file_length (view st) 2 = 512 ∧
    inode_read_at inode 1 0 st = Abort ∧
    ¬ reads_exactly st inode 2 1 0.
Proof.
  eexists _, _. split; [vm_compute; reflexivity|].
  split; [vm_compute; reflexivity|].
  assert (H : inode_read_at 0 1 0 (state_of (gap_on_full_disk st_boot)) = Abort)
    by (vm_compute; reflexivity).
  split; [exact H|]. intros (buf & st' & Hr & _).
  set (n := Z.min 1 _) in Hr.
  change (inode_read_at 0 1 0 (state_of (gap_on_full_disk st_boot)) =
            Ok (n, buf, st')) in Hr.
  rewrite H in Hr. discriminate.
Qed.

(** X21.  The count of [inode_read_at] in general.  For an inode whose
    index is well formed and whose length is between 0 and the maximum file
    size, a call that returns gives exactly
    [min (size, max (0, length - offset))] bytes and leaves the length
    alone -- 0 at or past the end of the file, short across it; the
    assertion of [MODIFY_CACHE] can only stop it when some byte of the range
    below the length has no sector yet and the free-map has fewer than three
    free sectors per block of the range. *)
Theorem inode_read_at_count F h ino isec size offset st :
  fs_inv F isec st → calm F isec st →
  inodes st !! h = Some ino → inode_sector ino = isec →
  0 ≤ file_length (view st) isec ≤ MAX_FILE_SIZE →
  0 ≤ offset < 2 ^ 31 → 0 ≤ size < 2 ^ 31 →
  reads_exactly st h isec size offset ∨
  (inode_read_at h size offset st = Abort ∧
   offset < file_length (view st) isec ∧
   ¬ no_hole (view st) isec offset
       (Z.min size (Z.max 0 (file_length (view st) isec - offset))) ∧
   free_count (free_map st) < 3 * blocks_left offset size).
Proof.
  intros Hinv Hcalm Hh Hsec HL Hoff Hsize.
  pose proof (inode_read_at_spec F h ino isec size offset st Hinv Hcalm Hh Hsec
                HL Hoff Hsize) as H.
  unfold read_post in H. cbv zeta in H.
  unfold reads_exactly.
  destruct (inode_read_at h size offset st) as [[[n buf] st']|].
  - left. destruct H as (F' & chunk & -> & -> & Hlen & _ & _ & Hw & _).
    exists chunk, st'. split; [done|]. split; [done|].
    by eapply walked_length.
  - right. destruct H as (H1 & H2 & H3). done.
Qed.

Lemma inode_read_at_count_witness :
  reads_exactly (state_of (new_file 700 st_boot)) 0 2 1000 100 ∨
  (inode_read_at 0 1000 100 (state_of (new_file 700 st_boot)) = Abort ∧
   100 < file_length (view (state_of (new_file 700 st_boot))) 2 ∧
   ¬ no_hole (view (state_of (new_file 700 st_boot))) 2 100
       (Z.min 1000
          (Z.max 0 (file_length (view (state_of (new_file 700 st_boot))) 2 - 100))) ∧
   free_count (free_map (state_of (new_file 700 st_boot))) < 3 * blocks_left 100 1000).
Proof.
  destruct (new_file_inv 700 ltac:(lia)) as (st & Hst & Hinv & Hh & HL & _).
  rewrite Hst. cbn [state_of].
  apply (inode_read_at_count ∅ 0 (mk_inode 2 1 false 0) 2 1000 100 st Hinv
           (calm_empty 2 st) Hh eq_refl).
  - rewrite HL. vm_compute. split; discriminate.
  - lia.
  - lia.
Defined.
(** ** C3: what a read allocates *)

(** What C3 says of a call [inode_read_at (inode, buffer, size, offset)]:
    it returns, the free-map is what it was, and so is every slot of the
    index. *)
Definition reads_without_allocating (st : state) (h : nat)
    (isec size offset : Z) : Prop :=
  ∃ r st', inode_read_at h size offset st = Ok (r, st') ∧
    free_map st' = free_map st ∧
    ∀ c, valid c → val (view st') isec c = val (view st) isec c.

(** C3 fails as stated: in a file created with 512 bytes no slot holds a
    sector yet; reading its first byte takes sector 3 from the free-map and
    stores it in [direct[0]]. *)
Lemma read_of_hole_allocates :
  ∃ inode st, new_file 512 st_boot = Ok (inode, st) ∧
    val (view st) 2 (Direct 0) = 0 ∧ free_map st !! 3%nat = Some false ∧
    (∃ r st', inode_read_at inode 1 0 st = Ok (r, st') ∧
       val (view st') 2 (Direct 0) = 3 ∧ free_map st' !! 3%nat = Some true) ∧
    ¬ reads_without_allocating st inode 2 1 0.
Proof.
  eexists _, _. split; [vm_compute; reflexivity|].
  split; [vm_compute; reflexivity|]. split; [vm_compute; reflexivity|].
  split.
  - eexists _, _. split; [vm_compute; reflexivity|].
    split; vm_compute; reflexivity.
  - intros (r & st' & Hr & Hfm & _). vm_compute in Hr. injection Hr as _ <-.
    vm_compute in Hfm. discriminate.
Qed.

(** C3, amended.  A read whose bytes below the length all have a sector (no
    slot on the way to them holds 0) returns, takes nothing from the
    free-map and changes no slot of the index.  (Where a slot holds 0 the
    read path allocates as the write path does: [byte_to_sector] has one
    walk for both.) *)
Theorem inode_read_at_frame F h ino isec size offset st :
  fs_inv F isec st → calm F isec st →
  inodes st !! h = Some ino → inode_sector ino = isec →
  0 ≤ file_length (view st) isec ≤ MAX_FILE_SIZE →
  0 ≤ offset < 2 ^ 31 → 0 ≤ size < 2 ^ 31 →
  no_hole (view st) isec offset
    (Z.min size (Z.max 0 (file_length (view st) isec - offset))) →
  reads_without_allocating st h isec size offset.
Proof.
  intros Hinv Hcalm Hh Hsec HL Hoff Hsize Hno.
  pose proof (inode_read_at_spec F h ino isec size offset st Hinv Hcalm Hh Hsec
                HL Hoff Hsize) as H.
  unfold read_post in H. cbv zeta in H. unfold reads_without_allocating.
  destruct (inode_read_at h size offset st) as [[[n buf] st']|].
  - destruct H as (F' & chunk & _ & _ & _ & _ & _ & _ & H).
    destruct (H Hno) as (Hfm & -> & Hv & _).
    eexists _, _. split; [done|]. split; [done|].
    intros c Hc. apply val_stable; [done|]. intros x Hx. apply Hv.
    intros HxF. by apply (Hcalm x).
  - by destruct H as (_ & _ & H).
Qed.

Lemma hello_file_inv :
  ∃ st, hello_file st_boot = Ok (0%nat, st) ∧
    fs_inv ∅ 2 st ∧ inodes st !! 0%nat = Some (mk_inode 2 1 false 0) ∧
    file_length (view st) 2 = 5 ∧ no_hole (view st) 2 0 5.
Proof.
  destruct (new_file_inv 0 ltac:(lia)) as (st0 & Hst & Hinv & Hh & HL & Hfc & _).
  pose proof (inode_write_at_spec ∅ 0 (mk_inode 2 1 false 0) 2 hello 5 0 st0 Hinv
                (calm_empty _ _) Hh eq_refl eq_refl) as H.
  specialize (H ltac:(lia) ltac:(lia) ltac:(vm_compute; discriminate)
                ltac:(cbn; lia)).
  unfold hello_file. rewrite bind_unfold, Hst, bind_unfold.
  unfold write_at_post in H.
  destruct (inode_write_at 0 hello 5 0 st0) as [[n st]|].
  - destruct H as (F' & _ & Hinv' & _ & HF' & Hino & HL' & _ & _ & Hbytes & _).
    exists st. split; [done|].
    assert (F' = ∅) as ->.
    { apply elem_of_equiv_empty_L. intros x Hx. by apply HF' in Hx. }
    split; [done|]. split; [by rewrite Hino|]. split; [rewrite HL', HL; lia|].
    intros q Hq. replace q with (0 + q) by lia. apply Hbytes. lia.
  - destruct H as [_ H]. rewrite Hfc in H. vm_compute in H. discriminate.
Qed.

Lemma inode_read_at_frame_witness :
  reads_without_allocating (state_of (hello_file st_boot)) 0 2 3 1.
Proof.
  destruct hello_file_inv as (st & Hst & Hinv & Hh & HL & Hno).
  rewrite Hst. cbn [state_of].
  apply (inode_read_at_frame ∅ 0 (mk_inode 2 1 false 0) 2 3 1 st Hinv
           (calm_empty 2 st) Hh eq_refl).
  - rewrite HL. vm_compute. split; discriminate.
  - lia.
  - lia.
  - rewrite HL. intros q Hq. apply Hno. lia.
Defined.

(** ** Reading back what was written *)

(** X20.  Where the index is well formed and the free-map covers it
    ([fs_inv]), on a handle that does not deny writes, for a buffer of
    [size] bytes and a range within the maximum file size: when
    [inode_write_at] has returned, it has written all [size] bytes; an
    [inode_read_at] of the same range then returns [size] bytes, the bytes
    of the buffer; and the length of the inode is at least
    [offset + size]. *)
Theorem write_then_read F h ino isec buffer size offset st n st1 :
  fs_inv F isec st → calm F isec st →
  inodes st !! h = Some ino → inode_sector ino = isec →
  deny_write_cnt ino = 0 →
  0 ≤ offset → 0 ≤ size → offset + size ≤ MAX_FILE_SIZE →
  Z.of_nat (length buffer) = size →
  inode_write_at h buffer size offset st = Ok (n, st1) →
  n = size ∧
  (∃ st2, inode_read_at h size offset st1 = Ok ((size, buffer), st2)) ∧
  (∃ len st3, inode_length h st1 = Ok (len, st3) ∧ offset + size ≤ len).
Proof.
  intros Hinv Hcalm Hh Hsec Hdeny Hoff Hsize Hmax Hbuf Hwr.
  pose proof MAX_FILE_SIZE_small as Hsmall.
  pose proof (inode_write_at_spec F h ino isec buffer size offset st Hinv Hcalm
                Hh Hsec Hdeny Hoff Hsize Hmax ltac:(lia)) as H.
  rewrite Hwr in H.
  destruct H as (F1 & -> & Hinv1 & Hcalm1 & HF1 & Hino1 & HL1 & _ & _ & Hbytes & _).
  assert (Hh1 : inodes st1 !! h = Some ino) by (by rewrite Hino1).
  split; [done|]. split.
  - pose proof (inode_read_loop_spec h ino isec (Z.to_nat size) F1 st1 size offset
                  0 [] Hinv1 Hcalm1 Hh1 Hsec ltac:(lia) ltac:(lia) ltac:(lia)
                  ltac:(lia) ltac:(lia) ltac:(lia)) as H.
    unfold read_post in H. cbv zeta in H.
    replace (Z.min size (Z.max 0 (file_length (view st1) isec - offset)))
      with size in H by lia.
    assert (Hno : no_hole (view st1) isec offset size).
    { intros q Hq. replace q with (offset + (q - offset)) by lia.
      apply Hbytes. lia. }
    unfold inode_read_at.
    destruct (inode_read_loop (Z.to_nat size) h size offset 0 [] st1)
      as [[[n buf] st2]|]; [|by destruct H as (_ & _ & H)].
    destruct H as (F2 & chunk & -> & -> & Hlen & _ & _ & _ & H).
    destruct (H Hno) as (_ & _ & _ & Hchunk).
    exists st2. rewrite Z.add_0_l, app_nil_l. do 3 f_equal.
    apply list_eq. intros i.
    destruct (decide (Z.of_nat i < size)) as [Hi|Hi].
    + pose proof (Hchunk (Z.of_nat i) ltac:(lia)) as Hc.
      destruct (Hbytes (Z.of_nat i) ltac:(lia)) as (_ & HnF & Hb).
      rewrite Nat2Z.id in Hc, Hb. rewrite Hc by done. done.
    + rewrite !lookup_ge_None_2 by lia. done.
  - destruct (inode_length_spec F1 isec st1 h ino Hinv1 Hcalm1 Hh1 Hsec)
      as (st3 & Hlen & _).
    eexists _, _. split; [done|]. lia.
Qed.

Lemma write_then_read_witness :
  5 = 5 ∧
  (∃ st2, inode_read_at 0 5 0 (state_of (hello_file st_boot)) =
            Ok ((5, hello), st2)) ∧
  (∃ len st3, inode_length 0 (state_of (hello_file st_boot)) = Ok (len, st3) ∧
     0 + 5 ≤ len).
Proof.
  destruct (new_file_inv 0 ltac:(lia)) as (st & Hst & Hinv & Hh & HL & _).
  apply (write_then_read ∅ 0 (mk_inode 2 1 false 0) 2 hello 5 0 st 5
           (state_of (hello_file st_boot)) Hinv (calm_empty 2 st) Hh eq_refl eq_refl).
  - lia.
  - lia.
  - vm_compute. discriminate.
  - reflexivity.
  - rewrite new_file_state in Hst by lia. injection Hst as <-.
    vm_compute. reflexivity.
Defined.

(** Two empty files, at the inode sectors 2 and 3, both open.  One byte is
    written into the first at offset [(12 + 128 + 128) * 512], the first
    byte of the second first-level block of the double-indirect range; then
    the first file is removed and closed.  The result is the pair of
    handles. *)
Definition one_file_closed : M (nat * nat) :=
  free_map_allocate ;;
  inode_create 2 0 ;;
  free_map_allocate ;;
  inode_create 3 0 ;;
  a ← inode_open 2;
  b ← inode_open 3;
  let a := default 0%nat a in
  let b := default 0%nat b in
  inode_write_at a [1] 1 137216 ;;
  inode_remove a ;;
  inode_close (Some a) ;;
  mret (a, b).

(** C2 (evaluated on the code).  After [one_file_closed] the second file is
    open, empty and does not deny writes, and sector 0 -- the inode sector
    of the free-map -- is marked free: in the inner loop of [inode_close],
    [free_map_release (double_indirect[i], 1)] with [i = 1] released the
    content of slot 1 of the first-level block, which is 0, where slot
    [j = 0] held the data sector.  [inode_write_at] of five bytes at offset
    0 then returns 5: it was granted sector 0 for [direct[0]], stored the 0
    in the slot and the bytes in sector 0.  The [inode_read_at] of the same
    range that follows takes the 0 in [direct[0]] for an empty slot,
    allocates sector 2 and returns five zero bytes, not the bytes
    written. *)
Theorem write_then_read_after_close :
  ∃ a b st st1 st2,
    one_file_closed st_boot = Ok ((a, b), st) ∧
    inodes st !! b = Some (mk_inode 3 1 false 0) ∧
    file_length (view st) 3 = 0 ∧
    free_map st !! 0%nat = Some false ∧
    inode_write_at b hello 5 0 st = Ok (5, st1) ∧
    val (view st1) 3 (Direct 0) = 0 ∧
    bytes_at (view st1 0) 0 5 = hello ∧
    inode_read_at b 5 0 st1 = Ok ((5, [0; 0; 0; 0; 0]), st2) ∧
    val (view st2) 3 (Direct 0) = 2.
Proof.
  eexists _, _, _, _, _. split; [vm_compute; reflexivity|].
  do 7 (split; [vm_compute; reflexivity|]). vm_compute. reflexivity.
Qed.

(** ** part_001: the inode layer before file growth *)

Module Part001.

(** [struct inode_disk] of part_001 has no [dir] field: the slots start
    four bytes earlier than in inode.c. *)
Definition OFS_LENGTH : Z := 0.
Definition OFS_DIRECT : Z := 4.
Definition OFS_INDIRECT : Z := OFS_DIRECT + 4 * DIRECT_BLOCK.
Definition OFS_DOUBLE_INDIRECT : Z := OFS_INDIRECT + 4.
Definition OFS_MAGIC : Z := OFS_DOUBLE_INDIRECT + 4.

(** Modelled from the spec: part_001 calls an interface of the cache that is
    not under src/ -- [cache_find (sector, make)] for the slot of a sector,
    [cache_data] for the buffer of a slot, [cache_make_empty (sector)] for a
    zeroed slot, and [cache_read] / [cache_write] that take the slot.  A
    slot is named by its sector here.  Reading a word through
    [cache_data (cache_find (sector, true))] is the spec's
    [read (sector, off, n)]; storing a word there and setting
    [cache->dirty] is [write (sector, off, buf, n)]; [cache_make_empty] is
    [create]. *)
Definition field (sector off : Z) : M Z :=
  w ← cache_read sector off 4; mret (le_word w).

Definition set_field (sector off v : Z) : M unit :=
  cache_write sector (le_bytes 4 v) off 4.

Definition cache_make_empty (sector : Z) : M unit := cache_create sector.

(** [sector = *slot; if (sector == 0) { allocate into the slot; dirty;
    cache_make_empty }]: the step that [byte_to_sector] repeats for every
    slot on its way. *)
Definition slot_step (sector off : Z) : M Z :=
  s ← field sector off;
  if decide (s = 0) then
    success ← free_map_allocate;
    match success with
    | None => abort
    | Some p => set_field sector off p ;; cache_make_empty p ;; mret p
    end
  else mret s.

Definition byte_to_sector (inode : nat) (pos : Z) : M Z :=
  ino ← deref inode;
  let sector := inode_sector ino in
  length ← field sector OFS_LENGTH;
  if decide (pos < to_signed length) then
    let num := pos `quot` DISK_SECTOR_SIZE in
    let single := SINGLE_BLOCK in
    if decide (num < DIRECT_BLOCK) then
      slot_step sector (OFS_DIRECT + 4 * num)
    else if decide (num < DIRECT_BLOCK + single) then
      let num := num - DIRECT_BLOCK in
      sector ← slot_step sector OFS_INDIRECT;
      slot_step sector (4 * num)
    else
      let num := num - (DIRECT_BLOCK + single) in
      sector ← slot_step sector OFS_DOUBLE_INDIRECT;
      sector ← slot_step sector (4 * (num `quot` single));
      slot_step sector (4 * (num `rem` single))
  else mret (to_unsigned (-1)).

Definition inode_length (inode : nat) : M Z :=
  ino ← deref inode;
  length ← field (inode_sector ino) OFS_LENGTH;
  mret (to_signed length).

(** The [while (size > 0)] loop of [inode_write_at]; [fuel] bounds the
    number of turns as in [inode_write_loop]. *)
Fixpoint inode_write_loop (fuel : nat) (inode : nat) (buffer : list Z)
    (size offset : Z) (bytes_written : Z) : M Z :=
  match fuel with
  | O => mret bytes_written
  | S fuel =>
      if decide (size > 0) then
        sector_idx ← byte_to_sector inode offset;
        let sector_ofs := offset `rem` DISK_SECTOR_SIZE in
        length ← inode_length inode;
        let inode_left := off_sub length offset in
        let sector_left := DISK_SECTOR_SIZE - sector_ofs in
        let min_left := if decide (inode_left < sector_left)
                        then inode_left else sector_left in
        let chunk_size := if decide (size < min_left) then size else min_left in
        if decide (chunk_size ≤ 0) then mret bytes_written
        else
          cache_write sector_idx (drop (Z.to_nat bytes_written) buffer)
            sector_ofs chunk_size ;;
          inode_write_loop fuel inode buffer (off_sub size chunk_size)
            (off_add offset chunk_size) (off_add bytes_written chunk_size)
      else mret bytes_written
  end.

Definition inode_write_at (inode : nat) (buffer : list Z) (size offset : Z) : M Z :=
  ino ← deref inode;
  if decide (deny_write_cnt ino ≠ 0) then mret 0
  else inode_write_loop (Z.to_nat size) inode buffer size offset 0.

End Part001.
(** ** C10: the two write paths *)




(** * Further properties of the code *)

(** ** cache.c: transfers *)

Lemma st_boot_inv : cache_inv ∅ st_boot.
Proof.
  split; [apply st_boot_count_ok|]. split; [apply NoDup_nil_2|].
  split; [by intros c Hc; apply elem_of_nil in Hc|].
  split; [by intros s d Hd|]. by intros c Hc; apply elem_of_nil in Hc.
Qed.

(** X1.  What [cache_write] stores, [cache_read] returns: after a write of
    [size] bytes at [off] of a sector, a read of the same range returns the
    first [size] bytes of the buffer, and the sectors outside the fragile
    set [F] other than the written one show what they showed. *)
Theorem cache_write_then_read F sector buf off size st :
  cache_inv F st → 0 ≤ off → 0 < size → off + size ≤ DISK_SECTOR_SIZE →
  size ≤ Z.of_nat (length buf) →
  ∃ st1 st2,
    cache_write sector buf off size st = Ok (tt, st1) ∧
    cache_read sector off size st1 = Ok (take (Z.to_nat size) buf, st2) ∧
    ∀ x, x ≠ sector → x ∉ F → view st2 x = view st x.
Proof.
  intros Hinv Ho Hs Hb Hbuf.
  destruct (cache_write_spec F sector buf off size st Hinv Ho Hs Hb)
    as (st1 & Hw & Hinv1 & _ & _ & _ & Hv1 & Hother1).
  destruct (cache_read_spec _ sector off size st1 Hinv1 Ho Hs Hb)
    as (st2 & Hr & _ & _ & _ & _ & Hother2).
  exists st1, st2. split; [done|]. split.
  - rewrite Hr, Hv1. do 2 f_equal.
    pose proof (view_sized F st sector Hinv) as Hsz.
    unfold sector_sized in Hsz.
    apply bytes_at_memcpy_same; unfold DISK_SECTOR_SIZE in *; lia.
  - intros x Hne HF. rewrite Hother2, Hother1; [done|done|by left|].
    left. intros Hx. by apply elem_of_difference in Hx as [? _].
Qed.

Lemma cache_write_then_read_witness :
  ∃ st1 st2,
    cache_write 7 [1; 2; 3] 10 3 st_boot = Ok (tt, st1) ∧
    cache_read 7 10 3 st1 = Ok (take (Z.to_nat 3) [1; 2; 3], st2) ∧
    ∀ x, x ≠ 7 → x ∉ (∅ : gset Z) → view st2 x = view st_boot x.
Proof.
  apply (cache_write_then_read ∅ 7 [1; 2; 3] 10 3 st_boot st_boot_inv).
  - lia.
  - lia.
  - vm_compute. discriminate.
  - simpl. lia.
Defined.

(** X2.  The guards of a transfer: a transfer of no bytes returns at once
    and changes nothing, and a transfer that would leave the sector trips
    [ASSERT (off + size <= DISK_SECTOR_SIZE)]. *)
Theorem cache_transfer_guard sector buf off size st :
  0 ≤ off → 0 ≤ size → off + size < 2 ^ 32 →
  (size = 0 → off ≤ DISK_SECTOR_SIZE →
     cache_read sector off size st = Ok ([], st) ∧
     cache_write sector buf off size st = Ok (tt, st)) ∧
  (DISK_SECTOR_SIZE < off + size →
     cache_read sector off size st = Abort ∧
     cache_write sector buf off size st = Abort).
Proof.
  intros Ho Hs Hlt.
  assert (Hu : to_unsigned (off + size) = off + size).
  { unfold to_unsigned. apply Z.mod_small. lia. }
  split.
  - intros -> Hle. unfold cache_read, cache_write, ASSERT, in_sector.
    rewrite Hu, bool_decide_eq_true_2 by lia. split; reflexivity.
  - intros Hgt. unfold cache_read, cache_write, ASSERT, in_sector.
    rewrite Hu, bool_decide_eq_false_2 by lia. split; reflexivity.
Qed.

Lemma cache_transfer_guard_witness :
  (0 = 0 → 512 ≤ DISK_SECTOR_SIZE →
     cache_read 7 512 0 st_boot = Ok ([], st_boot) ∧
     cache_write 7 [] 512 0 st_boot = Ok (tt, st_boot)) ∧
  (DISK_SECTOR_SIZE < 512 + 0 →
     cache_read 7 512 0 st_boot = Abort ∧
     cache_write 7 [] 512 0 st_boot = Abort).
Proof.
  apply (cache_transfer_guard 7 [] 512 0 st_boot); lia.
Defined.

(** X3.  A transfer moves the slot of its sector to the front of the list
    (the most recently used end), whatever the state. *)
Theorem cache_read_moves_to_front sector off size st buf st' :
  size ≠ 0 → cache_read sector off size st = Ok (buf, st') →
  ∃ c rest, caches st' = c :: rest ∧ cache_sector c = sector.
Proof.
  intros Hsz. unfold cache_read. mrun.
  destruct (in_sector off size); [|done]. mrun.
  rewrite decide_False by done.
  destruct (list_find (λ c, cache_sector c = sector) (caches st))
    as [[j c]|] eqn:Hf.
  - rewrite (cache_lookup_hit _ _ _ _ _ Hf).
    pose proof Hf as (Hj & Hc & _)%list_find_Some.
    cbn. rewrite Hj. cbn. destruct (in_bounds off size); [|done].
    unfold touch. mrun. intros [= _ <-]. cbn. eauto.
  - rewrite (cache_lookup_miss _ _ Hf).
    destruct (cache_make sector true st) as [[i st1]|] eqn:Hm; [|done].
    assert (Hfront : i = 0%nat ∧ ∃ c rest, caches st1 = c :: rest ∧ cache_sector c = sector).
    { revert Hm. unfold cache_make. mrun.
      destruct (decide (cache_count st = CACHE_MAX)).
      - destruct (cache_evict st) as [[[] st0]|]; [|done].
        mrun. intros [= <- <-]. cbn. eauto.
      - mrun. intros [= <- <-]. cbn. eauto. }
    destruct Hfront as (-> & c & rest & Hc & Hs).
    cbn. rewrite Hc. cbn. destruct (in_bounds off size); [|done].
    unfold touch. mrun. intros [= _ <-]. cbn. eauto.
Qed.

Lemma cache_read_moves_to_front_witness :
  ∃ c rest,
    caches (state_of (cache_read 0 0 4 full_cache)) = c :: rest ∧
    cache_sector c = 0.
Proof.
  apply (cache_read_moves_to_front 0 0 4 full_cache
           (default [] (value_of (cache_read 0 0 4 full_cache)))).
  - discriminate.
  - vm_compute. reflexivity.
Defined.
(** ** cache.c: flushing, shutting down, removing *)








(** ** inode.c: the handles *)

(** The handle that [inode_open] returns is live and names the sector. *)
Lemma inode_open_twice_sector sector st h st1 :
  inode_open sector st = Ok (Some h, st1) →
  ∃ ino, inodes st1 !! h = Some ino ∧ inode_sector ino = sector.
Proof.
  assert (Hscan : ∀ l st0 e st0', inode_open_scan sector l st0 = Ok (Some e, st0') →
            ∃ ino, inodes st0 !! e = Some ino ∧ inode_sector ino = sector).
  { induction l as [|x l IH]; intros st0 e st0'; [done|].
    cbn [inode_open_scan]. rewrite bind_unfold, deref_spec.
    destruct (inodes st0 !! x) as [inox|] eqn:Hx; [|done].
    destruct (decide (inode_sector inox = sector)) as [Hm|Hm]; [|by apply IH].
    rewrite inode_reopen_spec, Hx. intros [= <- _]. eauto. }
  unfold inode_open. mrun.
  destruct (inode_open_scan sector (open_inodes st) st) as [[found st0]|] eqn:Hs;
    [|done].
  destruct found as [e|].
  - intros [= -> ->]. destruct (Hscan _ _ _ _ Hs) as (ino & He & Hsec).
    apply inode_open_scan_inv in Hs as [[? _]|(e & ino' & [= <-] & He' & ->)];
      [done|].
    cbn. rewrite lookup_insert_eq. rewrite He in He'. injection He' as <-. eauto.
  - apply inode_open_scan_inv in Hs as [[_ ->]|(? & ? & ? & _)]; [|done].
    unfold malloc_inode, store. mrun. intros [= <- <-]. cbn.
    rewrite lookup_insert_eq. eauto.
Qed.

(** X7.  Opening a sector twice gives the same [struct inode]: the second
    [inode_open] returns the handle of the first and counts one more
    opener. *)
Theorem inode_open_twice_shares sector st h st1 :
  inode_open sector st = Ok (Some h, st1) →
  ∃ ino st2, inodes st1 !! h = Some ino ∧ inode_sector ino = sector ∧
    inode_open sector st1 = Ok (Some h, st2) ∧
    inodes st2 = <[h := with_open_cnt (off_add (open_cnt ino) 1) ino]> (inodes st1) ∧
    open_inodes st2 = open_inodes st1.
Proof.
  assert (Hscan : ∀ l (hs : gmap nat inode) st0 e ino st0',
            inodes st0 = hs →
            inode_open_scan sector l st0 = Ok (Some e, st0') →
            hs !! e = Some ino →
            ∀ st3 ino', inodes st3 = <[e := ino']> hs →
              inode_sector ino' = inode_sector ino →
              inode_sector ino = sector ∧
              inode_open_scan sector l st3 =
                Ok (Some e, set_inodes
                     (<[e := with_open_cnt (off_add (open_cnt ino') 1) ino']>
                        (<[e := ino']> hs)) st3)).
  { induction l as [|x l IH]; intros hs st0 e ino st0' Hhs Hs He st3 ino' H3 Hsec;
      [done|].
    revert Hs. cbn [inode_open_scan]. rewrite !bind_unfold, !deref_spec.
    rewrite Hhs, H3.
    destruct (hs !! x) as [inox|] eqn:Hx; [|done].
    destruct (decide (x = e)) as [->|Hne].
    - rewrite lookup_insert_eq. rewrite He in Hx. injection Hx as <-.
      destruct (decide (inode_sector ino = sector)) as [Hm|Hm].
      + rewrite decide_True by congruence. intros _. split; [done|].
        rewrite inode_reopen_spec, H3, lookup_insert_eq. done.
      + rewrite decide_False by congruence. intros Hs.
        eapply (IH hs st0); done.
    - rewrite lookup_insert_ne by done. rewrite Hx.
      destruct (decide (inode_sector inox = sector)) as [Hm|Hm].
      + rewrite inode_reopen_spec, Hhs, Hx. intros [= -> _]. done.
      + intros Hs. eapply (IH hs st0); done. }
  unfold inode_open. mrun.
  destruct (inode_open_scan sector (open_inodes st) st) as [[found st0]|] eqn:Hs;
    [|done].
  destruct found as [e|].
  - intros [= -> ->].
    pose proof Hs as [[? _]|(e & ino & [= <-] & He & ->)]%inode_open_scan_inv;
      [done|].
    set (ino' := with_open_cnt (off_add (open_cnt ino) 1) ino).
    destruct (Hscan (open_inodes st) (inodes st) st h ino _ eq_refl Hs He
                (set_inodes (<[h := ino']> (inodes st)) st) ino' eq_refl eq_refl)
      as [Hsec Hs2].
    exists ino'. eexists. split; [by cbn; rewrite lookup_insert_eq|].
    split; [done|]. cbn [open_inodes set_inodes]. rewrite Hs2.
    split; [reflexivity|]. done.
  - apply inode_open_scan_inv in Hs as [[_ ->]|(? & ? & ? & _)]; [|done].
    unfold malloc_inode, store. mrun. intros [= <- <-].
    cbn [open_inodes set_open_inodes set_inodes inodes inode_open_scan].
    set (h := fresh (dom (inodes st))).
    exists (mk_inode sector 1 false 0). eexists.
    split; [by rewrite lookup_insert_eq|]. split; [done|].
    rewrite bind_unfold, deref_spec. cbn [inodes set_inodes set_open_inodes].
    rewrite lookup_insert_eq. cbn [inode_sector]. rewrite decide_True by done.
    rewrite inode_reopen_spec. cbn [inodes set_inodes set_open_inodes].
    rewrite lookup_insert_eq. split; [reflexivity|]. done.
Qed.

Lemma inode_open_twice_shares_witness :
  ∃ ino st2,
    inodes (state_of (inode_open 2 st_boot)) !! 0%nat = Some ino ∧
    inode_sector ino = 2 ∧
    inode_open 2 (state_of (inode_open 2 st_boot)) = Ok (Some 0%nat, st2) ∧
    inodes st2 = <[0%nat := with_open_cnt (off_add (open_cnt ino) 1) ino]>
                   (inodes (state_of (inode_open 2 st_boot))) ∧
    open_inodes st2 = open_inodes (state_of (inode_open 2 st_boot)).
Proof.
  apply (inode_open_twice_shares 2 st_boot 0%nat (state_of (inode_open 2 st_boot))).
  vm_compute. reflexivity.
Defined.
Lemma inode_reopen_frame o : preserves outside_handles (inode_reopen o).
Proof. unfold inode_reopen, deref, store. frame. Qed.
#[export] Hint Resolve inode_reopen_frame : frame.

Lemma inode_open_scan_frame sector l :
  preserves outside_handles (inode_open_scan sector l).
Proof. induction l as [|e l IH]; cbn [inode_open_scan]; unfold deref; frame. Qed.
#[export] Hint Resolve inode_open_scan_frame : frame.

Lemma inode_open_frame sector : preserves outside_handles (inode_open sector).
Proof. unfold inode_open, malloc_inode, store. frame. Qed.

Lemma inode_remove_frame h : preserves outside_handles (inode_remove h).
Proof. unfold inode_remove, deref, store. frame. Qed.

Lemma inode_deny_write_frame h : preserves outside_handles (inode_deny_write h).
Proof. unfold inode_deny_write, deref, store. frame. Qed.

Lemma inode_allow_write_frame h : preserves outside_handles (inode_allow_write h).
Proof. unfold inode_allow_write, deref, store. frame. Qed.

Lemma inode_get_inumber_frame h : preserves outside_handles (inode_get_inumber h).
Proof. unfold inode_get_inumber, deref. frame. Qed.

(** The view and the cache invariant depend on the disk and the cache
    only. *)
Lemma view_outside_handles st st' :
  outside_handles st' = outside_handles st → view st' = view st.
Proof. unfold outside_handles, view. intros [= Hd Hc _ _]. by rewrite Hd, Hc. Qed.

Lemma cache_inv_outside_handles F st st' :
  outside_handles st' = outside_handles st → cache_inv F st → cache_inv F st'.
Proof.
  unfold outside_handles. intros [= Hd Hc Hn _].
  unfold cache_inv, count_ok, cached. by rewrite Hd, Hc, Hn.
Qed.

(** The open list is well formed: every entry is a live [struct inode]. *)
Definition open_list_ok (st : state) : Prop :=
  Forall (λ e, is_Some (inodes st !! e)) (open_inodes st).

Lemma inode_open_scan_total sector l st :
  Forall (λ e, is_Some (inodes st !! e)) l →
  ∃ r st', inode_open_scan sector l st = Ok (r, st').
Proof.
  induction 1 as [|e l [ino He] _ IH]; [by eexists _, _|].
  cbn [inode_open_scan]. rewrite bind_unfold, deref_spec, He.
  destruct (decide (inode_sector ino = sector)); [|done].
  rewrite inode_reopen_spec, He. by eexists _, _.
Qed.

Lemma inode_open_total sector st :
  open_list_ok st →
  ∃ h ino st', inode_open sector st = Ok (Some h, st') ∧
    inodes st' !! h = Some ino ∧ inode_sector ino = sector ∧
    outside_handles st' = outside_handles st.
Proof.
  intros Hok. destruct (inode_open_scan_total sector _ _ Hok) as (r & st1 & Hs).
  assert (∃ h st', inode_open sector st = Ok (Some h, st')) as (h & st' & Ho).
  { unfold inode_open. mrun. rewrite Hs. destruct r; by eexists _, _. }
  destruct (inode_open_twice_sector sector st h st' Ho) as (ino & Hh & Hsec).
  exists h, ino, st'. split; [done|]. split; [done|]. split; [done|].
  by eapply inode_open_frame.
Qed.
(** [inode_create] on a sector that has no slot yet: the slot holds the
    fresh inode, and everything else is as it was. *)
Lemma inode_create_fresh F sector len st :
  cache_inv F st → sector ∉ cached st → sector ≠ 0 → 0 ≤ len →
  ∃ st', inode_create sector len st = Ok (true, st') ∧
    cache_inv F st' ∧ outside_cache st' = outside_cache st ∧
    view st' sector =
      memcpy (zeros DISK_SECTOR_SIZE) 0 (fresh_inode_disk len) SIZEOF_INODE_DISK ∧
    (∀ x, x ∈ cached st' → x = sector ∨ x ∈ cached st) ∧
    (∀ x, x ≠ sector → x ∉ F → view st' x = view st x).
Proof.
  intros Hinv Hfresh Hne Hlen.
  destruct (cache_create_spec F sector st Hinv Hfresh)
    as (st1 & Hc & Hinv1 & Hout1 & Hin1 & Hsub1 & Hv1 & Hother1).
  destruct (cache_write_spec _ sector (fresh_inode_disk len) 0 SIZEOF_INODE_DISK
              st1 Hinv1)
    as (st2 & Hw & Hinv2 & Hout2 & _ & Hsub2 & Hv2 & Hother2);
    [unfold SIZEOF_INODE_DISK, DISK_SECTOR_SIZE; lia..|].
  exists st2. split.
  { unfold inode_create, ASSERT. rewrite bool_decide_eq_true_2 by done. mrun.
    rewrite decide_False by done. mrun. rewrite Hc.
    fold (fresh_inode_disk len). by rewrite Hw. }
  split.
  { eapply cache_inv_mono; [|done]. intros x Hx.
    apply elem_of_difference in Hx as [Hx Hn].
    apply elem_of_union in Hx as [Hx|Hx]; done. }
  split; [congruence|]. split; [by rewrite Hv2, Hv1|]. split.
  { intros x Hx. destruct (Hsub2 x Hx) as [->|Hx1]; [by left|]. auto. }
  intros x Hx HF. rewrite Hother2, Hother1; [done|done|by left|done|].
  by right; left.
Qed.

(** X8.  The length given to [inode_create] is the length that
    [inode_length] reports through a handle opened afterwards, and
    [inode_get_inumber] reports the sector. *)
Theorem inode_create_then_length F sector len st :
  cache_inv F st → sector ∉ cached st → sector ≠ 0 → 0 ≤ len < 2 ^ 31 →
  open_list_ok st →
  ∃ st1 h st2 st3,
    inode_create sector len st = Ok (true, st1) ∧
    inode_open sector st1 = Ok (Some h, st2) ∧
    inode_length h st2 = Ok (len, st3) ∧
    inode_get_inumber h st2 = Ok (sector, st2).
Proof.
  intros Hinv Hfresh Hne Hlen Hopen.
  destruct (inode_create_fresh F sector len st Hinv Hfresh Hne ltac:(lia))
    as (st1 & Hc & Hinv1 & Hout1 & Hv1 & _).
  assert (Hopen1 : open_list_ok st1).
  { unfold open_list_ok, outside_cache in *. by injection Hout1 as _ -> ->. }
  destruct (inode_open_total sector st1 Hopen1) as (h & ino & st2 & Ho & Hh & Hsec & Hout2).
  pose proof (cache_inv_outside_handles F _ _ Hout2 Hinv1) as Hinv2.
  destruct (cache_read_spec F sector OFS_LENGTH 4 st2 Hinv2)
    as (st3 & Hr & _); [unfold OFS_LENGTH, DISK_SECTOR_SIZE; lia..|].
  exists st1, h, st2, st3. split; [done|]. split; [done|]. split.
  - unfold inode_length. rewrite bind_unfold, deref_spec, Hh, Hsec.
    rewrite bind_unfold, Hr. unfold mret, M_ret. do 2 f_equal.
    rewrite (view_outside_handles _ _ Hout2), Hv1.
    destruct (fresh_inode_words len) as (Hw & _). cbv zeta in Hw.
    fold (word_at (memcpy (zeros DISK_SECTOR_SIZE) 0 (fresh_inode_disk len)
                     SIZEOF_INODE_DISK) OFS_LENGTH).
    rewrite Hw. unfold to_signed. rewrite Zplus_mod_idemp_l.
    rewrite Z.mod_small by lia. lia.
  - unfold inode_get_inumber. by rewrite bind_unfold, deref_spec, Hh, Hsec.
Qed.

Lemma st_boot_open_list_ok : open_list_ok st_boot.
Proof. apply Forall_nil_2. Qed.

Lemma inode_create_then_length_witness :
  ∃ st1 h st2 st3,
    inode_create 2 700 st_boot = Ok (true, st1) ∧
    inode_open 2 st1 = Ok (Some h, st2) ∧
    inode_length h st2 = Ok (700, st3) ∧
    inode_get_inumber h st2 = Ok (2, st2).
Proof.
  apply (inode_create_then_length ∅ 2 700 st_boot st_boot_inv).
  - apply not_elem_of_nil.
  - discriminate.
  - lia.
  - exact st_boot_open_list_ok.
Defined.

(** X9.  [inode_deny_write] and [inode_allow_write] are inverse to each
    other while fewer openers deny writes than there are openers; at the
    limits the assertions fire: denying once more than there are openers
    aborts, and so does allowing when nobody denies. *)
Theorem inode_deny_allow_round_trip h ino st :
  inodes st !! h = Some ino →
  0 ≤ deny_write_cnt ino ≤ open_cnt ino → open_cnt ino < 2 ^ 31 - 1 →
  (deny_write_cnt ino < open_cnt ino →
     ∃ st1, inode_deny_write h st = Ok (tt, st1) ∧
       inodes st1 !! h = Some (with_deny_write_cnt (deny_write_cnt ino + 1) ino) ∧
       inode_allow_write h st1 = Ok (tt, st)) ∧
  (deny_write_cnt ino = open_cnt ino → inode_deny_write h st = Abort) ∧
  (deny_write_cnt ino = 0 → inode_allow_write h st = Abort).
Proof.
  intros Hh Hd Ho. split; [|split].
  - intros Hlt. unfold inode_deny_write, inode_allow_write, store, ASSERT.
    rewrite bind_unfold, deref_spec, Hh. mrun. cbn.
    rewrite (off_add_id (deny_write_cnt ino) 1) by lia.
    rewrite bool_decide_eq_true_2 by lia.
    eexists. split; [reflexivity|]. cbn. rewrite lookup_insert_eq.
    split; [done|]. rewrite deref_spec. cbn. rewrite lookup_insert_eq. cbn.
    rewrite bool_decide_eq_true_2 by lia. rewrite bool_decide_eq_true_2 by lia.
    rewrite off_sub_id by lia.
    replace (deny_write_cnt ino + 1 - 1) with (deny_write_cnt ino) by lia.
    destruct st as [d cs n bm hs os]. cbn [inodes set_inodes] in *.
    rewrite insert_insert_eq, insert_id; [done|].
    rewrite Hh. by destruct ino.
  - intros Heq. unfold inode_deny_write, store, ASSERT.
    rewrite bind_unfold, deref_spec, Hh. mrun. cbn.
    rewrite (off_add_id (deny_write_cnt ino) 1) by lia.
    by rewrite bool_decide_eq_false_2 by lia.
  - intros Hz. unfold inode_allow_write, ASSERT.
    rewrite bind_unfold, deref_spec, Hh. mrun.
    by rewrite bool_decide_eq_false_2 by lia.
Qed.

Lemma inode_deny_allow_round_trip_witness :
  (deny_write_cnt (mk_inode 2 1 false 0) < open_cnt (mk_inode 2 1 false 0) →
     ∃ st1, inode_deny_write 0 (state_of (inode_open 2 st_boot)) = Ok (tt, st1) ∧
       inodes st1 !! 0%nat =
         Some (with_deny_write_cnt (deny_write_cnt (mk_inode 2 1 false 0) + 1)
                 (mk_inode 2 1 false 0)) ∧
       inode_allow_write 0 st1 = Ok (tt, state_of (inode_open 2 st_boot))) ∧
  (deny_write_cnt (mk_inode 2 1 false 0) = open_cnt (mk_inode 2 1 false 0) →
     inode_deny_write 0 (state_of (inode_open 2 st_boot)) = Abort) ∧
  (deny_write_cnt (mk_inode 2 1 false 0) = 0 →
     inode_allow_write 0 (state_of (inode_open 2 st_boot)) = Abort).
Proof.
  apply (inode_deny_allow_round_trip 0 (mk_inode 2 1 false 0)
           (state_of (inode_open 2 st_boot))).
  - vm_compute. reflexivity.
  - simpl. lia.
  - simpl. lia.
Defined.

(** X10.  [inode_reopen] followed by [inode_close] leaves the state as it
    was; both ignore the null pointer. *)
Theorem inode_reopen_close_round_trip h ino st :
  inodes st !! h = Some ino → 1 ≤ open_cnt ino < 2 ^ 31 - 1 →
  (inode_reopen (Some h) ;; inode_close (Some h)) st = Ok (tt, st) ∧
  inode_reopen None st = Ok (None, st) ∧
  inode_close None st = Ok (tt, st).
Proof.
  intros Hh Hcnt. split; [|done].
  rewrite bind_unfold, inode_reopen_spec, Hh.
  unfold inode_close, store. rewrite bind_unfold, deref_spec. cbn.
  rewrite lookup_insert_eq. mrun. cbn.
  rewrite (off_add_id (open_cnt ino) 1) by lia.
  rewrite off_sub_id by lia. rewrite decide_False by lia. mrun.
  replace (open_cnt ino + 1 - 1) with (open_cnt ino) by lia.
  destruct st as [d cs n bm hs os]. cbn [inodes set_inodes] in *.
  rewrite insert_insert_eq, insert_id; [done|].
  rewrite Hh. by destruct ino.
Qed.

Lemma inode_reopen_close_round_trip_witness :
  (inode_reopen (Some 0%nat) ;; inode_close (Some 0%nat))
    (state_of (inode_open 2 st_boot)) = Ok (tt, state_of (inode_open 2 st_boot)) ∧
  inode_reopen None (state_of (inode_open 2 st_boot)) =
    Ok (None, state_of (inode_open 2 st_boot)) ∧
  inode_close None (state_of (inode_open 2 st_boot)) =
    Ok (tt, state_of (inode_open 2 st_boot)).
Proof.
  apply (inode_reopen_close_round_trip 0 (mk_inode 2 1 false 0)
           (state_of (inode_open 2 st_boot))).
  - vm_compute. reflexivity.
  - simpl. lia.
Defined.

(** X11.  The last [inode_close] of an inode that was not removed frees the
    handle and takes it off the open list; the disk, the cache and the
    free-map are as they were. *)
Theorem inode_close_last_opener h ino st :
  inodes st !! h = Some ino → open_cnt ino = 1 → removed ino = false →
  ∃ st', inode_close (Some h) st = Ok (tt, st') ∧
    inodes st' = delete h (inodes st) ∧
    open_inodes st' = filter (λ e, e ≠ h) (open_inodes st) ∧
    outside_handles st' = outside_handles st.
Proof.
  intros Hh Hcnt Hrem. unfold inode_close, store.
  rewrite bind_unfold, deref_spec, Hh. mrun. rewrite Hcnt, Hrem.
  rewrite decide_True by done. mrun. eexists. split; [reflexivity|]. cbn.
  split; [apply delete_insert_eq|]. done.
Qed.

Lemma inode_close_last_opener_witness :
  ∃ st', inode_close (Some 0%nat) (state_of (inode_open 2 st_boot)) = Ok (tt, st') ∧
    inodes st' = delete 0%nat (inodes (state_of (inode_open 2 st_boot))) ∧
    open_inodes st' =
      filter (λ e, e ≠ 0%nat) (open_inodes (state_of (inode_open 2 st_boot))) ∧
    outside_handles st' = outside_handles (state_of (inode_open 2 st_boot)).
Proof.
  apply (inode_close_last_opener 0 (mk_inode 2 1 false 0)
           (state_of (inode_open 2 st_boot))); vm_compute; reflexivity.
Defined.
(** ** inode.c: reading and writing *)



(** X13.  A write of no bytes still stores the length: at an offset past
    the end it raises the length to [offset], without taking a sector and
    without changing a slot. *)
Theorem inode_write_at_nothing_extends F h ino isec buffer offset st :
  fs_inv F isec st → calm F isec st →
  inodes st !! h = Some ino → inode_sector ino = isec →
  deny_write_cnt ino = 0 → 0 ≤ offset ≤ MAX_FILE_SIZE →
  ∃ st', inode_write_at h buffer 0 offset st = Ok (0, st') ∧
    file_length (view st') isec = Z.max (file_length (view st) isec) offset ∧
    free_map st' = free_map st.
Proof.
  intros Hinv Hcalm Hh Hsec Hdeny Hoff.
  pose proof (inode_write_at_spec F h ino isec buffer 0 offset st Hinv Hcalm
                Hh Hsec Hdeny ltac:(lia) ltac:(lia) ltac:(lia) ltac:(lia)) as H.
  unfold write_at_post in H.
  destruct (inode_write_at h buffer 0 offset st) as [[n st']|]; [|lia].
  destruct H as (F' & -> & _ & _ & _ & _ & HL & _ & _ & _ & _ & Hfm).
  exists st'. split; [done|]. rewrite Z.add_0_r in HL. auto.
Qed.

Lemma inode_write_at_nothing_extends_witness :
  ∃ st', inode_write_at 0 [] 0 100 (state_of (new_file 0 st_boot)) = Ok (0, st') ∧
    file_length (view st') 2 =
      Z.max (file_length (view (state_of (new_file 0 st_boot))) 2) 100 ∧
    free_map st' = free_map (state_of (new_file 0 st_boot)).
Proof.
  destruct (new_file_inv 0 ltac:(lia)) as (st & Hst & Hinv & Hh & HL & Hfc & _).
  rewrite Hst. cbn [state_of].
  apply (inode_write_at_nothing_extends ∅ 0 (mk_inode 2 1 false 0) 2 [] 100 st Hinv
           (calm_empty 2 st) Hh eq_refl eq_refl).
  vm_compute. split; discriminate.
Defined.

(** X14.  The fuel of the read loop is enough: with [size] turns or more the
    loop gives the result of the [while] loop, whatever the state; every
    turn that goes on lowers [size] by at least one. *)
Theorem inode_read_loop_fuel fuel : ∀ h size offset br buf st,
  0 ≤ size < 2 ^ 31 → size ≤ Z.of_nat fuel →
  inode_read_loop (S fuel) h size offset br buf st =
    inode_read_loop fuel h size offset br buf st.
Proof.
  induction fuel as [|fuel IH]; intros h size offset br buf st Hsize Hfuel.
  { cbn [inode_read_loop]. by rewrite decide_False by lia. }
  change (inode_read_loop (S (S fuel)) h size offset br buf st) with
    ((if decide (size > 0) then
        sector_idx ← byte_to_sector h offset;
        let sector_ofs := offset `rem` DISK_SECTOR_SIZE in
        length ← inode_length h;
        let inode_left := off_sub length offset in
        let sector_left := DISK_SECTOR_SIZE - sector_ofs in
        let min_left := if decide (inode_left < sector_left)
                        then inode_left else sector_left in
        let chunk_size := if decide (size < min_left) then size else min_left in
        if decide (chunk_size ≤ 0) then mret (br, buf)
        else
          chunk ← cache_read sector_idx sector_ofs chunk_size;
          inode_read_loop (S fuel) h (off_sub size chunk_size)
            (off_add offset chunk_size) (off_add br chunk_size) (buf ++ chunk)
      else mret (br, buf)) st).
  cbn [inode_read_loop].
  destruct (decide (size > 0)) as [Hpos|]; [|done].
  rewrite !bind_unfold.
  destruct (byte_to_sector h offset st) as [[r st1]|]; [|done].
  rewrite !bind_unfold.
  destruct (inode_length h st1) as [[len st2]|]; [|done].
  cbv zeta.
  set (chunk := if decide (size < _) then size else _).
  destruct (decide (chunk ≤ 0)) as [|Hc]; [done|].
  rewrite !bind_unfold.
  destruct (cache_read r (offset `rem` DISK_SECTOR_SIZE) chunk st2)
    as [[bs st3]|]; [|done].
  assert (Hle : chunk ≤ size) by (unfold chunk; repeat case_decide; lia).
  rewrite (off_sub_id size chunk) by lia.
  apply IH; lia.
Qed.

Lemma inode_read_loop_fuel_witness :
  inode_read_loop (S 5) 0 5 0 0 [] (state_of (hello_file st_boot)) =
    inode_read_loop 5 0 5 0 0 [] (state_of (hello_file st_boot)).
Proof. apply (inode_read_loop_fuel 5 0 5 0 0 []); simpl; lia. Defined.
(** ** inode.c: what the last [inode_close] releases *)

(** [keeps P m]: when [m] returns from a state with [P], [P] holds
    afterwards. *)
Definition keeps {A} (P : state → Prop) (m : M A) : Prop :=
  ∀ st a st', P st → m st = Ok (a, st') → P st'.

Section Keeps.
Context (P : state → Prop).

Lemma keeps_ret {A} (a : A) : keeps P (mret a).
Proof. intros st a' st' HP [= _ <-]. done. Qed.

Lemma keeps_bind {A C} (m : M A) (k : A → M C) :
  keeps P m → (∀ a, keeps P (k a)) → keeps P (m ≫= k).
Proof.
  intros Hm Hk st c st' HP. rewrite bind_unfold.
  destruct (m st) as [[a st1]|] eqn:E; [|done]. intros H.
  eapply Hk; [|done]. eapply Hm; done.
Qed.

Lemma keeps_for_each l (body : Z → M unit) :
  (∀ i, keeps P (body i)) → keeps P (for_each l body).
Proof.
  intros Hb. induction l as [|i l IH]; simpl.
  - apply keeps_ret.
  - apply keeps_bind; auto.
Qed.

Lemma keeps_if_dec {A} {Q : Prop} (d : {Q} + {¬ Q}) (m1 m2 : M A) :
  keeps P m1 → keeps P m2 → keeps P (if d then m1 else m2).
Proof. by destruct d. Qed.

(** What depends on the free-map only is kept by the cache. *)
Lemma keeps_outside_cache {A} (m : M A) :
  (∀ st st', free_map st' = free_map st → P st → P st') →
  preserves outside_cache m → keeps P m.
Proof.
  intros Hfm Hm st a st' HP H. apply Hm in H. eapply Hfm; [|done].
  unfold outside_cache in H. congruence.
Qed.
End Keeps.

(** Solves [keeps P m] for straight-line code: [Hrel] is for
    [free_map_release], [Hc] for the calls of the cache. *)
Ltac keeps_step Hrel Hc :=
  lazymatch goal with
  | |- keeps _ (mret _) => apply keeps_ret
  | |- keeps _ (free_map_release _) => apply Hrel
  | |- keeps _ (mbind _ _) => apply keeps_bind; [|intros ?]
  | |- keeps _ (for_each _ _) => apply keeps_for_each; intros ?
  | |- keeps _ (if decide _ then _ else _) => apply keeps_if_dec
  | |- keeps _ (let _ := _ in _) => cbv zeta
  | |- keeps _ _ => apply Hc; solve [eauto with frame]
  end.

(** Sector [n] is free. *)
Definition released (n : nat) (st : state) : Prop := free_map st !! n = Some false.

Lemma free_count_release bm n : free_count bm ≤ free_count (<[n := false]> bm).
Proof.
  unfold free_count. apply inj_le. revert n.
  induction bm as [|b bm IH]; intros [|n]; [done|done|..].
  - change (<[0%nat := false]> (b :: bm)) with (false :: bm).
    rewrite !filter_cons. destruct b; simpl; lia.
  - change (<[S n := false]> (b :: bm)) with (b :: <[n := false]> bm).
    rewrite !filter_cons. specialize (IH n). destruct b; simpl; lia.
Qed.

Lemma free_map_release_released n sector : keeps (released n) (free_map_release sector).
Proof.
  intros st a st' HP. unfold free_map_release.
  destruct (decide (0 ≤ sector)); [|by intros [= _ <-]].
  intros [= _ <-]. unfold released in *. cbn.
  destruct (decide (Z.to_nat sector = n)) as [<-|Hne].
  - apply list_lookup_insert_eq. by eapply lookup_lt_Some.
  - by rewrite list_lookup_insert_ne.
Qed.

Lemma free_map_release_free_count k sector :
  keeps (λ st, k ≤ free_count (free_map st)) (free_map_release sector).
Proof.
  intros st a st' HP. unfold free_map_release.
  destruct (decide (0 ≤ sector)); [|by intros [= _ <-]].
  intros [= _ <-]. cbn. pose proof (free_count_release (free_map st) (Z.to_nat sector)).
  lia.
Qed.

Lemma free_map_release_establishes sector st :
  0 ≤ sector < Z.of_nat (length (free_map st)) →
  ∃ st', free_map_release sector st = Ok (tt, st') ∧
    released (Z.to_nat sector) st'.
Proof.
  intros Hs. unfold free_map_release. rewrite decide_True by lia.
  eexists. split; [reflexivity|]. unfold released. cbn.
  apply list_lookup_insert_eq. lia.
Qed.

(** Every step of the release block keeps a property of the free-map that
    [free_map_release] keeps. *)
Lemma inode_close_release_keeps P sector :
  (∀ st st', free_map st' = free_map st → P st → P st') →
  (∀ s, keeps P (free_map_release s)) →
  keeps P (inode_close_release sector).
Proof.
  intros Hfm Hrel.
  assert (Hc : ∀ A (m : M A), preserves outside_cache m → keeps P m).
  { intros A m. by apply keeps_outside_cache. }
  unfold inode_close_release. repeat keeps_step Hrel Hc.
Qed.

(** X15.  What [inode_close] does for the last opener of a removed inode,
    when it returns: the handle is freed, the inode sector is free in the
    free-map, and no sector that was free is in use: the release block
    only releases. *)
Theorem inode_close_releases_inode_sector h ino st st' :
  inodes st !! h = Some ino → open_cnt ino = 1 → removed ino = true →
  0 ≤ inode_sector ino < Z.of_nat (length (free_map st)) →
  inode_close (Some h) st = Ok (tt, st') →
  inodes st' !! h = None ∧
  released (Z.to_nat (inode_sector ino)) st' ∧
  free_count (free_map st) ≤ free_count (free_map st').
Proof.
  intros Hh Hcnt Hrem Hsec Hclose.
  destruct (inode_close_inv _ _ _ Hclose) as (ino' & Hh' & Hino).
  rewrite Hh in Hh'. injection Hh' as <-.
  rewrite Hcnt, decide_True in Hino by done.
  split; [by rewrite Hino, lookup_delete_eq|].
  revert Hclose. unfold inode_close, store.
  rewrite bind_unfold, deref_spec, Hh. mrun. rewrite Hcnt, Hrem.
  rewrite decide_True by done. mrun.
  set (st0 := set_open_inodes _ _).
  destruct (inode_close_release (inode_sector ino) st0) as [[[] st1]|] eqn:Hrel;
    [|done].
  intros [= <-]. cbn [free_map set_inodes]. unfold released.
  cbn [free_map set_inodes].
  assert (Hfm0 : free_map st0 = free_map st) by (by destruct st).
  split.
  - (* the first three steps release the inode sector; the rest keeps it *)
    revert Hrel. unfold inode_close_release. rewrite bind_unfold.
    destruct (cache_read (inode_sector ino) 0 SIZEOF_INODE_DISK st0)
      as [[data sta]|] eqn:Hr; [|done].
    rewrite bind_unfold.
    destruct (cache_remove (inode_sector ino) sta) as [[[] stb]|] eqn:Hrm; [|done].
    assert (Hfmb : free_map stb = free_map st).
    { apply cache_read_frame in Hr. apply cache_remove_frame in Hrm.
      unfold outside_cache in *. congruence. }
    destruct (free_map_release_establishes (inode_sector ino) stb)
      as (stc & Hfr & HP); [by rewrite Hfmb|].
    rewrite bind_unfold, Hfr. intros Hrest.
    assert (Hk : ∀ s, keeps (released (Z.to_nat (inode_sector ino)))
                        (free_map_release s))
      by (intros; apply free_map_release_released).
    assert (Hc : ∀ A (m : M A), preserves outside_cache m →
              keeps (released (Z.to_nat (inode_sector ino))) m).
    { intros A m. apply keeps_outside_cache. unfold released. by intros ?? ->. }
    revert Hrest. generalize stc st1 HP. clear -Hk Hc.
    intros stc st1 HP H.
    eapply (keeps_bind (released (Z.to_nat (inode_sector ino))));
      [| |exact HP|exact H].
    + repeat keeps_step Hk Hc.
    + intros []. repeat keeps_step Hk Hc.
  - eapply (inode_close_release_keeps
              (λ s, free_count (free_map st) ≤ free_count (free_map s)));
      [by intros ?? -> | apply free_map_release_free_count | |exact Hrel].
    rewrite Hfm0. lia.
Qed.

Lemma inode_close_releases_inode_sector_witness :
  inodes (state_of (inode_close (Some 0%nat) (state_of (two_level_file st_boot))))
    !! 0%nat = None ∧
  released (Z.to_nat (inode_sector (mk_inode 2 1 true 0)))
    (state_of (inode_close (Some 0%nat) (state_of (two_level_file st_boot)))) ∧
  free_count (free_map (state_of (two_level_file st_boot))) ≤
    free_count (free_map
      (state_of (inode_close (Some 0%nat) (state_of (two_level_file st_boot))))).
Proof.
  apply (inode_close_releases_inode_sector 0 (mk_inode 2 1 true 0)
           (state_of (two_level_file st_boot))).
  - vm_compute. reflexivity.
  - reflexivity.
  - reflexivity.
  - vm_compute. split; [discriminate|reflexivity].
  - vm_compute. reflexivity.
Defined.
(** ** part_000: paths *)

(** A token as [strtok_r] cuts it: not empty, without ['/']. *)
Definition token_ok (t : string) : Prop :=
  t ≠ "" ∧ "/"%char ∉ list_ascii_of_string t.

Lemma string_of_list_nonempty (l : list ascii) :
  l ≠ [] → string_of_list_ascii l ≠ "".
Proof. by destruct l. Qed.

Lemma strtok_all_tokens path : ∀ cur,
  "/"%char ∉ cur → Forall token_ok (strtok_all path cur).
Proof.
  assert (Htok : ∀ cur : list ascii, cur ≠ [] → "/"%char ∉ cur →
            token_ok (string_of_list_ascii (reverse cur))).
  { intros cur Hne Hs. split.
    - apply string_of_list_nonempty. intros H. apply Hne.
      apply (f_equal reverse) in H. by rewrite reverse_involutive in H.
    - rewrite list_ascii_of_string_of_list_ascii. by rewrite elem_of_reverse. }
  induction path as [|c path IH]; intros cur Hcur; cbn [strtok_all].
  - destruct cur as [|x cur]; [done|]. apply Forall_singleton. by apply Htok.
  - destruct (decide (c = "/"%char)) as [->|Hne].
    + destruct cur as [|x cur]; [apply IH, not_elem_of_nil|].
      apply Forall_cons. split; [by apply Htok|]. apply IH, not_elem_of_nil.
    + apply IH. by apply not_elem_of_cons.
Qed.

(** Reading a token: the characters go to [cur], last one first. *)
Lemma strtok_all_token t : ∀ rest cur,
  "/"%char ∉ list_ascii_of_string t →
  strtok_all (t +:+ rest) cur =
    strtok_all rest (reverse (list_ascii_of_string t) ++ cur).
Proof.
  induction t as [|c t IH]; intros rest cur Hs; [done|].
  cbn [list_ascii_of_string] in Hs. apply not_elem_of_cons in Hs as [Hc Hs].
  change (String c t +:+ rest) with (String c (t +:+ rest)).
  cbn [strtok_all]. rewrite decide_False by done.
  rewrite IH by done. cbn [list_ascii_of_string].
  by rewrite reverse_cons, <- app_assoc.
Qed.

(** A ['/'] closes the token that is being read. *)
Lemma strtok_all_slash rest cur :
  strtok_all (String "/" rest) cur =
    match cur with
    | [] => strtok_all rest []
    | _ => string_of_list_ascii (reverse cur) :: strtok_all rest []
    end.
Proof. cbn [strtok_all]. by rewrite decide_True. Qed.

(** The path with a ['/'] before every component. *)
Definition join_path (ts : list string) : string :=
  foldr (λ t acc, "/" +:+ t +:+ acc) "" ts.

Lemma append_nil_r (s : string) : s +:+ "" = s.
Proof.
  induction s as [|c s IH]; [done|].
  change (String c s +:+ "") with (String c (s +:+ "")). by rewrite IH.
Qed.

Lemma append_assoc (s1 s2 s3 : string) : (s1 +:+ s2) +:+ s3 = s1 +:+ (s2 +:+ s3).
Proof.
  induction s1 as [|c s1 IH]; [done|].
  change (String c ((s1 +:+ s2) +:+ s3) = String c (s1 +:+ (s2 +:+ s3))).
  by rewrite IH.
Qed.

Lemma nonempty_match {A B} (l : list A) (a b : B) :
  l ≠ [] → match l with [] => a | _ :: _ => b end = b.
Proof. by destruct l. Qed.

(** A token followed by the end of the path or by a ['/']. *)
Lemma strtok_all_cut t rest :
  token_ok t → (rest = "" ∨ ∃ rest', rest = String "/" rest') →
  strtok_all (t +:+ rest) [] = t :: strtok_all rest [].
Proof.
  intros [Hne Hs] Hrest. rewrite strtok_all_token, app_nil_r by done.
  assert (Hr : reverse (list_ascii_of_string t) ≠ []).
  { intros H. apply Hne. apply (f_equal reverse) in H.
    rewrite reverse_involutive in H. cbn in H.
    rewrite <- (string_of_list_ascii_of_string t), H. done. }
  assert (Ht : string_of_list_ascii (reverse (reverse (list_ascii_of_string t))) = t).
  { by rewrite reverse_involutive, string_of_list_ascii_of_string. }
  destruct Hrest as [->|[rest' ->]].
  - cbn [strtok_all]. by rewrite (nonempty_match _ _ _ Hr), Ht.
  - rewrite !strtok_all_slash. by rewrite (nonempty_match _ _ _ Hr), Ht.
Qed.

(** X16.  Tokenizing is the inverse of joining: [strtok_r] cuts
    ["/t1/t2/.../tn"] into [t1, ..., tn], with or without a trailing
    ['/'], and [token_num] counts them; the tokens it cuts are never empty
    and hold no ['/']. *)
Theorem tokenize_join ts :
  Forall token_ok ts →
  strtok_all (join_path ts) [] = ts ∧
  strtok_all (join_path ts +:+ "/") [] = ts ∧
  token_num (join_path ts +:+ "/") = Z.of_nat (length ts) ∧
  tokenize_path (join_path ts +:+ "/") (token_num (join_path ts +:+ "/")) = ts ∧
  ∀ path, Forall token_ok (strtok_all path []).
Proof.
  intros Hts.
  assert (H1 : ∀ tail, (tail = "" ∨ tail = "/") →
            strtok_all (join_path ts +:+ tail) [] = ts).
  { intros tail Htail. induction Hts as [|t ts Ht _ IH].
    - destruct Htail as [->| ->]; done.
    - cbn [join_path foldr]. fold (join_path ts).
      rewrite !append_assoc.
      change ("/" +:+ t +:+ join_path ts +:+ tail)
        with (String "/" (t +:+ join_path ts +:+ tail)).
      rewrite strtok_all_slash, strtok_all_cut, IH; [done|done|].
      destruct ts as [|t' ts].
      + destruct Htail as [->| ->]; [by left|right; by eexists].
      + right. by eexists. }
  assert (Ha : strtok_all (join_path ts) [] = ts).
  { rewrite <- (append_nil_r (join_path ts)). apply H1. by left. }
  assert (Hb : strtok_all (join_path ts +:+ "/") [] = ts) by (apply H1; by right).
  split; [done|]. split; [done|].
  split; [unfold token_num; by rewrite Hb|]. split.
  - unfold tokenize_path, token_num. rewrite Hb, Nat2Z.id. apply firstn_all.
  - intros path. apply strtok_all_tokens, not_elem_of_nil.
Qed.

Lemma tokenize_join_witness :
  strtok_all (join_path ["usr"; "lib"]) [] = ["usr"; "lib"] ∧
  strtok_all (join_path ["usr"; "lib"] +:+ "/") [] = ["usr"; "lib"] ∧
  token_num (join_path ["usr"; "lib"] +:+ "/") = Z.of_nat (length ["usr"; "lib"]) ∧
  tokenize_path (join_path ["usr"; "lib"] +:+ "/")
    (token_num (join_path ["usr"; "lib"] +:+ "/")) = ["usr"; "lib"] ∧
  ∀ path, Forall token_ok (strtok_all path []).
Proof.
  apply (tokenize_join ["usr"; "lib"]).
  repeat constructor; try discriminate; vm_compute;
    intros H; repeat (apply elem_of_cons in H as [H|H]; [discriminate|]);
    by apply elem_of_nil in H.
Defined.
(** A trailing ['/'] adds no token, and what follows a ['/'] is cut on its
    own. *)
Lemma strtok_all_trailing s : ∀ cur,
  strtok_all (s +:+ "/") cur = strtok_all s cur.
Proof.
  induction s as [|c s IH]; intros cur.
  - change ("" +:+ "/") with (String "/" ""). rewrite strtok_all_slash.
    by destruct cur.
  - change (String c s +:+ "/") with (String c (s +:+ "/")).
    cbn [strtok_all]. destruct (decide (c = "/"%char)); by rewrite ?IH.
Qed.

Lemma strtok_all_after_slash p s : ∀ cur,
  strtok_all (p +:+ String "/" s) cur =
    strtok_all (p +:+ "/") cur ++ strtok_all s [].
Proof.
  induction p as [|c p IH]; intros cur.
  - change ("" +:+ String "/" s) with (String "/" s).
    change ("" +:+ "/") with (String "/" ""). rewrite !strtok_all_slash.
    by destruct cur.
  - change (String c p +:+ String "/" s) with (String c (p +:+ String "/" s)).
    change (String c p +:+ "/") with (String c (p +:+ "/")).
    cbn [strtok_all]. destruct (decide (c = "/"%char)); [|by apply IH].
    destruct cur; by rewrite IH.
Qed.

(** X17.  Path normalization: [filesys_absolute] gives no path for a null
    or empty name; an absolute name has the components of the name, and a
    relative name those of the current directory followed by those of the
    name, when the current directory is itself a normalized path. *)
Theorem filesys_absolute_components cwd name :
  filesys_absolute cwd None = None ∧
  filesys_absolute cwd (Some "") = None ∧
  (name ≠ "" →
     ∃ path, filesys_absolute cwd (Some name) = Some path ∧
       (∃ p, path = p +:+ "/") ∧
       ((∃ rest, name = String "/" rest) →
          strtok_all path [] = strtok_all name []) ∧
       ((∀ rest, name ≠ String "/" rest) → (cwd = "" ∨ ∃ p, cwd = p +:+ "/") →
          strtok_all path [] = strtok_all cwd [] ++ strtok_all name [])).
Proof.
  split; [done|]. split; [done|]. intros Hne.
  destruct name as [|c rest]; [done|]. cbn [filesys_absolute].
  destruct (decide (c = "/"%char)) as [->|Hc].
  - eexists. split; [done|]. split; [by eexists|].
    split; [intros _; apply strtok_all_trailing|].
    intros H. by destruct (H rest).
  - eexists. split; [done|]. split.
    { exists (cwd +:+ String c rest). by rewrite append_assoc. }
    split; [by intros [r [= ? _]]|]. intros _ Hcwd.
    destruct Hcwd as [->|[p ->]].
    + change ("" +:+ String c rest +:+ "/") with (String c rest +:+ "/").
      by rewrite strtok_all_trailing.
    + rewrite append_assoc.
      change ("/" +:+ String c rest +:+ "/") with (String "/" (String c rest +:+ "/")).
      by rewrite strtok_all_after_slash, (strtok_all_trailing (String c rest)).
Qed.

Lemma filesys_absolute_components_witness :
  filesys_absolute "/home/" None = None ∧
  filesys_absolute "/home/" (Some "") = None ∧
  ("a/b" ≠ "" →
     ∃ path, filesys_absolute "/home/" (Some "a/b") = Some path ∧
       (∃ p, path = p +:+ "/") ∧
       ((∃ rest, "a/b" = String "/" rest) →
          strtok_all path [] = strtok_all "a/b" []) ∧
       ((∀ rest, "a/b" ≠ String "/" rest) →
        ("/home/" = "" ∨ ∃ p, "/home/" = p +:+ "/") →
          strtok_all path [] = strtok_all "/home/" [] ++ strtok_all "a/b" [])).
Proof. apply (filesys_absolute_components "/home/" "a/b"). Defined.

(** ** part_000: the rest of the facade *)

(** filesys.h is not part of the sources; spec 6: "Sector 1: root
    directory's inode sector". *)
Definition ROOT_DIR_SECTOR : Z := 1.

Section FilesysOps.
(** As for [filesys_make], the directory layer and file.c are parameters;
    [file] is [struct file *]. *)
Context {dir file : Type}.
Variable dir_open_root : M dir.
Variable dir_open : nat → M dir.
Variable dir_close : dir → M unit.
Variable dir_lookup : dir → string → M (option nat).
Variable dir_remove : dir → string → M bool.
Variable inode_dir : nat → M bool.
Variable file_open : nat → M (option file).
Variable cwd : string.

(** [inode_open] of the model always gives a handle ([malloc] is taken to
    succeed); [dir_open] of a null inode is not modelled. *)
Definition filesys_open_inode (name : option string) : M (option nat) :=
  match filesys_absolute cwd name with
  | None => mret None
  | Some path =>
      let count := token_num path in
      inode ← inode_open ROOT_DIR_SECTOR;
      if decide (count = 0) then mret inode
      else
        let path_name := tokenize_path path count in
        match inode with
        | None => abort
        | Some i =>
            d ← dir_open i;
            inode ← filesys_open_from_dir dir_open dir_close dir_lookup inode_dir
                      (Z.to_nat count) path_name d 0 count;
            dir_close d ;;
            mret inode
        end
  end.

Definition filesys_open (name : option string) : M (option file) :=
  inode ← filesys_open_inode name;
  match inode with
  | None => mret None
  | Some i =>
      is_dir ← inode_dir i;
      if (is_dir : bool) then mret None else file_open i
  end.

Definition filesys_remove (name : option string) : M bool :=
  match filesys_absolute cwd name with
  | None => mret false
  | Some path =>
      let count := token_num path in
      if decide (count = 0) then mret false
      else
        let path_name := tokenize_path path count in
        parent ← dir_open_root;
        parent ←
          (if decide (count ≠ 1) then
             inode ← filesys_open_from_dir dir_open dir_close dir_lookup inode_dir
                       (Z.to_nat count) path_name parent 0 (count - 1);
             dir_close parent ;;
             match inode with
             | None => mret (@None dir)
             | Some i =>
                 is_dir ← inode_dir i;
                 if (is_dir : bool) then p ← dir_open i; mret (Some p)
                 else mret None
             end
           else mret (Some parent));
        match parent with
        | None => mret false
        | Some parent =>
            success ← dir_remove parent
                        (default "" (path_name !! Z.to_nat (count - 1)));
            dir_close parent ;;
            mret success
        end
  end.
End FilesysOps.
(** X18.  Names the facade refuses before it touches anything: for a null
    name and for an empty name [filesys_make], [filesys_remove],
    [filesys_open_inode] and [filesys_open] return false or a null pointer
    and leave the state as it is; for the name ["/"], which has no
    component, [filesys_make] and [filesys_remove] return false, and
    [filesys_open_inode] is [inode_open (ROOT_DIR_SECTOR)]. *)
Theorem filesys_refuses_names {dir file : Type} (dir_open_root : M dir)
    (dir_open : nat → M dir) (dir_close : dir → M unit)
    (dir_lookup : dir → string → M (option nat))
    (dir_add : dir → string → Z → M bool) (dir_remove : dir → string → M bool)
    (dir_create : Z → Z → M bool) (inode_dir : nat → M bool)
    (file_open : nat → M (option file)) (cwd : string) (is_dir : bool)
    (initial_size : Z) (st : state) :
  Forall (λ name,
      filesys_make dir_open_root dir_open dir_close dir_lookup dir_add
        dir_create inode_dir cwd name is_dir initial_size st = Ok (false, st) ∧
      filesys_remove dir_open_root dir_open dir_close dir_lookup dir_remove
        inode_dir cwd name st = Ok (false, st))
    [None; Some ""; Some "/"] ∧
  Forall (λ name,
      filesys_open_inode dir_open dir_close dir_lookup inode_dir cwd name st
        = Ok (None, st) ∧
      filesys_open dir_open dir_close dir_lookup inode_dir file_open cwd name st
        = Ok (None, st))
    [None; Some ""] ∧
  filesys_open_inode dir_open dir_close dir_lookup inode_dir cwd (Some "/") st
    = inode_open ROOT_DIR_SECTOR st.
Proof.
  split; [|split].
  - repeat constructor.
  - repeat constructor.
  - unfold filesys_open_inode, filesys_absolute. rewrite decide_True by done.
    cbv zeta. change (token_num ("/" +:+ "/")) with 0. rewrite bind_unfold.
    destruct (inode_open ROOT_DIR_SECTOR st) as [[i st1]|]; [|done].
    by rewrite decide_True.
Qed.



